(** * Event recommendation engine (src/app.js): a shallow embedding

    JavaScript numbers are IEEE-754 binary64 values, modelled with the
    Standard Library's executable specification [spec_float]
    (prec = 53, emax = 1024, rounding to nearest even).  The Math
    functions that ECMAScript leaves implementation-approximated
    ([Math.exp], [Math.sin], [Math.cos], [Math.atan2], the [**] operator)
    and [String.prototype.localeCompare] are supplied by a [Host] record;
    [Math.sqrt] is the correctly rounded IEEE square root.  A computation
    that throws a [TypeError] in JavaScript returns [None]. *)

From Stdlib Require Import ZArith List String Bool Lia.
From Stdlib Require Import Floats.SpecFloat.
From Stdlib Require Import Reals Lra Permutation.
Import ListNotations.

Open Scope Z_scope.

(** ** Numbers *)

Definition num := spec_float.
Definition prec : Z := 53.
Definition emax : Z := 1024.

Definition js_add (x y : num) : num := SFadd prec emax x y.
Definition js_sub (x y : num) : num := SFsub prec emax x y.
Definition js_mul (x y : num) : num := SFmul prec emax x y.
Definition js_div (x y : num) : num := SFdiv prec emax x y.
Definition js_neg (x : num) : num := SFopp x.
Definition js_sqrt (x : num) : num := SFsqrt prec emax x.

(** [x === y], [x < y], [x <= y] on numbers (false as soon as one is NaN). *)
Definition js_eq (x y : num) : bool := SFeqb x y.
Definition js_lt (x y : num) : bool := SFltb x y.
Definition js_le (x y : num) : bool := SFleb x y.
Definition js_gt (x y : num) : bool := SFltb y x.
Definition js_ge (x y : num) : bool := SFleb y x.

Definition NaN : num := S754_nan.
Definition Infinity : num := S754_infinity false.
Definition NegInfinity : num := S754_infinity true.
Definition pzero : num := S754_zero false.

Definition is_nan (x : num) : bool :=
  match x with S754_nan => true | _ => false end.
Definition is_zero (x : num) : bool :=
  match x with S754_zero _ => true | _ => false end.

(** [Number.isFinite] *)
Definition isFinite (x : num) : bool :=
  match x with S754_zero _ | S754_finite _ _ _ => true | _ => false end.

(** The double holding the integer [n] (exact for |n| < 2^53). *)
Definition of_Z (n : Z) : num := binary_normalize prec emax n 0 false.

Definition one : num := of_Z 1.
Definition two : num := of_Z 2.

(** [Math.max(x, y)] and [Math.min(x, y)]: NaN wins, and +0 is larger than -0. *)
Definition js_max (x y : num) : num :=
  if is_nan x || is_nan y then NaN else
  match x, y with
  | S754_zero sx, S754_zero sy => S754_zero (sx && sy)
  | _, _ => if js_lt x y then y else x
  end.

Definition js_min (x y : num) : num :=
  if is_nan x || is_nan y then NaN else
  match x, y with
  | S754_zero sx, S754_zero sy => S754_zero (sx || sy)
  | _, _ => if js_lt y x then y else x
  end.

(** Truncation toward zero of a finite double, as an integer. *)
Definition truncZ (s : bool) (m : positive) (e : Z) : Z :=
  let a := if 0 <=? e then Z.pos m * 2 ^ e else Z.pos m / 2 ^ (- e) in
  if s then - a else a.

(** ECMAScript ToInt32, i.e. the value of [x | 0]. *)
Definition toInt32 (x : num) : Z :=
  match x with
  | S754_finite s m e =>
      let r := truncZ s m e mod 2 ^ 32 in
      if 2 ^ 31 <=? r then r - 2 ^ 32 else r
  | _ => 0
  end.

(** The real number a double denotes; [0] for infinities and NaN. *)
Definition realValue (x : num) : R :=
  match x with
  | S754_finite s m e => ((if s then -1 else 1) * IZR (Z.pos m) * powerRZ 2 e)%R
  | _ => 0%R
  end.

(** ** Host functions left to the implementation by ECMAScript *)

Record Host := {
  Math_exp : num -> num;
  Math_sin : num -> num;
  Math_cos : num -> num;
  Math_atan2 : num -> num -> num;
  exponentiate : num -> num -> num;  (** the [**] operator *)
  localeCompare : string -> string -> num
}.

(** [Math.PI], nearest double to pi. *)
Definition Math_PI : num := S754_finite false 7074237752028440 (-51).

(** ** Configuration *)

Record Config := {
  w_pref : num; w_sim : num; w_geo : num; w_pop : num; w_cold : num;
  distanceDecayKm : num;
  hardGeoCutoffKm : option num;   (** [null] is [None] *)
  diversity_enabled : bool;
  diversity_alpha : num;
  diversity_perCategoryCap : num
}.

(** The literal [CONFIG] of app.js; decimal constants are their nearest doubles. *)
Definition CONFIG : Config := {|
  w_pref := S754_finite false 6305039478318694 (-54);   (* 0.35 *)
  w_sim := S754_finite false 5404319552844595 (-54);    (* 0.30 *)
  w_geo := S754_finite false 7205759403792794 (-55);    (* 0.20 *)
  w_pop := S754_finite false 5404319552844595 (-55);    (* 0.15 *)
  w_cold := S754_finite false 7205759403792794 (-56);   (* 0.10 *)
  distanceDecayKm := of_Z 1000;
  hardGeoCutoffKm := None;
  diversity_enabled := true;
  diversity_alpha := S754_finite false 5764607523034235 (-56);   (* 0.08 *)
  diversity_perCategoryCap := of_Z 3
|}.

(** ** Records *)

(** A location; a non-numeric coordinate is represented by NaN, which
    [hasValidLocation] rejects exactly as it rejects a non-number. *)
Record Loc := { lat : num; lng : num }.

Record Event := {
  ev_id : string;                  (** a missing id is the falsy empty string *)
  ev_categories : list string;     (** a non-array is read as [[]] *)
  ev_location : option Loc;
  ev_popularity : option num       (** [None]: not of type number *)
}.

Record User := {
  u_location : option Loc;
  u_preferences : list string;
  u_attendedEvents : list string
}.

(** Heap nodes: [{ score, distance, popularity, id, event }]. *)
Record Node := {
  score : num; distance : num; popularity : num; id : string; event : Event
}.

Definition EARTH_RADIUS_KM : num := of_Z 6371.

(** ** Math helpers *)

Definition toRad (deg : num) : num := js_div (js_mul deg Math_PI) (of_Z 180).

Definition hasValidLocation (loc : option Loc) : bool :=
  match loc with
  | Some l => isFinite (lat l) && isFinite (lng l)
  | None => false
  end.

(** [new Set(arr)]: first occurrences, in order. *)
Fixpoint setOf_aux (acc : list string) (l : list string) : list string :=
  match l with
  | [] => rev acc
  | x :: t => if existsb (String.eqb x) acc then setOf_aux acc t
              else setOf_aux (x :: acc) t
  end.
Definition setOf (l : list string) : list string := setOf_aux [] l.

Definition jaccard (arrA arrB : list string) : num :=
  match arrA, arrB with
  | [], _ | _, [] => pzero
  | _, _ =>
      let setA := setOf arrA in
      let setB := setOf arrB in
      let inter := Z.of_nat (List.length (filter (fun v => existsb (String.eqb v) setB) setA)) in
      let union := Z.of_nat (List.length setA) + Z.of_nat (List.length setB) - inter in
      if union =? 0 then pzero else js_div (of_Z inter) (of_Z union)
  end.

Definition proximityScoreFromKm (H : Host) (distanceKm d0 : num) : num :=
  if negb (isFinite distanceKm) then pzero
  else let d := js_max pzero distanceKm in
       Math_exp H (js_div (js_neg d) d0).

(** ** Binary min-heap over a list *)

Fixpoint list_set {A : Type} (l : list A) (i : nat) (v : A) : list A :=
  match l, i with
  | [], _ => []
  | _ :: t, O => v :: t
  | x :: t, S i' => x :: list_set t i' v
  end.

Definition heapSwap (h : list Node) (i j : nat) : list Node :=
  match nth_error h i, nth_error h j with
  | Some x, Some y => list_set (list_set h i y) j x
  | _, _ => h
  end.

Definition heapLess (a b : Node) : bool :=
  if negb (js_eq (score a) (score b)) then js_lt (score a) (score b)
  else if negb (js_eq (distance a) (distance b)) then js_gt (distance a) (distance b)
  else if negb (js_eq (popularity a) (popularity b)) then js_lt (popularity a) (popularity b)
  else String.ltb (id b) (id a).

Definition lessAt (h : list Node) (i j : nat) : bool :=
  match nth_error h i, nth_error h j with
  | Some x, Some y => heapLess x y
  | _, _ => false
  end.

(** [fuel] bounds the loop; [i] strictly decreases, so [i + 1] steps suffice. *)
Fixpoint heapSiftUp (fuel : nat) (h : list Node) (i : nat) : list Node :=
  match fuel with
  | O => h
  | S fuel' =>
      match i with
      | O => h
      | S _ =>
          let p := Nat.div (i - 1)%nat 2 in
          if negb (lessAt h i p) then h
          else heapSiftUp fuel' (heapSwap h i p) p
      end
  end.

(** [fuel] bounds the loop; [i] at least doubles, so [List.length h] steps suffice. *)
Fixpoint heapSiftDown (fuel : nat) (h : list Node) (i : nat) : list Node :=
  match fuel with
  | O => h
  | S fuel' =>
      let n := List.length h in
      let l := (2 * i + 1)%nat in
      let r := (2 * i + 2)%nat in
      let s := if Nat.ltb l n && lessAt h l i then l else i in
      let s := if Nat.ltb r n && lessAt h r s then r else s in
      if Nat.eqb s i then h
      else heapSiftDown fuel' (heapSwap h i s) s
  end.

Definition heapPush (h : list Node) (node : Node) : list Node :=
  let h' := h ++ [node] in heapSiftUp (List.length h') h' (List.length h' - 1)%nat.

Definition heapReplaceRoot (h : list Node) (node : Node) : list Node :=
  let h' := list_set h 0 node in heapSiftDown (List.length h') h' 0.

Definition betterThan (a b : Node) : bool :=
  if negb (js_eq (score a) (score b)) then js_gt (score a) (score b)
  else if negb (js_eq (distance a) (distance b)) then js_lt (distance a) (distance b)
  else if negb (js_eq (popularity a) (popularity b)) then js_gt (popularity a) (popularity b)
  else String.ltb (id a) (id b).

(** ** Similarity counts and the category popularity prior *)

(** [eventSimilarity[eid]] when it is an array; a missing or [null]
    similarity object answers [None] everywhere. *)
Definition SimilarityIndex := string -> option (list string).

(** [counts.set(sid, (counts.get(sid) || 0) + 1)] as a function map. *)
Definition bumpCount (counts : string -> Z) (sid : string) : string -> Z :=
  fun k => if String.eqb k sid then counts k + 1 else counts k.

Definition buildSimilarCounts (attended : list string) (eventSimilarity : SimilarityIndex)
  : string -> Z :=
  fold_left (fun counts eid =>
               match eventSimilarity eid with
               | None => counts
               | Some sims => fold_left bumpCount sims counts
               end) attended (fun _ => 0).

(** [typeof p === 'number' ? Math.max(0, Math.min(1, p)) : 0] *)
Definition clampPopularity (p : option num) : num :=
  match p with
  | Some x => js_max pzero (js_min one x)
  | None => pzero
  end.

(** [v || 0] for a value read from a [Map] of numbers: [undefined], [0],
    [-0] and [NaN] are falsy and give [0]. *)
Definition orZero (v : option num) : num :=
  match v with
  | Some x => if is_nan x || is_zero x then pzero else x
  | None => pzero
  end.

Definition tallyAdd (pop : num) (tally : string -> option num) (c : string)
  : string -> option num :=
  fun k => if String.eqb k c then Some (js_add (orZero (tally c)) pop) else tally k.

Definition buildCategoryPopularityMap (events : list (option Event)) : string -> option num :=
  fold_left (fun tally oe =>
               match oe with
               | None => tally
               | Some e => fold_left (tallyAdd (clampPopularity (ev_popularity e)))
                                     (ev_categories e) tally
               end) events (fun _ => None).

Definition priorSumOf (popByCat : string -> option num) (cats : list string) : num :=
  fold_left (fun s c => js_add s (orZero (popByCat c))) cats pzero.

Definition computeMaxPriorAcrossEvents (events : list (option Event))
  (popByCat : string -> option num) : num :=
  fold_left (fun maxPrior oe =>
               let cats := match oe with Some e => ev_categories e | None => [] end in
               let sum := priorSumOf popByCat cats in
               if js_gt sum maxPrior then sum else maxPrior) events pzero.

(** ** Distance *)

Definition calculateDistance (H : Host) (point1 point2 : option Loc) : num :=
  match point1, point2 with
  | Some p1, Some p2 =>
      if negb (hasValidLocation point1) || negb (hasValidLocation point2) then Infinity
      else
        let lat1 := toRad (lat p1) in
        let lat2 := toRad (lat p2) in
        let dLat := js_sub lat2 lat1 in
        let dLng := toRad (js_sub (lng p2) (lng p1)) in
        let a := js_add (exponentiate H (Math_sin H (js_div dLat two)) two)
                        (js_mul (js_mul (Math_cos H lat1) (Math_cos H lat2))
                                (exponentiate H (Math_sin H (js_div dLng two)) two)) in
        let c := js_mul two (Math_atan2 H (js_sqrt a) (js_sqrt (js_sub one a))) in
        js_mul EARTH_RADIUS_KM c
  | _, _ => Infinity
  end.

(** ** Signals and their per-user weighting *)

Record Active := { a_pref : bool; a_sim : bool; a_geo : bool; a_pop : bool; a_cold : bool }.

Definition hasPrefs (user : User) : bool := negb (Nat.eqb (List.length (u_preferences user)) 0).
Definition hasHistory (user : User) : bool := negb (Nat.eqb (List.length (u_attendedEvents user)) 0).
Definition hasGeo (user : User) : bool := hasValidLocation (u_location user).
Definition coldStart (user : User) : bool := negb (hasPrefs user) && negb (hasHistory user).

Definition activeOf (user : User) : Active := {|
  a_pref := hasPrefs user; a_sim := hasHistory user; a_geo := hasGeo user;
  a_pop := true; a_cold := coldStart user |}.

(** [Object.keys(CONFIG.weights)]: pref, sim, geo, pop, cold. *)
Definition weightEntries (cfg : Config) (act : Active) : list (bool * num) :=
  [(a_pref act, w_pref cfg); (a_sim act, w_sim cfg); (a_geo act, w_geo cfg);
   (a_pop act, w_pop cfg); (a_cold act, w_cold cfg)].

Definition weightSumOf (cfg : Config) (act : Active) : num :=
  let weightSum := fold_left (fun (s : num) (kw : bool * num) => if fst kw then js_add s (snd kw) else s)
                             (weightEntries cfg act) pzero in
  if js_le weightSum pzero then one else weightSum.

(** [(active.x ? CONFIG.weights.x * xScore : 0)] *)
Definition signalTerm (on : bool) (w v : num) : num := if on then js_mul w v else pzero.

Definition combineSignals (cfg : Config) (act : Active) (weightSum : num)
  (prefScore simScore geoScore pop coldScore : num) : num :=
  let combined :=
    js_add (js_add (js_add (js_add
      (signalTerm (a_pref act) (w_pref cfg) prefScore)
      (signalTerm (a_sim act) (w_sim cfg) simScore))
      (signalTerm (a_geo act) (w_geo cfg) geoScore))
      (signalTerm (a_pop act) (w_pop cfg) pop))
      (signalTerm (a_cold act) (w_cold cfg) coldScore) in
  js_div combined weightSum.

(** [Number.isFinite(CONFIG.hardGeoCutoffKm) && distanceKm > CONFIG.hardGeoCutoffKm] *)
Definition cutoffExceeded (cfg : Config) (distanceKm : num) : bool :=
  match hardGeoCutoffKm cfg with
  | Some c => isFinite c && js_gt distanceKm c
  | None => false
  end.

(** Per-call values computed once before the scoring loop. *)
Record Prepared := {
  similarCounts : string -> Z;
  popByCat : option (string -> option num);
  maxPrior : num;
  weightSum : num
}.

Definition prepare (cfg : Config) (user : User) (events : list (option Event))
  (eventSimilarity : SimilarityIndex) : Prepared :=
  let pbc := if coldStart user then Some (buildCategoryPopularityMap events) else None in
  {| similarCounts := buildSimilarCounts (u_attendedEvents user) eventSimilarity;
     popByCat := pbc;
     maxPrior := match pbc with
                 | Some m => computeMaxPriorAcrossEvents events m
                 | None => pzero
                 end;
     weightSum := weightSumOf cfg (activeOf user) |}.

(** The distance computed for one candidate (before the cutoff test). *)
Definition eventDistance (H : Host) (user : User) (ev : Event) : num :=
  if hasGeo user && hasValidLocation (ev_location ev)
  then calculateDistance H (u_location user) (ev_location ev)
  else Infinity.

Definition geoScoreOf (H : Host) (cfg : Config) (user : User) (distanceKm : num) : num :=
  if a_geo (activeOf user) then proximityScoreFromKm H distanceKm (distanceDecayKm cfg)
  else pzero.

Definition coldScoreOf (user : User) (P : Prepared) (categories : list string) : num :=
  match popByCat P with
  | Some m =>
      if coldStart user then
        let priorSum := priorSumOf m categories in
        if js_gt (maxPrior P) pzero then js_div priorSum (maxPrior P) else pzero
      else pzero
  | None => pzero
  end.

(** The body of the scoring loop: [None] when the event is skipped
    ([continue]), otherwise the node pushed to the heap. *)
Definition scoreEvent (H : Host) (cfg : Config) (user : User) (P : Prepared)
  (oev : option Event) : option Node :=
  match oev with
  | None => None
  | Some ev =>
      if String.eqb (ev_id ev) EmptyString then None
      else if existsb (String.eqb (ev_id ev)) (u_attendedEvents user) then None
      else
        let act := activeOf user in
        let categories := ev_categories ev in
        let pop := clampPopularity (ev_popularity ev) in
        let prefScore := if hasPrefs user then jaccard (u_preferences user) categories else pzero in
        let simCount := similarCounts P (ev_id ev) in
        let simScore :=
          if hasHistory user
          then js_min one (js_div (of_Z simCount) (of_Z (Z.of_nat (List.length (u_attendedEvents user)))))
          else pzero in
        let distanceKm := eventDistance H user ev in
        if hasGeo user && hasValidLocation (ev_location ev) && cutoffExceeded cfg distanceKm
        then None
        else
          let geoScore := geoScoreOf H cfg user distanceKm in
          let coldScore := coldScoreOf user P categories in
          let combined := combineSignals cfg act (weightSum P) prefScore simScore geoScore pop coldScore in
          Some {| score := combined;
                  distance := if isFinite distanceKm then distanceKm else Infinity;
                  popularity := pop;
                  id := ev_id ev;
                  event := ev |}
  end.

(** One iteration of the top-k scan. *)
Definition scanStep (k : nat) (heap : list Node) (node : option Node) : list Node :=
  match node with
  | None => heap
  | Some n =>
      if Nat.ltb (List.length heap) k then heapPush heap n
      else match heap with
           | root :: _ => if betterThan n root then heapReplaceRoot heap n else heap
           | [] => heap
           end
  end.

Definition topKScan (H : Host) (cfg : Config) (user : User) (P : Prepared) (k : nat)
  (events : list (option Event)) : list Node :=
  fold_left (fun heap oev => scanStep k heap (scoreEvent H cfg user P oev)) events [].

(** ** Final ordering of the survivors: [heap.sort(cmp)] *)

Definition rankCompare (H : Host) (a b : Node) : num :=
  if negb (js_eq (score b) (score a)) then js_sub (score b) (score a)
  else if negb (js_eq (distance a) (distance b)) then js_sub (distance a) (distance b)
  else if negb (js_eq (popularity b) (popularity a)) then js_sub (popularity b) (popularity a)
  else localeCompare H (id a) (id b).

(** A stable insertion sort; [x] goes before [y] when [cmp(x, y) < 0]
    (a NaN comparison result counts as [+0], as in SortCompare). *)
Fixpoint insertBy (cmp : Node -> Node -> num) (x : Node) (l : list Node) : list Node :=
  match l with
  | [] => [x]
  | y :: t => if js_lt (cmp x y) pzero then x :: l else y :: insertBy cmp x t
  end.

Definition sortBy (cmp : Node -> Node -> num) (l : list Node) : list Node :=
  fold_left (fun acc x => insertBy cmp x acc) l [].

(** ** Diversity re-rank *)

Definition half : num := S754_finite false 4503599627370496 (-53).

Definition penaltyFor (alpha perCategoryCap : num) (catCounts : string -> Z) (ev : Event) : num :=
  match ev_categories ev with
  | [] => pzero
  | cats =>
      let maxCount := fold_left (fun m c => Z.max m (catCounts c)) cats 0 in
      let capPenalty :=
        if isFinite perCategoryCap && js_ge (of_Z maxCount) perCategoryCap then half else pzero in
      js_add (js_mul alpha (of_Z maxCount)) capPenalty
  end.

(** The inner [for (let i = 0; i < N; i++)] loop: [(bestIdx, bestVal)],
    with [bestIdx = -1] as [None]. *)
Definition selectBest (alpha perCategoryCap : num) (catCounts : string -> Z)
  (nodes : list Node) (used : list bool) : option nat * num :=
  fold_left (fun (best : option nat * num) (i : nat) =>
               match nth_error used i, nth_error nodes i with
               | Some false, Some node =>
                   let val := js_sub (score node) (penaltyFor alpha perCategoryCap catCounts (event node)) in
                   if js_gt val (snd best) then (Some i, val) else best
               | _, _ => best
               end) (seq 0 (List.length nodes)) (None, NegInfinity).

Definition addCategories (catCounts : string -> Z) (cats : list string) : string -> Z :=
  fold_left bumpCount cats catCounts.

(** The outer loop, [steps] iterations left; [out] is kept reversed. *)
Fixpoint rerankLoop (alpha perCategoryCap : num) (nodes : list Node) (steps : nat)
  (used : list bool) (catCounts : string -> Z) (out : list Node) : option (list Node) :=
  match steps with
  | O => Some (rev out)
  | S steps' =>
      match fst (selectBest alpha perCategoryCap catCounts nodes used) with
      | None => None   (* nodes[-1] is undefined: [chosen.event] throws *)
      | Some bestIdx =>
          match nth_error nodes bestIdx with
          | None => None
          | Some chosen =>
              rerankLoop alpha perCategoryCap nodes steps' (list_set used bestIdx true)
                         (addCategories catCounts (ev_categories (event chosen)))
                         (chosen :: out)
          end
      end
  end.

Definition rerankWithCategoryDiversity (nodes : list Node) (alpha perCategoryCap : num)
  : option (list Node) :=
  rerankLoop alpha perCategoryCap nodes (List.length nodes)
             (repeat false (List.length nodes)) (fun _ => 0) [].

(** ** getRecommendedEvents *)

(** [limit] is [None] when the argument is omitted (default [5]). *)
Definition getRecommendedEvents (H : Host) (cfg : Config) (user : User)
  (events : list (option Event)) (eventSimilarity : SimilarityIndex) (limit : option num)
  : option (list Event) :=
  let limit := match limit with Some l => l | None => of_Z 5 end in
  if Nat.eqb (List.length events) 0 || js_le limit pzero then Some []
  else
    let P := prepare cfg user events eventSimilarity in
    let k := Z.min (Z.max 0 (toInt32 limit)) (Z.of_nat (List.length events)) in
    if k =? 0 then Some []
    else
      let heap := topKScan H cfg user P (Z.to_nat k) events in
      match heap with
      | [] => Some []
      | _ =>
          let nodes := sortBy (rankCompare H) heap in
          let diversified :=
            if diversity_enabled cfg && Nat.ltb 1 (List.length nodes)
            then rerankWithCategoryDiversity nodes (diversity_alpha cfg) (diversity_perCategoryCap cfg)
            else Some nodes in
          option_map (map event) diversified
      end.

(** ** A reference host

    One admissible choice of the host functions, used to run the
    development on concrete inputs.  It is exact on the special values
    that ECMAScript fixes (NaN, infinities, +0) and uses first-order
    approximations elsewhere. *)

Definition refHost : Host := {|
  Math_exp := fun x => match x with
                       | S754_nan => NaN
                       | S754_infinity false => Infinity
                       | S754_infinity true => pzero
                       | _ => js_max pzero (js_add one x)
                       end;
  Math_sin := fun x => match x with
                       | S754_nan | S754_infinity _ => NaN
                       | _ => x
                       end;
  Math_cos := fun x => match x with
                       | S754_nan | S754_infinity _ => NaN
                       | _ => one
                       end;
  Math_atan2 := fun y x =>
                  if is_nan y || is_nan x then NaN
                  else if is_zero y && js_gt x pzero then y
                  else js_div y x;
  (* app.js only ever squares *)
  exponentiate := fun x y => if js_eq y two then js_mul x x else NaN;
  localeCompare := fun a b =>
                     if String.eqb a b then pzero
                     else if String.ltb a b then js_neg one else one
|}.

(** What ECMAScript fixes about the host functions used by
    [calculateDistance]: their results on NaN and +0, and that the cosine
    of a finite number is a double in [[-1, 1]]. *)
Record EcmaMath (H : Host) : Prop := {
  sin_nan : Math_sin H NaN = NaN;
  sin_pzero : Math_sin H pzero = pzero;
  cos_finite : forall x, isFinite x = true ->
    valid_binary prec emax (Math_cos H x) = true /\ js_le (SFabs (Math_cos H x)) one = true;
  pow_nan_two : exponentiate H NaN two = NaN;
  pow_pzero_two : exponentiate H pzero two = pzero;
  atan2_nan_l : forall x, Math_atan2 H NaN x = NaN;
  atan2_pzero_pos : forall x, js_gt x pzero = true -> Math_atan2 H pzero x = pzero
}.

(** ** Readings of the specification *)

(** Eligible candidates as the specification counts them: an event with an
    identifier, not attended by the user, and not removed by the hard geo
    cutoff. *)
Definition eligibleCandidate (H : Host) (cfg : Config) (user : User) (oev : option Event) : bool :=
  match oev with
  | None => false
  | Some ev =>
      negb (String.eqb (ev_id ev) EmptyString)
      && negb (existsb (String.eqb (ev_id ev)) (u_attendedEvents user))
      && negb (hasGeo user && hasValidLocation (ev_location ev)
               && cutoffExceeded cfg (calculateDistance H (u_location user) (ev_location ev)))
  end.

Definition eligibleCandidateCount (H : Host) (cfg : Config) (user : User)
  (events : list (option Event)) : nat :=
  List.length (filter (eligibleCandidate H cfg user) events).

(** The integer a double holds exactly, if it holds one. *)
Definition intValue (x : num) : option Z :=
  match x with
  | S754_zero _ => Some 0
  | S754_finite s m e =>
      if (0 <=? e) || (Z.pos m mod 2 ^ (- e) =? 0) then Some (truncZ s m e) else None
  | _ => None
  end.

(** The limit as an integer; an omitted limit is [5]. *)
Definition limitValue (limit : option num) : option Z :=
  match limit with Some l => intValue l | None => Some 5 end.

(** The signals of the specification with their activity for [user]:
    (active, weight, value). *)
Definition specSignals (cfg : Config) (user : User)
  (prefScore simScore geoScore pop coldScore : num) : list (bool * num * num) :=
  let prefOn := negb (Nat.eqb (List.length (u_preferences user)) 0) in
  let simOn := negb (Nat.eqb (List.length (u_attendedEvents user)) 0) in
  [(prefOn, w_pref cfg, prefScore);
   (simOn, w_sim cfg, simScore);
   (hasValidLocation (u_location user), w_geo cfg, geoScore);
   (true, w_pop cfg, pop);
   (negb prefOn && negb simOn, w_cold cfg, coldScore)].

(** Sum over the active signals of weight times value, divided by the sum of
    the active weights, with [1] in place of a zero sum. *)
Definition combinedSpec (cfg : Config) (user : User)
  (prefScore simScore geoScore pop coldScore : num) : num :=
  let sig := specSignals cfg user prefScore simScore geoScore pop coldScore in
  let numer := fold_left (fun (acc : num) (t : bool * num * num) =>
                 let '(on, w, v) := t in if on then js_add acc (js_mul w v) else acc) sig pzero in
  let denom := fold_left (fun (acc : num) (t : bool * num * num) =>
                 let '(on, w, _) := t in if on then js_add acc w else acc) sig pzero in
  js_div numer (if js_eq denom pzero then one else denom).

(** Equal doubles up to the sign of a zero ([+0 === -0] holds in JavaScript). *)
Definition same_number (x y : num) : Prop :=
  x = y \/ (is_zero x = true /\ is_zero y = true).

(** [2^e] as a real number. *)
Definition pow2 (e : Z) : R := powerRZ 2 e.

(** [inb m l t]: the real [t] lies in [[m, m+1)] where the location [l] of
    SpecFloat's rounding code puts it: on [m], below, on or above the midpoint. *)
Definition inb (m : Z) (l : location) (t : R) : Prop :=
  match l with
  | loc_Exact => t = IZR m
  | loc_Inexact c =>
      (IZR m < t < IZR m + 1)%R /\
      match c with
      | Lt => (t < IZR m + / 2)%R
      | Eq => t = (IZR m + / 2)%R
      | Gt => (IZR m + / 2 < t)%R
      end
  end.

(** The same on the grid of step [2^e]. *)
Definition inbetween (m e : Z) (l : location) (x : R) : Prop := inb m l (x / pow2 e).

(** [e] is the exponent of the binary64 grid on which a positive real [x]
    is rounded: at least [emin], [x < 2^(e+53)], and [2^(e+52) <= x] unless
    [e = emin]. *)
Definition goodExp (e : Z) (x : R) : Prop :=
  emin prec emax <= e /\ (x < pow2 (e + 53))%R /\ (e = emin prec emax \/ (pow2 (e + 52) <= x)%R).

(** Mantissa and exponent once a rounded mantissa of [2^53] is renormalised. *)
Definition roundPair (m e : Z) : Z * Z := if m =? 2 ^ 53 then (2 ^ 52, e + 1) else (m, e).

(** The non-negative double of a (mantissa, exponent) pair: [+0] for a zero
    mantissa, [+Infinity] past the largest exponent. *)
Definition outp (me : Z * Z) : num :=
  match fst me with
  | Z0 => S754_zero false
  | Z.pos m => if snd me <=? emax - prec then S754_finite false m (snd me) else S754_infinity false
  | Z.neg _ => S754_nan
  end.

Definition isSome {A : Type} (o : option A) : bool :=
  match o with Some _ => true | None => false end.

(** The number of events the scoring loop keeps (does not [continue] past). *)
Definition scoredCount (H : Host) (cfg : Config) (user : User) (Pr : Prepared)
  (events : list (option Event)) : nat :=
  List.length (filter (fun oev => isSome (scoreEvent H cfg user Pr oev)) events).

(** ** Concrete inputs *)

Definition noSimilarity : SimilarityIndex := fun _ => None.

Definition coldUser : User := {|
  u_location := None; u_preferences := []; u_attendedEvents := [] |}.

(** A user with a valid location at (0, 0) and no preferences or history. *)
Definition geoUser : User := {|
  u_location := Some {| lat := pzero; lng := pzero |};
  u_preferences := []; u_attendedEvents := [] |}.

(** A user who attended ["b"] and likes ["music"]. *)
Definition musicUser : User := {|
  u_location := None; u_preferences := ["music"%string]; u_attendedEvents := ["b"%string] |}.

(** An event with [popularity: NaN] (a number for [typeof]). *)
Definition evNaNPop : Event := {|
  ev_id := "a"; ev_categories := ["music"%string]; ev_location := None;
  ev_popularity := Some NaN |}.

Definition evHalfPop : Event := {|
  ev_id := "b"; ev_categories := ["art"%string]; ev_location := None;
  ev_popularity := Some half |}.

Definition evOnePop : Event := {|
  ev_id := "a"; ev_categories := ["music"%string]; ev_location := None;
  ev_popularity := Some one |}.

Definition evNoPop : Event := {|
  ev_id := "c"; ev_categories := ["art"%string; "music"%string]; ev_location := None;
  ev_popularity := None |}.

Definition evNoLocation : Event := {|
  ev_id := "e"; ev_categories := []; ev_location := None; ev_popularity := None |}.

(** A heap node whose score is NaN. *)
Definition nanScoreNode : Node := {|
  score := NaN; distance := Infinity; popularity := NaN; id := "a"; event := evNaNPop |}.

(** [2 ** 31] and [2.7]. *)
Definition twoPow31 : num := S754_finite false 4503599627370496 (-21).
Definition twoPointSeven : num := S754_finite false 6079859496950170 (-51).

(** A valid point with latitude [1e308]: finite, but [toRad] overflows. *)
Definition hugeLatPoint : Loc := {|
  lat := S754_finite false 5010420900022432 971; lng := pzero |}.

Definition unitLatPoint : Loc := {| lat := one; lng := pzero |}.

(** The node ids kept by the heap scan. *)
Definition heapIds (H : Host) (cfg : Config) (user : User) (events : list (option Event))
  (eventSimilarity : SimilarityIndex) (k : nat) : list string :=
  map id (topKScan H cfg user (prepare cfg user events eventSimilarity) k events).

(** ** Orders, heaps and sub-multisets used by the proofs *)

(** The position of a non-NaN double on the number line, as a key ordered
    lexicographically: class, then exponent, then mantissa. *)
Definition fkey (x : num) : Z * Z * Z :=
  match x with
  | S754_infinity true => (0, 0, 0)
  | S754_finite true m e => (1, - e, Z.neg m)
  | S754_zero _ => (2, 0, 0)
  | S754_finite false m e => (3, e, Z.pos m)
  | S754_infinity false => (4, 0, 0)
  | S754_nan => (5, 0, 0)
  end.

Definition keycmp (a b : Z * Z * Z) : comparison :=
  let '(a1, a2, a3) := a in
  let '(b1, b2, b3) := b in
  match Z.compare a1 b1 with
  | Eq => match Z.compare a2 b2 with Eq => Z.compare a3 b3 | r => r end
  | r => r
  end.

Definition keylt (a b : Z * Z * Z) : Prop :=
  let '(a1, a2, a3) := a in
  let '(b1, b2, b3) := b in
  a1 < b1 \/ a1 = b1 /\ (a2 < b2 \/ a2 = b2 /\ a3 < b3).

(** Score, distance and popularity of a node are numbers other than NaN. *)
Definition nodeNumeric (n : Node) : bool :=
  negb (is_nan (score n)) && negb (is_nan (distance n)) && negb (is_nan (popularity n)).

(** [betterThan] as a lexicographic comparison of keys. *)
Definition nodeBetter (a b : Node) : Prop :=
  keylt (fkey (score b)) (fkey (score a)) \/
  fkey (score a) = fkey (score b) /\
  (keylt (fkey (distance a)) (fkey (distance b)) \/
   fkey (distance a) = fkey (distance b) /\
   (keylt (fkey (popularity b)) (fkey (popularity a)) \/
    fkey (popularity a) = fkey (popularity b) /\ String.ltb (id a) (id b) = true)).

(** The nodes whose [used] flag is still [false]. *)
Definition unusedNodes (used : list bool) (nodes : list Node) : list Node :=
  map snd (filter (fun p => negb (fst p)) (combine used nodes)).

(** [l] is [l'] with some elements left out, the others kept in order. *)
Inductive Sublist {A : Type} : list A -> list A -> Prop :=
| Sublist_nil : Sublist [] []
| Sublist_skip x l l' : Sublist l l' -> Sublist l (x :: l')
| Sublist_keep x l l' : Sublist l l' -> Sublist (x :: l) (x :: l').

(** The nodes of the scoring loop, one per event it does not skip, in order. *)
Definition scoredNodes (H : Host) (cfg : Config) (user : User) (Pr : Prepared)
  (events : list (option Event)) : list Node :=
  flat_map (fun oev => match scoreEvent H cfg user Pr oev with Some n => [n] | None => [] end) events.

(** [cats] of the source's [computeMaxPriorAcrossEvents] loop. *)
Definition eventCategories (oe : option Event) : list string :=
  match oe with Some e => ev_categories e | None => [] end.

(** The heap order of the source: no node is [heapLess] than its parent. *)
Definition heapOrdered (h : list Node) : Prop :=
  forall c x y, (0 < c)%nat -> nth_error h c = Some x -> nth_error h ((c - 1) / 2) = Some y ->
  heapLess x y = false.

(** Sifting up from [i]: the order holds except between [i] and its parent,
    and the children of [i] are not below the parent of [i]. *)
Definition siftUpInv (h : list Node) (i : nat) : Prop :=
  (forall c x y, (0 < c)%nat -> c <> i -> nth_error h c = Some x ->
     nth_error h ((c - 1) / 2) = Some y -> heapLess x y = false) /\
  (forall c x z, (0 < i)%nat -> (0 < c)%nat -> ((c - 1) / 2)%nat = i -> nth_error h c = Some x ->
     nth_error h ((i - 1) / 2) = Some z -> heapLess x z = false).

(** Sifting down from [i]: the order holds except between [i] and its
    children, and the children of [i] are not below the parent of [i]. *)
Definition siftDownInv (h : list Node) (i : nat) : Prop :=
  (forall c x y, (0 < c)%nat -> ((c - 1) / 2)%nat <> i -> nth_error h c = Some x ->
     nth_error h ((c - 1) / 2) = Some y -> heapLess x y = false) /\
  (forall c x z, (0 < i)%nat -> (0 < c)%nat -> ((c - 1) / 2)%nat = i -> nth_error h c = Some x ->
     nth_error h ((i - 1) / 2) = Some z -> heapLess x z = false).

(** Three NaN-free nodes: [nodeA] and [nodeB] in category [music], [nodeC] in [art]. *)
Definition nodeA : Node :=
  {| score := one; distance := two; popularity := pzero; id := "a"%string; event := evOnePop |}.
Definition nodeB : Node :=
  {| score := js_div (of_Z 95) (of_Z 100); distance := one; popularity := pzero; id := "b"%string;
     event := evOnePop |}.
Definition nodeC : Node :=
  {| score := js_div (of_Z 90) (of_Z 100); distance := one; popularity := one; id := "c"%string;
     event := evHalfPop |}.

(** * Proofs *)

(** Case analysis on the first [if] of the goal. *)
Ltac case_if :=
  match goal with
  | |- context [if ?c then _ else _] => let E := fresh "E" in destruct c eqn:E
  end.

(** ** Lengths and membership through the heap *)

Lemma list_set_length {A : Type} (l : list A) i v :
  List.length (list_set l i v) = List.length l.
Proof. revert i; induction l as [|x l IH]; intros [|i]; simpl; auto. Qed.

Lemma Forall_list_set {A : Type} (P : A -> Prop) l i v :
  Forall P l -> P v -> Forall P (list_set l i v).
Proof.
  revert i; induction l as [|x l IH]; intros [|i] Hl Hv; simpl; auto;
    inversion Hl; subst; constructor; auto.
Qed.

Lemma heapSwap_length h i j : List.length (heapSwap h i j) = List.length h.
Proof.
  unfold heapSwap.
  destruct (nth_error h i), (nth_error h j); rewrite ?list_set_length; auto.
Qed.

Lemma Forall_heapSwap (P : Node -> Prop) h i j : Forall P h -> Forall P (heapSwap h i j).
Proof.
  intros Hh. unfold heapSwap.
  destruct (nth_error h i) as [x|] eqn:Ei, (nth_error h j) as [y|] eqn:Ej; auto.
  apply nth_error_In in Ei. apply nth_error_In in Ej.
  rewrite Forall_forall in Hh.
  apply Forall_list_set; [apply Forall_list_set|]; auto.
  rewrite Forall_forall; auto.
Qed.

Lemma heapSiftUp_length fuel h i : List.length (heapSiftUp fuel h i) = List.length h.
Proof.
  revert h i; induction fuel as [|fuel IH]; intros h [|i]; simpl; auto.
  case_if; auto. rewrite IH, heapSwap_length; auto.
Qed.

Lemma Forall_heapSiftUp P fuel h i : Forall P h -> Forall P (heapSiftUp fuel h i).
Proof.
  revert h i; induction fuel as [|fuel IH]; intros h [|i] Hh; simpl; auto.
  case_if; auto. apply IH, Forall_heapSwap; auto.
Qed.

Lemma heapSiftDown_length fuel h i : List.length (heapSiftDown fuel h i) = List.length h.
Proof.
  revert h i; induction fuel as [|fuel IH]; intros h i; simpl; auto.
  case_if; auto. rewrite IH, heapSwap_length; auto.
Qed.

Lemma Forall_heapSiftDown P fuel h i : Forall P h -> Forall P (heapSiftDown fuel h i).
Proof.
  revert h i; induction fuel as [|fuel IH]; intros h i Hh; simpl; auto.
  case_if; auto. apply IH, Forall_heapSwap; auto.
Qed.

Lemma heapPush_length h node : List.length (heapPush h node) = S (List.length h).
Proof.
  unfold heapPush. rewrite heapSiftUp_length, length_app. simpl. lia.
Qed.

Lemma Forall_heapPush P h node : Forall P h -> P node -> Forall P (heapPush h node).
Proof.
  intros Hh Hn. unfold heapPush. apply Forall_heapSiftUp.
  apply Forall_app; auto.
Qed.

Lemma heapReplaceRoot_length h node : List.length (heapReplaceRoot h node) = List.length h.
Proof. unfold heapReplaceRoot. rewrite heapSiftDown_length, list_set_length; auto. Qed.

Lemma Forall_heapReplaceRoot P h node : Forall P h -> P node -> Forall P (heapReplaceRoot h node).
Proof.
  intros Hh Hn. unfold heapReplaceRoot. apply Forall_heapSiftDown, Forall_list_set; auto.
Qed.

(** ** The scan, the sort and the re-rank *)

Lemma Forall_scanStep P k heap node :
  Forall P heap -> (forall n, node = Some n -> P n) -> Forall P (scanStep k heap node).
Proof.
  intros Hh Hn. destruct node as [n|]; simpl; auto.
  case_if; [apply Forall_heapPush; auto|].
  destruct heap as [|root t]; auto.
  case_if; auto. apply Forall_heapReplaceRoot; auto.
Qed.

Lemma Forall_topKScan (P : Node -> Prop) H cfg user Pr k events :
  (forall oev n, scoreEvent H cfg user Pr oev = Some n -> P n) ->
  Forall P (topKScan H cfg user Pr k events).
Proof.
  intros Hs. unfold topKScan.
  assert (Hgen : forall heap, Forall P heap ->
            Forall P (fold_left (fun heap oev => scanStep k heap (scoreEvent H cfg user Pr oev))
                                events heap)).
  { induction events as [|oev events IH]; intros heap Hh; simpl; auto.
    apply IH, Forall_scanStep; auto. intros n Hn; eapply Hs; eauto. }
  apply Hgen; auto.
Qed.

Lemma topKScan_length H cfg user Pr k events :
  (0 < k)%nat ->
  List.length (topKScan H cfg user Pr k events) = Nat.min k (scoredCount H cfg user Pr events).
Proof.
  intros Hk. unfold topKScan, scoredCount.
  assert (Hgen : forall heap c, List.length heap = Nat.min k c ->
    List.length (fold_left (fun heap oev => scanStep k heap (scoreEvent H cfg user Pr oev)) events heap)
    = Nat.min k (c + List.length (filter (fun oev => isSome (scoreEvent H cfg user Pr oev)) events))).
  { induction events as [|oev events IH]; intros heap c Hc; simpl.
    - rewrite Nat.add_0_r; auto.
    - destruct (scoreEvent H cfg user Pr oev) as [n|] eqn:Es; simpl.
      + rewrite <- Nat.add_succ_comm. apply IH.
        case_if.
        * apply Nat.ltb_lt in E. rewrite heapPush_length. lia.
        * apply Nat.ltb_ge in E.
          destruct heap as [|root t]; simpl in *; [lia|].
          case_if; [rewrite heapReplaceRoot_length|]; simpl; lia.
      + apply IH; auto. }
  apply (Hgen [] 0%nat). simpl. lia.
Qed.

Lemma insertBy_perm cmp x l : Permutation (insertBy cmp x l) (x :: l).
Proof.
  induction l as [|y t IH]; simpl; auto.
  case_if; auto.
  eapply perm_trans; [apply perm_skip, IH | apply perm_swap].
Qed.

Lemma sortBy_perm cmp l : Permutation (sortBy cmp l) l.
Proof.
  unfold sortBy.
  assert (Hgen : forall acc, Permutation (fold_left (fun acc x => insertBy cmp x acc) l acc) (l ++ acc)).
  { induction l as [|x t IH]; intros acc; simpl; auto.
    eapply perm_trans; [apply IH|].
    eapply perm_trans; [apply Permutation_app_head, insertBy_perm|].
    apply Permutation_sym, Permutation_middle. }
  rewrite <- (app_nil_r l) at 2. apply Hgen.
Qed.

Lemma rerankLoop_spec alpha cap nodes steps used cc out res :
  rerankLoop alpha cap nodes steps used cc out = Some res ->
  List.length res = (steps + List.length out)%nat /\
  (forall x, In x res -> In x nodes \/ In x out).
Proof.
  revert used cc out; induction steps as [|steps IH]; intros used cc out Hr; simpl in Hr.
  - injection Hr; intros <-. rewrite length_rev. split; auto.
    intros x Hx. right. apply in_rev; auto.
  - destruct (fst (selectBest alpha cap cc nodes used)) as [b|]; [|discriminate].
    destruct (nth_error nodes b) as [chosen|] eqn:Eb; [|discriminate].
    destruct (IH _ _ _ Hr) as [Hl Hin]. simpl in Hl. split; [lia|].
    intros x Hx. destruct (Hin x Hx) as [Hn|[<-|Ho]]; auto.
    left. eapply nth_error_In; eauto.
Qed.

Lemma rerankWithCategoryDiversity_spec nodes alpha cap res :
  rerankWithCategoryDiversity nodes alpha cap = Some res ->
  List.length res = List.length nodes /\ (forall x, In x res -> In x nodes).
Proof.
  unfold rerankWithCategoryDiversity. intros Hr.
  destruct (rerankLoop_spec _ _ _ _ _ _ _ _ Hr) as [Hl Hin]. simpl in Hl.
  split; [lia|]. intros x Hx. destruct (Hin x Hx) as [?|[]]; auto.
Qed.

(** ** The scoring loop *)

Lemma scoreEvent_some H cfg user Pr oev n :
  scoreEvent H cfg user Pr oev = Some n ->
  oev = Some (event n) /\ existsb (String.eqb (ev_id (event n))) (u_attendedEvents user) = false.
Proof.
  unfold scoreEvent. destruct oev as [ev|]; [|discriminate].
  destruct (String.eqb (ev_id ev) EmptyString); [discriminate|].
  destruct (existsb (String.eqb (ev_id ev)) (u_attendedEvents user)) eqn:Ea; [discriminate|].
  cbv zeta.
  destruct (hasGeo user && hasValidLocation (ev_location ev)
            && cutoffExceeded cfg (eventDistance H user ev)); [discriminate|].
  intros Hn; injection Hn; intros <-; simpl; auto.
Qed.

Lemma scoreEvent_isSome H cfg user Pr oev :
  isSome (scoreEvent H cfg user Pr oev) = eligibleCandidate H cfg user oev.
Proof.
  unfold scoreEvent, eligibleCandidate. destruct oev as [ev|]; auto.
  destruct (String.eqb (ev_id ev) EmptyString); auto.
  destruct (existsb (String.eqb (ev_id ev)) (u_attendedEvents user)); auto.
  cbv zeta. unfold eventDistance.
  destruct (hasGeo user && hasValidLocation (ev_location ev)); simpl; auto.
  destruct (cutoffExceeded cfg _); auto.
Qed.

Lemma scoredCount_eligible H cfg user Pr events :
  scoredCount H cfg user Pr events = eligibleCandidateCount H cfg user events.
Proof.
  unfold scoredCount, eligibleCandidateCount. f_equal.
  apply filter_ext. intros oev. apply scoreEvent_isSome.
Qed.

Lemma eligibleCandidateCount_le H cfg user events :
  (eligibleCandidateCount H cfg user events <= List.length events)%nat.
Proof.
  unfold eligibleCandidateCount.
  induction events as [|oev events IH]; simpl; [lia|].
  destruct (eligibleCandidate H cfg user oev); simpl; lia.
Qed.

Lemma not_In_of_existsb x l : existsb (String.eqb x) l = false -> ~ In x l.
Proof.
  intros He Hin. assert (existsb (String.eqb x) l = true) as Ht.
  { apply existsb_exists. exists x. split; auto. apply String.eqb_refl. }
  congruence.
Qed.

(** The tail of [getRecommendedEvents] after the scan: every returned event
    is the event of a node of the heap, and there are as many as nodes. *)
Lemma finish_spec H cfg (heap : list Node) out :
  (let nodes := sortBy (rankCompare H) heap in
   let diversified :=
     if diversity_enabled cfg && Nat.ltb 1 (List.length nodes)
     then rerankWithCategoryDiversity nodes (diversity_alpha cfg) (diversity_perCategoryCap cfg)
     else Some nodes in
   option_map (map event) diversified) = Some out ->
  List.length out = List.length heap /\
  (forall e, In e out -> exists n, In n heap /\ e = event n).
Proof.
  cbv zeta. intros Ho.
  pose proof (sortBy_perm (rankCompare H) heap) as Hp.
  assert (Hd : exists res, List.length res = List.length heap /\
                 (forall x, In x res -> In x heap) /\ out = map event res).
  { destruct (diversity_enabled cfg && Nat.ltb 1 (List.length (sortBy (rankCompare H) heap))).
    - destruct (rerankWithCategoryDiversity _ _ _) as [res|] eqn:Er; simpl in Ho; [|discriminate].
      injection Ho; intros <-.
      destruct (rerankWithCategoryDiversity_spec _ _ _ _ Er) as [Hl Hin].
      exists res. repeat split; auto.
      + rewrite Hl. apply Permutation_length; auto.
      + intros x Hx. eapply Permutation_in; eauto.
    - simpl in Ho. injection Ho; intros <-.
      exists (sortBy (rankCompare H) heap). repeat split; auto.
      + apply Permutation_length; auto.
      + intros x Hx. eapply Permutation_in; eauto. }
  destruct Hd as [res [Hl [Hin ->]]].
  split; [rewrite length_map; auto|].
  intros e He. apply in_map_iff in He. destruct He as [n [<- Hn]].
  exists n; auto.
Qed.

(** [C1] No event returned by [getRecommendedEvents] has an identifier in
    [user.attendedEvents], for every host, configuration, user, event list,
    similarity index and limit. *)
Theorem getRecommendedEvents_excludes_attended :
  forall H cfg user events eventSimilarity limit out,
    getRecommendedEvents H cfg user events eventSimilarity limit = Some out ->
    forall e, In e out -> ~ In (ev_id e) (u_attendedEvents user).
Proof.
  intros H cfg user events sim limit out Hg e He.
  unfold getRecommendedEvents in Hg.
  destruct (_ || _); [injection Hg; intros <-; destruct He|].
  destruct (_ =? 0); [injection Hg; intros <-; destruct He|].
  set (heap := topKScan H cfg user (prepare cfg user events sim) _ events) in Hg.
  assert (Hf : Forall (fun n => ~ In (ev_id (event n)) (u_attendedEvents user)) heap).
  { apply Forall_topKScan. intros oev n Hs.
    apply not_In_of_existsb, (proj2 (scoreEvent_some _ _ _ _ _ _ Hs)). }
  destruct heap as [|n0 t]; [injection Hg; intros <-; destruct He|].
  destruct (finish_spec _ _ _ _ Hg) as [_ Hin].
  destruct (Hin e He) as [n [Hn ->]].
  rewrite Forall_forall in Hf. apply Hf; auto.
Qed.

(** Witness of [C1]: a user who attended ["b"], three events, the default limit. *)
Lemma getRecommendedEvents_excludes_attended_witness :
  getRecommendedEvents refHost CONFIG musicUser [Some evOnePop; Some evHalfPop; Some evNoPop]
    noSimilarity None = Some [evOnePop; evNoPop] /\
  (forall e, In e [evOnePop; evNoPop] -> ~ In (ev_id e) (u_attendedEvents musicUser)).
Proof.
  split; [vm_compute; reflexivity|].
  apply (getRecommendedEvents_excludes_attended refHost CONFIG musicUser
           [Some evOnePop; Some evHalfPop; Some evNoPop] noSimilarity None).
  vm_compute; reflexivity.
Defined.

(** ** The limit *)

Lemma truncZ_nonneg_sign s m e : 0 < truncZ s m e -> s = false.
Proof.
  unfold truncZ. destruct s; auto. intros Hp.
  assert (0 <= (if 0 <=? e then Z.pos m * 2 ^ e else Z.pos m / 2 ^ (- e))); [|lia].
  destruct (0 <=? e) eqn:Ee.
  - apply Z.leb_le in Ee. apply Z.mul_nonneg_nonneg; [lia|]. apply Z.pow_nonneg; lia.
  - apply Z.div_pos; [lia|]. apply Z.pow_pos_nonneg; lia.
Qed.

Lemma intValue_toInt32 x n : intValue x = Some n -> 0 <= n < 2 ^ 31 -> toInt32 x = n.
Proof.
  destruct x as [s|s| |s m e]; unfold intValue, toInt32; try discriminate.
  - intros Hn; injection Hn; intros <-; auto.
  - case_if; [|discriminate]. intros Hn; injection Hn; intros <- Hr.
    rewrite Z.mod_small by lia.
    destruct (2 ^ 31 <=? truncZ s m e) eqn:Ec; auto. apply Z.leb_le in Ec. lia.
Qed.

Lemma intValue_pos_not_le_zero x n : intValue x = Some n -> 0 < n -> js_le x pzero = false.
Proof.
  destruct x as [s|s| |s m e]; unfold intValue; try discriminate.
  - intros Hn; injection Hn; intros <-; lia.
  - case_if; [|discriminate]. intros Hn; injection Hn; intros <- Hp.
    rewrite (truncZ_nonneg_sign _ _ _ Hp). reflexivity.
Qed.

Lemma limit_facts limit n :
  limitValue limit = Some n -> 0 <= n < 2 ^ 31 ->
  let l := match limit with Some l => l | None => of_Z 5 end in
  toInt32 l = n /\ (0 < n -> js_le l pzero = false).
Proof.
  intros Hv Hn. destruct limit as [l|]; simpl in Hv |- *.
  - split; [apply intValue_toInt32; auto|]. intros Hp; eapply intValue_pos_not_le_zero; eauto.
  - injection Hv; intros <-. split; reflexivity.
Qed.

(** The length of the result of [getRecommendedEvents], in terms of the
    coerced limit and the eligible candidates. *)
Lemma getRecommendedEvents_length_exact H cfg user events eventSimilarity limit out :
  getRecommendedEvents H cfg user events eventSimilarity limit = Some out ->
  let l := match limit with Some l => l | None => of_Z 5 end in
  Z.of_nat (List.length out) =
    if Nat.eqb (List.length events) 0 || js_le l pzero then 0
    else Z.min (Z.min (Z.max 0 (toInt32 l)) (Z.of_nat (List.length events)))
               (Z.of_nat (eligibleCandidateCount H cfg user events)).
Proof.
  intros Hg l.
  pose proof (eligibleCandidateCount_le H cfg user events) as Hc.
  unfold getRecommendedEvents in Hg. fold l in Hg.
  destruct (Nat.eqb (List.length events) 0 || js_le l pzero).
  { injection Hg; intros <-. reflexivity. }
  destruct (Z.min (Z.max 0 (toInt32 l)) (Z.of_nat (List.length events)) =? 0) eqn:Ek.
  { injection Hg; intros <-. apply Z.eqb_eq in Ek. simpl. lia. }
  apply Z.eqb_neq in Ek.
  set (k := Z.min (Z.max 0 (toInt32 l)) (Z.of_nat (List.length events))) in *.
  pose proof (topKScan_length H cfg user (prepare cfg user events eventSimilarity) (Z.to_nat k) events) as Hl.
  rewrite scoredCount_eligible in Hl.
  set (heap := topKScan H cfg user (prepare cfg user events eventSimilarity) (Z.to_nat k) events) in *.
  assert (Hk : (0 < Z.to_nat k)%nat) by lia.
  specialize (Hl Hk).
  destruct heap as [|n0 t].
  { injection Hg; intros <-. simpl in *. lia. }
  destruct (finish_spec _ _ _ _ Hg) as [Hlo _].
  rewrite Hlo, Hl. lia.
Qed.

(** [C2] (amended) For a limit that is an integer in [[0, 2^31)], or omitted
    (then [5]), whenever [getRecommendedEvents] returns a list, its length is
    [min(limit, eligibleCandidateCount)]. *)
Theorem getRecommendedEvents_length :
  forall H cfg user events eventSimilarity limit n out,
    limitValue limit = Some n -> 0 <= n < 2 ^ 31 ->
    getRecommendedEvents H cfg user events eventSimilarity limit = Some out ->
    Z.of_nat (List.length out) = Z.min n (Z.of_nat (eligibleCandidateCount H cfg user events)).
Proof.
  intros H cfg user events sim limit n out Hv Hn Hg.
  pose proof (limit_facts limit n Hv Hn) as [Ht Hle]. cbv zeta in Ht, Hle.
  pose proof (eligibleCandidateCount_le H cfg user events) as Hc.
  rewrite (getRecommendedEvents_length_exact _ _ _ _ _ _ _ Hg). cbv zeta.
  set (l := match limit with Some l => l | None => of_Z 5 end) in *.
  destruct (Nat.eqb (List.length events) 0) eqn:E0; simpl.
  { apply Nat.eqb_eq in E0. lia. }
  destruct (js_le l pzero) eqn:El.
  { destruct (Z.eq_dec n 0) as [->|]; [lia|]. pose proof (Hle ltac:(lia)); discriminate. }
  rewrite Ht. lia.
Qed.

(** Witness of [C2]: limit [2], three events of which two are eligible. *)
Lemma getRecommendedEvents_length_witness :
  limitValue (Some two) = Some 2 /\ 0 <= 2 < 2 ^ 31 /\
  getRecommendedEvents refHost CONFIG musicUser [Some evOnePop; Some evHalfPop; Some evNoPop]
    noSimilarity (Some two) = Some [evOnePop; evNoPop] /\
  Z.of_nat (List.length [evOnePop; evNoPop])
    = Z.min 2 (Z.of_nat (eligibleCandidateCount refHost CONFIG musicUser
                           [Some evOnePop; Some evHalfPop; Some evNoPop])).
Proof.
  split; [reflexivity|]. split; [lia|]. split; [vm_compute; reflexivity|].
  apply (getRecommendedEvents_length refHost CONFIG musicUser
           [Some evOnePop; Some evHalfPop; Some evNoPop] noSimilarity (Some two) 2).
  - reflexivity.
  - lia.
  - vm_compute; reflexivity.
Defined.

(** Counterexample to [C2] as stated: the non-negative integer limit [2^31]
    with one eligible candidate gives an empty list, not one event. *)
Lemma getRecommendedEvents_length_counterexample :
  limitValue (Some twoPow31) = Some (2 ^ 31) /\
  (forall H, eligibleCandidateCount H CONFIG coldUser [Some evHalfPop] = 1%nat) /\
  (forall H, getRecommendedEvents H CONFIG coldUser [Some evHalfPop] noSimilarity (Some twoPow31)
             = Some []).
Proof.
  split; [reflexivity|]. split.
  - intros H. vm_compute. reflexivity.
  - intros H. vm_compute. reflexivity.
Qed.

Lemma IZR_pow2_pos (p : positive) : IZR (2 ^ Z.pos p) = powerRZ 2 (Z.pos p).
Proof.
  simpl powerRZ. rewrite pow_IZR, positive_nat_Z. reflexivity.
Qed.

Lemma truncZ_false_bounds (m : positive) (e : Z) :
  (IZR (truncZ false m e) <= IZR (Z.pos m) * powerRZ 2 e < IZR (truncZ false m e) + 1)%R.
Proof.
  unfold truncZ. destruct e as [|p|p]; cbn [Z.leb Z.compare negb].
  - simpl powerRZ. rewrite Z.pow_0_r, Z.mul_1_r. lra.
  - cbv iota. rewrite mult_IZR, IZR_pow2_pos. lra.
  - cbv iota. change (- Z.neg p) with (Z.pos p).
    assert (HD : 0 < 2 ^ Z.pos p) by (apply Z.pow_pos_nonneg; lia).
    pose proof (Z.div_mod (Z.pos m) (2 ^ Z.pos p) ltac:(lia)) as Hdm.
    pose proof (Z.mod_pos_bound (Z.pos m) (2 ^ Z.pos p) HD) as Hr.
    set (q := Z.pos m / 2 ^ Z.pos p) in *. set (r := Z.pos m mod 2 ^ Z.pos p) in *.
    set (D := 2 ^ Z.pos p) in *.
    assert (HDR : (0 < IZR D)%R) by (apply IZR_lt; exact HD).
    assert (Hpw : powerRZ 2 (Z.neg p) = (/ IZR D)%R).
    { simpl powerRZ. unfold D. rewrite IZR_pow2_pos. reflexivity. }
    rewrite Hpw, Hdm, plus_IZR, mult_IZR.
    assert (Hr0 : (0 <= IZR r)%R) by (apply IZR_le; lia).
    assert (Hr1 : (IZR r < IZR D)%R) by (apply IZR_lt; lia).
    assert (E : ((IZR D * IZR q + IZR r) * / IZR D = IZR q + IZR r / IZR D)%R)
      by (field; lra).
    rewrite E. split.
    + assert (0 <= IZR r / IZR D)%R by (unfold Rdiv; apply Rmult_le_pos; [lra|left; apply Rinv_0_lt_compat; lra]). lra.
    + assert (IZR r / IZR D < 1)%R.
      { apply (Rmult_lt_reg_r (IZR D)); [lra|].
        unfold Rdiv. rewrite Rmult_assoc, Rinv_l by lra. lra. }
      lra.
Qed.

Lemma truncZ_true (m : positive) (e : Z) : truncZ true m e = - truncZ false m e.
Proof. reflexivity. Qed.

Lemma toInt32_finite_facts (s : bool) (m : positive) (e : Z) :
  toInt32 (S754_finite s m e) mod 2 ^ 32 = truncZ s m e mod 2 ^ 32
  /\ - 2 ^ 31 <= toInt32 (S754_finite s m e) < 2 ^ 31.
Proof.
  unfold toInt32.
  pose proof (Z.mod_pos_bound (truncZ s m e) (2 ^ 32) ltac:(lia)) as Hb.
  set (r := truncZ s m e mod 2 ^ 32) in *.
  destruct (2 ^ 31 <=? r) eqn:Ec; [apply Z.leb_le in Ec | apply Z.leb_gt in Ec].
  - split; [|lia]. unfold r. rewrite Zminus_mod, Z_mod_same_full, Z.sub_0_r, !Z.mod_mod by lia.
    reflexivity.
  - split; [|lia]. unfold r. rewrite Z.mod_mod by lia. reflexivity.
Qed.

Lemma toInt32_in_range (s : bool) (m : positive) (e : Z) :
  - 2 ^ 31 <= truncZ s m e < 2 ^ 31 -> toInt32 (S754_finite s m e) = truncZ s m e.
Proof.
  intros Hr. pose proof (toInt32_finite_facts s m e) as [Hm Hb].
  set (a := toInt32 (S754_finite s m e)) in *. set (b := truncZ s m e) in *.
  assert (H0 : (a - b) mod 2 ^ 32 = 0).
  { rewrite Zminus_mod, Hm, Z.sub_diag. reflexivity. }
  pose proof (Z.div_mod (a - b) (2 ^ 32) ltac:(lia)) as Hd.
  rewrite H0 in Hd. lia.
Qed.

Lemma toInt32_wrap (s : bool) (m : positive) (e : Z) :
  2 ^ 31 <= truncZ s m e < 2 ^ 32 -> toInt32 (S754_finite s m e) = truncZ s m e - 2 ^ 32.
Proof.
  intros Hr. unfold toInt32. rewrite Z.mod_small by lia.
  replace (2 ^ 31 <=? truncZ s m e) with true by (symmetry; apply Z.leb_le; lia).
  reflexivity.
Qed.

Lemma getRecommendedEvents_length_toInt32 H cfg user events eventSimilarity limit out :
  getRecommendedEvents H cfg user events eventSimilarity limit = Some out ->
  let l := match limit with Some l => l | None => of_Z 5 end in
  Z.of_nat (List.length out) =
    if js_le l pzero then 0
    else Z.min (Z.max 0 (toInt32 l)) (Z.of_nat (eligibleCandidateCount H cfg user events)).
Proof.
  intros Hg l.
  pose proof (getRecommendedEvents_length_exact _ _ _ _ _ _ _ Hg) as Hl.
  pose proof (eligibleCandidateCount_le H cfg user events) as Hc.
  cbv zeta in Hl. fold l in Hl.
  destruct (js_le l pzero); [rewrite orb_true_r in Hl; exact Hl|].
  rewrite orb_false_r in Hl.
  destruct (Nat.eqb (List.length events) 0) eqn:E0.
  - apply Nat.eqb_eq in E0. rewrite E0 in Hc. rewrite Hl. lia.
  - rewrite Hl. lia.
Qed.

(** [C10] [getRecommendedEvents] defaults an omitted limit to [5] and
    coerces the limit with [limit | 0] (ToInt32): for every input the
    result has [min(max(0, ToInt32(limit)), eligible)] events once the
    limit is positive; ToInt32 agrees with the truncation toward zero of
    the limit modulo [2^32] and lies in [[-2^31, 2^31)]; the truncation
    [t] of a finite double [x] satisfies [t <= x < t + 1] for [x >= 0]
    and [t - 1 < x <= t] for [x <= 0]; a limit whose truncation lies in
    [[-2^31, 2^31)] is used truncated, and a positive limit whose
    truncation lies in [[2^31, 2^32)] wraps to a negative number, so
    every call with it returns an empty list, e.g. [limit = 2^31] (the
    list is empty while eligible candidates exist); [2.7] becomes [2]
    and [-2.7] becomes [-2]. *)
Theorem getRecommendedEvents_limit_coercion :
  (forall H cfg user events eventSimilarity,
     getRecommendedEvents H cfg user events eventSimilarity None
     = getRecommendedEvents H cfg user events eventSimilarity (Some (of_Z 5))) /\
  (forall H cfg user events eventSimilarity limit out,
     getRecommendedEvents H cfg user events eventSimilarity (Some limit) = Some out ->
     Z.of_nat (List.length out) =
       if js_le limit pzero then 0
       else Z.min (Z.max 0 (toInt32 limit)) (Z.of_nat (eligibleCandidateCount H cfg user events))) /\
  (forall s m e, toInt32 (S754_finite s m e) mod 2 ^ 32 = truncZ s m e mod 2 ^ 32
                 /\ - 2 ^ 31 <= toInt32 (S754_finite s m e) < 2 ^ 31) /\
  (forall s m e,
     (s = false -> IZR (truncZ s m e) <= realValue (S754_finite s m e) < IZR (truncZ s m e) + 1)%R /\
     (s = true -> IZR (truncZ s m e) - 1 < realValue (S754_finite s m e) <= IZR (truncZ s m e))%R) /\
  (forall s m e, - 2 ^ 31 <= truncZ s m e < 2 ^ 31 -> toInt32 (S754_finite s m e) = truncZ s m e) /\
  (forall H cfg user events eventSimilarity m e,
     2 ^ 31 <= truncZ false m e < 2 ^ 32 ->
     toInt32 (S754_finite false m e) = truncZ false m e - 2 ^ 32 /\
     getRecommendedEvents H cfg user events eventSimilarity (Some (S754_finite false m e)) = Some []) /\
  toInt32 twoPointSeven = 2 /\ toInt32 (js_neg twoPointSeven) = -2 /\
  toInt32 twoPow31 = - 2 ^ 31 /\
  (forall H, eligibleCandidateCount H CONFIG coldUser [Some evHalfPop] = 1%nat) /\
  (forall H cfg user events eventSimilarity,
     getRecommendedEvents H cfg user events eventSimilarity (Some twoPow31) = Some []).
Proof.
  assert (Hwrap : forall H cfg user events eventSimilarity m e,
     2 ^ 31 <= truncZ false m e < 2 ^ 32 ->
     toInt32 (S754_finite false m e) = truncZ false m e - 2 ^ 32 /\
     getRecommendedEvents H cfg user events eventSimilarity (Some (S754_finite false m e)) = Some []).
  { intros H cfg user events sim m e Hr.
    pose proof (toInt32_wrap false m e Hr) as Ht. split; [exact Ht|].
    unfold getRecommendedEvents.
    replace (js_le (S754_finite false m e) pzero) with false by reflexivity.
    rewrite orb_false_r.
    destruct (Nat.eqb (List.length events) 0); [reflexivity|].
    rewrite Ht.
    replace (Z.min (Z.max 0 (truncZ false m e - 2 ^ 32)) (Z.of_nat (List.length events)) =? 0)
      with true by (symmetry; apply Z.eqb_eq; lia).
    reflexivity. }
  split; [reflexivity|].
  split.
  { intros H cfg user events sim limit out Hg.
    exact (getRecommendedEvents_length_toInt32 _ _ _ _ _ (Some limit) _ Hg). }
  split; [exact toInt32_finite_facts|].
  split.
  { intros s m e. split; intros ->; cbn [realValue].
    - pose proof (truncZ_false_bounds m e). lra.
    - rewrite truncZ_true, opp_IZR. pose proof (truncZ_false_bounds m e). lra. }
  split; [exact toInt32_in_range|].
  split; [exact Hwrap|].
  split; [reflexivity|]. split; [reflexivity|]. split; [reflexivity|].
  split; [intros H; vm_compute; reflexivity|].
  intros H cfg user events sim.
  assert (Hr : 2 ^ 31 <= truncZ false 4503599627370496 (-21) < 2 ^ 32)
    by (vm_compute; split; congruence).
  exact (proj2 (Hwrap H cfg user events sim 4503599627370496%positive (-21) Hr)).
Qed.

(** Instance of [C10]: the limit [3 * 2^30] wraps and empties the result,
    and a call with [2.7] returns [min(2, eligible)] events. *)
Lemma getRecommendedEvents_limit_coercion_witness :
  2 ^ 31 <= truncZ false 3 30 < 2 ^ 32 /\
  getRecommendedEvents refHost CONFIG coldUser [Some evHalfPop] noSimilarity
    (Some (S754_finite false 3 30)) = Some [] /\
  getRecommendedEvents refHost CONFIG musicUser [Some evOnePop; Some evHalfPop; Some evNoPop]
    noSimilarity (Some twoPointSeven) = Some [evOnePop; evNoPop] /\
  Z.of_nat (List.length [evOnePop; evNoPop]) =
    (if js_le twoPointSeven pzero then 0
     else Z.min (Z.max 0 (toInt32 twoPointSeven))
            (Z.of_nat (eligibleCandidateCount refHost CONFIG musicUser
                         [Some evOnePop; Some evHalfPop; Some evNoPop]))).
Proof.
  split; [vm_compute; split; congruence|].
  split.
  { assert (Hr : 2 ^ 31 <= truncZ false 3 30 < 2 ^ 32) by (vm_compute; split; congruence).
    exact (proj2 (proj1 (proj2 (proj2 (proj2 (proj2 (proj2 getRecommendedEvents_limit_coercion)))))
                   refHost CONFIG coldUser [Some evHalfPop] noSimilarity 3%positive 30 Hr)). }
  split; [vm_compute; reflexivity|].
  apply (proj1 (proj2 getRecommendedEvents_limit_coercion) refHost CONFIG musicUser
           [Some evOnePop; Some evHalfPop; Some evNoPop] noSimilarity twoPointSeven).
  vm_compute; reflexivity.
Defined.

(** ** The re-rank with a NaN score *)

Lemma js_gt_not_nan x y : js_gt x y = true -> is_nan x = false.
Proof. destruct x, y; unfold js_gt, SFltb; simpl; auto. Qed.

Lemma nth_error_list_set_other {A : Type} (l : list A) i j v :
  i <> j -> nth_error (list_set l i v) j = nth_error l j.
Proof.
  revert i j; induction l as [|x l IH]; intros [|i] [|j] Hij; simpl; auto; try congruence; apply IH; congruence.
Qed.

Lemma count_unused_list_set (used : list bool) i :
  nth_error used i = Some false ->
  S (List.length (filter negb (list_set used i true))) = List.length (filter negb used).
Proof.
  revert i; induction used as [|b used IH]; intros [|i] Hi; simpl in *; try discriminate.
  - injection Hi; intros ->. reflexivity.
  - destruct b; simpl; auto.
Qed.

Lemma count_unused_pos (used : list bool) j :
  nth_error used j = Some false -> (0 < List.length (filter negb used))%nat.
Proof.
  revert j; induction used as [|b used IH]; intros [|j] Hj; simpl in *; try discriminate.
  - injection Hj; intros ->. simpl. lia.
  - destruct b; simpl; [eapply IH; eauto | lia].
Qed.

(** [selectBest] only ever picks an unused index whose score is a number. *)
Lemma selectBest_picks alpha cap cc nodes used i :
  fst (selectBest alpha cap cc nodes used) = Some i ->
  nth_error used i = Some false /\
  exists node, nth_error nodes i = Some node /\ is_nan (score node) = false.
Proof.
  revert i. unfold selectBest.
  assert (Hgen : forall idx (best : option nat * num),
    (forall i, fst best = Some i -> nth_error used i = Some false /\
       exists node, nth_error nodes i = Some node /\ is_nan (score node) = false) ->
    forall i, fst (fold_left (fun (best : option nat * num) (i : nat) =>
               match nth_error used i, nth_error nodes i with
               | Some false, Some node =>
                   let val := js_sub (score node) (penaltyFor alpha cap cc (event node)) in
                   if js_gt val (snd best) then (Some i, val) else best
               | _, _ => best
               end) idx best) = Some i ->
      nth_error used i = Some false /\
      exists node, nth_error nodes i = Some node /\ is_nan (score node) = false).
  { induction idx as [|x idx IH]; intros best Hb; simpl; auto.
    apply IH. intros i.
    destruct (nth_error used x) as [[|]|] eqn:Eu; auto.
    destruct (nth_error nodes x) as [node|] eqn:En; auto.
    cbv zeta. case_if; auto. simpl. intros Hi; injection Hi; intros <-.
    split; auto. exists node. split; auto.
    apply js_gt_not_nan in E.
    destruct (score node); auto. }
  apply Hgen. simpl. discriminate.
Qed.

(** While a node with a NaN score is unused, the outer loop throws. *)
Lemma rerankLoop_nan alpha cap nodes j steps used cc out :
  nth_error used j = Some false ->
  (exists node, nth_error nodes j = Some node /\ is_nan (score node) = true) ->
  List.length (filter negb used) = steps ->
  rerankLoop alpha cap nodes steps used cc out = None.
Proof.
  intros Hj Hn. revert used cc out Hj; induction steps as [|steps IH]; intros used cc out Hj Hc.
  - pose proof (count_unused_pos _ _ Hj). lia.
  - simpl.
    destruct (fst (selectBest alpha cap cc nodes used)) as [i|] eqn:Es; auto.
    destruct (selectBest_picks _ _ _ _ _ _ Es) as [Hu [node [Hi Hnan]]].
    rewrite Hi.
    assert (i <> j) as Hij.
    { intros ->. destruct Hn as [node' [Hj' Hnan']]. congruence. }
    apply IH.
    + rewrite nth_error_list_set_other; auto.
    + pose proof (count_unused_list_set _ _ Hu). lia.
Qed.

Lemma count_unused_repeat n : List.length (filter negb (repeat false n)) = n.
Proof. induction n; simpl; auto. Qed.

(** [C6] (code bug) [rerankWithCategoryDiversity] does not always return a
    reordering of its input: for every node list containing a node whose
    score is NaN it throws ([bestIdx] stays [-1] and [nodes[-1].event] is
    read), and [getRecommendedEvents] reaches this for a cold-start user
    and an event with [popularity: NaN].  When it does return, the result
    has the input's length and only nodes of the input. *)
Theorem rerankWithCategoryDiversity_nan_throws :
  (forall nodes alpha perCategoryCap node,
     In node nodes -> is_nan (score node) = true ->
     rerankWithCategoryDiversity nodes alpha perCategoryCap = None) /\
  (forall H, getRecommendedEvents H CONFIG coldUser [Some evNaNPop; Some evHalfPop]
               noSimilarity (Some two) = None) /\
  (forall nodes alpha perCategoryCap res,
     rerankWithCategoryDiversity nodes alpha perCategoryCap = Some res ->
     List.length res = List.length nodes /\ (forall x, In x res -> In x nodes)).
Proof.
  split; [|split; [intros H; vm_compute; reflexivity|apply rerankWithCategoryDiversity_spec]].
  - intros nodes alpha cap node Hin Hnan.
    destruct (In_nth_error _ _ Hin) as [j Hj].
    assert (Hjl : (j < List.length nodes)%nat).
    { apply nth_error_Some. congruence. }
    unfold rerankWithCategoryDiversity.
    apply (rerankLoop_nan _ _ _ j).
    + apply nth_error_repeat; auto.
    + exists node; auto.
    + apply count_unused_repeat.
Qed.

(** Witness of [C6]: the single node [nanScoreNode]. *)
Lemma rerankWithCategoryDiversity_nan_throws_witness :
  In nanScoreNode [nanScoreNode] /\ is_nan (score nanScoreNode) = true /\
  rerankWithCategoryDiversity [nanScoreNode] (diversity_alpha CONFIG)
    (diversity_perCategoryCap CONFIG) = None.
Proof.
  split; [simpl; auto|]. split; [reflexivity|].
  apply (proj1 rerankWithCategoryDiversity_nan_throws _ _ _ nanScoreNode).
  - simpl; auto.
  - reflexivity.
Defined.

(** ** Popularity *)

Lemma js_lt_le x y : js_lt x y = true -> js_le x y = true.
Proof.
  unfold js_lt, js_le, SFltb, SFleb. destruct (SFcompare x y) as [[]|]; auto.
Qed.

(** Any number other than NaN is clamped into [[0, 1]]. *)
Lemma clampPopularity_range x :
  is_nan x = false ->
  js_le pzero (clampPopularity (Some x)) = true /\ js_le (clampPopularity (Some x)) one = true.
Proof.
  intros Hx. destruct x as [s|s| |s m e]; try discriminate.
  - destruct s; vm_compute; auto.
  - destruct s; vm_compute; auto.
  - unfold clampPopularity, js_min, js_max.
    change one with (S754_finite false 4503599627370496 (-52)).
    cbn [is_nan orb].
    destruct (js_lt (S754_finite s m e) (S754_finite false 4503599627370496 (-52))) eqn:E1;
      cbn [is_nan orb].
    + destruct (js_lt pzero (S754_finite s m e)) eqn:E0.
      * split; apply js_lt_le; auto.
      * split; reflexivity.
    + split; reflexivity.
Qed.

(** [C8] (code bug) Popularity is clamped into [[0, 1]] for every number
    except NaN: [typeof NaN === 'number'] and [Math.max(0, Math.min(1, NaN))]
    is NaN, which becomes the node's popularity (the tiebreaker) and its
    score, and is stored in the category tally. *)
Theorem popularity_nan_not_clamped :
  (forall x, is_nan x = false ->
     js_le pzero (clampPopularity (Some x)) = true /\ js_le (clampPopularity (Some x)) one = true) /\
  clampPopularity None = pzero /\
  clampPopularity (Some NaN) = NaN /\
  (forall H, scoreEvent H CONFIG coldUser (prepare CONFIG coldUser [Some evNaNPop] noSimilarity)
               (Some evNaNPop) = Some nanScoreNode) /\
  is_nan (popularity nanScoreNode) = true /\ is_nan (score nanScoreNode) = true /\
  buildCategoryPopularityMap [Some evNaNPop] "music" = Some NaN.
Proof.
  split; [apply clampPopularity_range|].
  split; [reflexivity|]. split; [reflexivity|].
  split; [intros H; vm_compute; reflexivity|].
  split; [reflexivity|]. split; [reflexivity|].
  vm_compute. reflexivity.
Qed.

(** ** The heap scan and the order of the input *)

(** [C4] (code bug) The identifiers kept by the top-k heap scan depend on the
    order of the input, so they cannot agree with a sort-then-truncate by a
    total order: with the two eligible events ["a"] ([popularity: NaN], so
    score NaN) and ["b"], [k = 1] keeps ["a"] when ["a"] comes first and
    ["b"] when ["b"] comes first, and [getRecommendedEvents] with limit [1]
    returns the one that came first; [betterThan] ranks neither node above
    the other, so the order is not total on them. *)
Theorem heap_scan_order_dependent :
  Permutation [Some evNaNPop; Some evHalfPop] [Some evHalfPop; Some evNaNPop] /\
  (forall H,
     let P := prepare CONFIG coldUser [Some evNaNPop; Some evHalfPop] noSimilarity in
     match scoreEvent H CONFIG coldUser P (Some evNaNPop),
           scoreEvent H CONFIG coldUser P (Some evHalfPop) with
     | Some na, Some nb =>
         is_nan (score na) = true /\ betterThan na nb = false /\ betterThan nb na = false
     | _, _ => False
     end) /\
  (forall H, eligibleCandidateCount H CONFIG coldUser [Some evNaNPop; Some evHalfPop] = 2%nat) /\
  (forall H, heapIds H CONFIG coldUser [Some evNaNPop; Some evHalfPop] noSimilarity 1
             = ["a"%string]) /\
  (forall H, heapIds H CONFIG coldUser [Some evHalfPop; Some evNaNPop] noSimilarity 1
             = ["b"%string]) /\
  (forall H, getRecommendedEvents H CONFIG coldUser [Some evNaNPop; Some evHalfPop]
               noSimilarity (Some one) = Some [evNaNPop]) /\
  (forall H, getRecommendedEvents H CONFIG coldUser [Some evHalfPop; Some evNaNPop]
               noSimilarity (Some one) = Some [evHalfPop]).
Proof.
  split; [apply perm_swap|].
  split; [intros H; vm_compute; auto|].
  repeat split; intros H; vm_compute; reflexivity.
Qed.

(** ** Missing locations *)

(** [C3] (amended) When the user's location is invalid or the candidate's
    location is missing or invalid, the candidate's distance is [Infinity]
    and its geo score is [0] (a number, not undefined); the geo signal is
    inactive exactly when the user's own location is invalid, so a missing
    event location alone leaves it active with value [0]; with the
    configured weights the geo term of the sum is [+0], never NaN. *)
Theorem geo_term_without_location :
  forall H cfg user ev,
    hasGeo user = false \/ hasValidLocation (ev_location ev) = false ->
    eventDistance H user ev = Infinity /\
    a_geo (activeOf user) = hasGeo user /\
    geoScoreOf H cfg user (eventDistance H user ev) = pzero /\
    signalTerm (a_geo (activeOf user)) (w_geo CONFIG)
      (geoScoreOf H CONFIG user (eventDistance H user ev)) = pzero.
Proof.
  intros H cfg user ev Hloc.
  assert (Hd : eventDistance H user ev = Infinity).
  { unfold eventDistance. destruct Hloc as [-> | ->]; [|rewrite andb_false_r]; reflexivity. }
  assert (Hg : forall c, geoScoreOf H c user (eventDistance H user ev) = pzero).
  { intros c. rewrite Hd. unfold geoScoreOf. destruct (a_geo (activeOf user)); reflexivity. }
  split; [auto|]. split; [reflexivity|]. split; [apply Hg|].
  rewrite Hg. unfold signalTerm. destruct (a_geo (activeOf user)); reflexivity.
Qed.

(** Witness of [C3]: a user located at (0, 0) and an event with no location. *)
Lemma geo_term_without_location_witness :
  (hasGeo geoUser = false \/ hasValidLocation (ev_location evNoLocation) = false) /\
  eventDistance refHost geoUser evNoLocation = Infinity /\
  a_geo (activeOf geoUser) = hasGeo geoUser /\
  geoScoreOf refHost CONFIG geoUser (eventDistance refHost geoUser evNoLocation) = pzero /\
  signalTerm (a_geo (activeOf geoUser)) (w_geo CONFIG)
    (geoScoreOf refHost CONFIG geoUser (eventDistance refHost geoUser evNoLocation)) = pzero.
Proof.
  split; [right; reflexivity|].
  apply (geo_term_without_location refHost CONFIG geoUser evNoLocation).
  right; reflexivity.
Defined.

(** Counterexample to [C3] as stated: a user with a valid location and an
    event without one; the geo signal stays active for that user and the
    candidate's proximity is the number [0]. *)
Lemma geo_term_without_location_counterexample :
  hasGeo geoUser = true /\ hasValidLocation (ev_location evNoLocation) = false /\
  a_geo (activeOf geoUser) = true /\
  (forall H, geoScoreOf H CONFIG geoUser (eventDistance H geoUser evNoLocation) = pzero).
Proof.
  split; [reflexivity|]. split; [reflexivity|]. split; [reflexivity|].
  intros H. vm_compute. reflexivity.
Qed.

(** ** The combined score *)

Lemma same_number_refl x : same_number x x.
Proof. left; auto. Qed.

Lemma same_number_sym x y : same_number x y -> same_number y x.
Proof. intros [->|[]]; [left|right]; auto. Qed.

Lemma same_number_trans x y z : same_number x y -> same_number y z -> same_number x z.
Proof.
  intros [->|[Hx Hy]] Hyz; auto.
  destruct Hyz as [<-|[_ Hz]]; right; auto.
Qed.

Lemma add_pzero_r x : same_number (js_add x pzero) x.
Proof. destruct x as [[]|[]| |s m e]; try (left; reflexivity); right; auto. Qed.

Lemma add_pzero_l x : same_number (js_add pzero x) x.
Proof. destruct x as [[]|[]| |s m e]; try (left; reflexivity); right; auto. Qed.

Lemma add_same_number x x' y : same_number x x' -> same_number (js_add x y) (js_add x' y).
Proof.
  intros [->|[Hx Hx']]; [left; auto|].
  destruct x as [sx| | |]; try discriminate. destruct x' as [sx'| | |]; try discriminate.
  destruct y as [sy|sy| |sy m e]; destruct sx, sx'; try destruct sy;
    try (left; reflexivity); right; auto.
Qed.

Lemma div_same_number x x' d : same_number x x' -> same_number (js_div x d) (js_div x' d).
Proof.
  intros [->|[Hx Hx']]; [left; auto|].
  destruct x as [sx| | |]; try discriminate. destruct x' as [sx'| | |]; try discriminate.
  destruct d as [sd|sd| |sd m e]; try (left; reflexivity); right; auto.
Qed.

(** One more term of the code's sum against one more step of the fold. *)
Lemma signalTerm_step c s on w v :
  same_number c s ->
  same_number (js_add c (signalTerm on w v)) (if on then js_add s (js_mul w v) else s).
Proof.
  intros Hcs. unfold signalTerm. destruct on.
  - apply add_same_number; auto.
  - eapply same_number_trans; [apply add_pzero_r|]; auto.
Qed.

Lemma signalTerm_first on w v :
  same_number (signalTerm on w v) (if on then js_add pzero (js_mul w v) else pzero).
Proof.
  unfold signalTerm. destruct on; [apply same_number_sym, add_pzero_l|apply same_number_refl].
Qed.

(** With the configured weights the active weights never sum to [0] or less:
    [weightSumOf] is the plain sum. *)
Lemma weightSumOf_CONFIG user :
  weightSumOf CONFIG (activeOf user)
  = fold_left (fun (acc : num) (t : bool * num * num) =>
                 let '(on, w, _) := t in if on then js_add acc w else acc)
              (specSignals CONFIG user pzero pzero pzero pzero pzero) pzero /\
  js_eq (weightSumOf CONFIG (activeOf user)) pzero = false.
Proof.
  unfold weightSumOf, activeOf, specSignals, coldStart, hasPrefs, hasHistory, hasGeo.
  destruct (negb (Nat.eqb (List.length (u_preferences user)) 0)),
           (negb (Nat.eqb (List.length (u_attendedEvents user)) 0)),
           (hasValidLocation (u_location user));
    split; vm_compute; reflexivity.
Qed.

(** [C5] With the configured weights, the combined score of [getRecommendedEvents]
    is the sum over the user's active signals of weight times value, divided
    by the sum of the active weights (equal as numbers: a zero may differ in
    sign only); activity is per user: preference match iff preferences are
    non-empty, content similarity iff attended events are non-empty, geo iff
    the user's location is valid, popularity always, cold start iff neither
    preference match nor similarity is active; and the scoring loop divides
    by that per-user weight sum. *)
Theorem combined_score_normalised :
  forall user prefScore simScore geoScore pop coldScore,
    same_number
      (combineSignals CONFIG (activeOf user) (weightSumOf CONFIG (activeOf user))
                      prefScore simScore geoScore pop coldScore)
      (combinedSpec CONFIG user prefScore simScore geoScore pop coldScore) /\
    a_pref (activeOf user) = negb (Nat.eqb (List.length (u_preferences user)) 0) /\
    a_sim (activeOf user) = negb (Nat.eqb (List.length (u_attendedEvents user)) 0) /\
    a_geo (activeOf user) = hasValidLocation (u_location user) /\
    a_pop (activeOf user) = true /\
    a_cold (activeOf user) = negb (a_pref (activeOf user)) && negb (a_sim (activeOf user)) /\
    (forall events eventSimilarity,
       weightSum (prepare CONFIG user events eventSimilarity) = weightSumOf CONFIG (activeOf user)).
Proof.
  intros user p s g po c.
  split; [|repeat split; reflexivity].
  unfold combinedSpec. cbv zeta.
  destruct (weightSumOf_CONFIG user) as [Hw Hne].
  match goal with
  | |- same_number _ (js_div _ (if js_eq ?D pzero then one else ?D)) =>
      replace D with (weightSumOf CONFIG (activeOf user)) by (rewrite Hw; reflexivity)
  end.
  rewrite Hne. unfold combineSignals. apply div_same_number.
  unfold specSignals. cbn [fold_left].
  apply signalTerm_step. apply (signalTerm_step _ _ true).
  apply signalTerm_step. apply signalTerm_step. apply signalTerm_first.
Qed.

(** ** Distance *)

Lemma js_sub_self x : isFinite x = true -> js_sub x x = pzero.
Proof.
  destruct x as [[]|s| |s m e]; try discriminate; try reflexivity.
  intros _. unfold js_sub, SFsub. rewrite Z.sub_diag. reflexivity.
Qed.

Lemma digits2_pos_size p : digits2_pos p = Pos.size p.
Proof. induction p; simpl; congruence. Qed.

(** [p < 2^k] bounds the number of binary digits of [p] by [k]. *)
Lemma Zdigits2_bound (z k : Z) : 0 <= z -> 0 <= k -> z < 2 ^ k -> Zdigits2 z <= k.
Proof.
  intros Hz Hk Hlt. destruct z as [|p|p]; simpl; try lia.
  rewrite digits2_pos_size.
  pose proof (Pos.size_le p) as Hs.
  apply (f_equal Z.pos) in Hs || idtac.
  assert (Hs' : 2 ^ Z.pos (Pos.size p) <= 2 * Z.pos p).
  { rewrite <- Pos2Z.inj_pow, Pos2Z.inj_xO in *. lia. }
  destruct (Z.le_gt_cases (Z.pos (Pos.size p)) k) as [|Hgt]; auto.
  assert (2 ^ (k + 1) <= 2 ^ Z.pos (Pos.size p)) by (apply Z.pow_le_mono_r; lia).
  rewrite Z.pow_add_r in * by lia. lia.
Qed.

Lemma iter_pos_invariant {A : Type} (P : A -> Prop) (f : A -> A) :
  (forall x, P x -> P (f x)) -> forall p x, P x -> P (SpecFloat.iter_pos f p x).
Proof. intros Hf p. induction p as [p IH|p IH|]; intros x Hx; simpl; auto. Qed.

Lemma shr_1_bound mrs : 0 <= shr_m mrs -> 0 <= shr_m (shr_1 mrs) <= shr_m mrs.
Proof.
  destruct mrs as [m r s]. simpl.
  destruct m as [|[p|p|]|p]; simpl; lia.
Qed.

Lemma shr_fexp_spec m e l : 0 <= m ->
  0 <= shr_m (fst (shr_fexp prec emax m e l)) <= m /\
  snd (shr_fexp prec emax m e l) = Z.max e (fexp prec emax (Zdigits2 m + e)).
Proof.
  intros Hm. unfold shr_fexp, shr.
  assert (Hr : shr_m (shr_record_of_loc m l) = m) by (destruct l as [|[]]; reflexivity).
  destruct (fexp prec emax (Zdigits2 m + e) - e) as [|p|p] eqn:Ed; simpl.
  - rewrite Hr. split; [lia|]. lia.
  - split; [|lia].
    apply (iter_pos_invariant (fun x => 0 <= shr_m x <= m)); [|lia].
    intros x Hx. pose proof (shr_1_bound x). lia.
  - rewrite Hr. split; [lia|]. lia.
Qed.

Lemma round_nearest_even_bound mx lx : 0 <= mx ->
  mx <= round_nearest_even mx lx <= mx + 1.
Proof.
  intros Hm. destruct lx as [|[]]; simpl; try lia.
  destruct (Z.even mx); lia.
Qed.

(** Rounding a product of two mantissas below [2^53] at an exponent at most
    [-104] neither overflows nor fails. *)
Lemma binary_round_aux_small sx M E :
  0 <= M < 2 ^ 106 -> E <= -104 ->
  isFinite (binary_round_aux prec emax sx M E loc_Exact) = true.
Proof.
  intros HM HE. unfold binary_round_aux.
  destruct (shr_fexp prec emax M E loc_Exact) as [mrs' e'] eqn:E1.
  destruct (shr_fexp_spec M E loc_Exact ltac:(lia)) as [Hm1 He1].
  rewrite E1 in Hm1, He1. simpl in Hm1, He1.
  pose proof (Zdigits2_bound M 106 ltac:(lia) ltac:(lia) ltac:(lia)) as HD.
  set (r := round_nearest_even (shr_m mrs') (loc_of_shr_record mrs')).
  pose proof (round_nearest_even_bound (shr_m mrs') (loc_of_shr_record mrs') ltac:(lia)) as Hr.
  fold r in Hr.
  destruct (shr_fexp prec emax r e' loc_Exact) as [mrs'' e''] eqn:E2.
  destruct (shr_fexp_spec r e' loc_Exact ltac:(lia)) as [Hm2 He2].
  rewrite E2 in Hm2, He2. simpl in Hm2, He2.
  pose proof (Zdigits2_bound r 107 ltac:(lia) ltac:(lia) ltac:(lia)) as HD'.
  unfold fexp, emin, prec, emax in He1, He2.
  destruct (shr_m mrs'') as [|p|p]; simpl; auto; [|lia].
  destruct (e'' <=? 971) eqn:Ee; [reflexivity|].
  apply Z.leb_gt in Ee. change IntDef.Z.max with Z.max in *. lia.
Qed.

(** A double in [[-1, 1]] is zero or has a mantissa below [2^53] and an
    exponent at most [-52]. *)
Lemma unit_range_shape v :
  valid_binary prec emax v = true -> js_le (SFabs v) one = true ->
  (exists s, v = S754_zero s) \/
  (exists s m e, v = S754_finite s m e /\ Z.pos m < 2 ^ 53 /\ e <= -52).
Proof.
  intros Hv Hle. destruct v as [s|s| |s m e].
  - left; eauto.
  - destruct s; discriminate.
  - discriminate.
  - right. exists s, m, e.
    unfold valid_binary, bounded, canonical_mantissa in Hv.
    apply andb_prop in Hv as [Hc _]. apply Z.eqb_eq in Hc.
    unfold fexp, emin, prec, emax in Hc. change IntDef.Z.max with Z.max in Hc.
    rewrite digits2_pos_size in Hc.
    pose proof (Pos.size_gt m) as Hg.
    assert (Hg' : Z.pos m < 2 ^ Z.pos (Pos.size m)) by (rewrite <- Pos2Z.inj_pow; lia).
    assert (He : e <= -52).
    { change one with (S754_finite false 4503599627370496 (-52)) in Hle.
      revert Hle. unfold js_le, SFleb, SFabs, SFcompare.
      destruct (Z.compare_spec e (-52)); intros; lia || discriminate. }
    split; [reflexivity|]. split; [|auto].
    assert (Hs : Z.pos (Pos.size m) <= 53) by lia.
    assert (2 ^ Z.pos (Pos.size m) <= 2 ^ 53) by (apply Z.pow_le_mono_r; lia).
    lia.
Qed.

Lemma js_mul_unit_range v1 v2 :
  valid_binary prec emax v1 = true -> js_le (SFabs v1) one = true ->
  valid_binary prec emax v2 = true -> js_le (SFabs v2) one = true ->
  isFinite (js_mul v1 v2) = true.
Proof.
  intros H1 H1' H2 H2'.
  destruct (unit_range_shape _ H1 H1') as [[s1 ->]|[s1 [m1 [e1 [-> [Hm1 He1]]]]]];
  destruct (unit_range_shape _ H2 H2') as [[s2 ->]|[s2 [m2 [e2 [-> [Hm2 He2]]]]]];
    try reflexivity.
  unfold js_mul, SFmul. apply binary_round_aux_small; [|lia].
  rewrite Pos2Z.inj_mul.
  assert (Z.pos m1 * Z.pos m2 < 2 ^ 53 * 2 ^ 53) by (apply Z.mul_lt_mono_nonneg; lia).
  change (2 ^ 106) with (2 ^ 53 * 2 ^ 53). lia.
Qed.

Lemma refHost_EcmaMath : EcmaMath refHost.
Proof.
  constructor; try reflexivity.
  - intros x Hx. destruct x as [s|s| |s m e]; try discriminate; split; reflexivity.
  - intros x Hx. simpl. rewrite (js_gt_not_nan _ _ Hx). simpl. rewrite Hx. reflexivity.
Qed.

(** The distance from a valid point to itself, when its latitude in radians
    is finite. *)
Lemma calculateDistance_self_zero H p :
  EcmaMath H -> hasValidLocation (Some p) = true -> isFinite (toRad (lat p)) = true ->
  calculateDistance H (Some p) (Some p) = pzero.
Proof.
  intros HE Hv Hr. unfold calculateDistance. rewrite Hv. cbv zeta.
  simpl in Hv. apply andb_prop in Hv as [_ Hlng].
  rewrite (js_sub_self _ Hr), (js_sub_self _ Hlng).
  change (toRad pzero) with pzero. change (js_div pzero two) with pzero.
  rewrite (sin_pzero _ HE), (pow_pzero_two _ HE).
  destruct (cos_finite _ HE _ Hr) as [Hc1 Hc2].
  pose proof (js_mul_unit_range _ _ Hc1 Hc2 Hc1 Hc2) as Hf.
  assert (Ha : js_add pzero (js_mul (js_mul (Math_cos H (toRad (lat p))) (Math_cos H (toRad (lat p))))
                                    pzero) = pzero).
  { destruct (js_mul (Math_cos H (toRad (lat p))) (Math_cos H (toRad (lat p))))
      as [[]|s| |[] m e]; try discriminate; reflexivity. }
  rewrite Ha.
  change (js_sqrt pzero) with pzero. change (js_sqrt (js_sub one pzero)) with one.
  rewrite (atan2_pzero_pos _ HE one eq_refl). reflexivity.
Qed.

(** [C7] (amended) [calculateDistance] returns the sentinel [Infinity] when
    either argument is missing or lacks a finite latitude and longitude; and
    for a valid point [p] whose latitude in radians ([lat * PI / 180]) is
    finite, [calculateDistance(p, p)] is exactly [0], for every host that
    meets ECMAScript's rules for [Math.sin], [Math.cos], [Math.atan2] and [**]. *)
Theorem calculateDistance_sentinel_and_self :
  forall H p,
    EcmaMath H -> hasValidLocation (Some p) = true -> isFinite (toRad (lat p)) = true ->
    calculateDistance H (Some p) (Some p) = pzero /\
    (forall point1 point2,
       hasValidLocation point1 = false \/ hasValidLocation point2 = false ->
       calculateDistance H point1 point2 = Infinity).
Proof.
  intros H p HE Hv Hr. split; [apply calculateDistance_self_zero; auto|].
  intros [l1|] [l2|] Hq; try reflexivity.
  unfold calculateDistance.
  destruct Hq as [E|E]; rewrite E; [reflexivity|]. rewrite orb_true_r. reflexivity.
Qed.

(** Witness of [C7]: the reference host and the point (1, 0). *)
Lemma calculateDistance_sentinel_and_self_witness :
  EcmaMath refHost /\ hasValidLocation (Some unitLatPoint) = true /\
  isFinite (toRad (lat unitLatPoint)) = true /\
  calculateDistance refHost (Some unitLatPoint) (Some unitLatPoint) = pzero /\
  calculateDistance refHost None (Some unitLatPoint) = Infinity.
Proof.
  split; [apply refHost_EcmaMath|]. split; [reflexivity|]. split; [reflexivity|].
  pose proof (calculateDistance_sentinel_and_self refHost unitLatPoint refHost_EcmaMath
                eq_refl eq_refl) as [Hs Hi].
  split; [exact Hs|]. apply Hi. left; reflexivity.
Defined.

(** Counterexample to [C7] as stated: the valid point with latitude [1e308];
    [toRad] overflows to [Infinity], [Infinity - Infinity] is NaN, and the
    distance from the point to itself is NaN on every host that meets
    ECMAScript's rules. *)
Lemma calculateDistance_sentinel_and_self_counterexample :
  hasValidLocation (Some hugeLatPoint) = true /\
  toRad (lat hugeLatPoint) = Infinity /\
  EcmaMath refHost /\
  (forall H, EcmaMath H ->
     calculateDistance H (Some hugeLatPoint) (Some hugeLatPoint) = NaN).
Proof.
  split; [reflexivity|]. split; [reflexivity|]. split; [apply refHost_EcmaMath|].
  intros H HE. unfold calculateDistance. cbv zeta.
  change (negb (hasValidLocation (Some hugeLatPoint)) || negb (hasValidLocation (Some hugeLatPoint)))
    with false. cbv iota.
  change (js_div (js_sub (toRad (lat hugeLatPoint)) (toRad (lat hugeLatPoint))) two) with NaN.
  rewrite (sin_nan _ HE), (pow_nan_two _ HE).
  change (js_sqrt (js_add NaN ?x)) with NaN.
  rewrite (atan2_nan_l _ HE). reflexivity.
Qed.

(** ** Further properties of the code *)

Lemma SFcompare_key x y :
  is_nan x = false -> is_nan y = false -> SFcompare x y = Some (keycmp (fkey x) (fkey y)).
Proof.
  intros Hx Hy.
  destruct x as [sx|sx| |sx mx ex]; try discriminate;
  destruct y as [sy|sy| |sy my ey]; try discriminate;
  try destruct sx; try destruct sy; simpl; try reflexivity.
  - rewrite Z.compare_opp, (Z.compare_antisym ey ex).
    destruct (ey ?= ex); reflexivity.
Qed.

Lemma keycmp_Lt a b : keycmp a b = Lt <-> keylt a b.
Proof.
  destruct a as [[a1 a2] a3], b as [[b1 b2] b3]; simpl.
  destruct (Z.compare_spec a1 b1); destruct (Z.compare_spec a2 b2);
    destruct (Z.compare_spec a3 b3); split; intros; try lia; try discriminate; auto.
Qed.

Lemma keycmp_Eq a b : keycmp a b = Eq <-> a = b.
Proof.
  destruct a as [[a1 a2] a3], b as [[b1 b2] b3]; simpl.
  destruct (Z.compare_spec a1 b1); destruct (Z.compare_spec a2 b2);
    destruct (Z.compare_spec a3 b3); split; intros E; subst; try discriminate; auto;
    injection E; intros; lia.
Qed.

Lemma keycmp_Gt a b : keycmp a b = Gt <-> keylt b a.
Proof.
  destruct a as [[a1 a2] a3], b as [[b1 b2] b3]; simpl.
  destruct (Z.compare_spec a1 b1); destruct (Z.compare_spec a2 b2);
    destruct (Z.compare_spec a3 b3); split; intros; try lia; try discriminate; auto.
Qed.

Lemma js_lt_key x y : is_nan x = false -> is_nan y = false ->
  js_lt x y = true <-> keylt (fkey x) (fkey y).
Proof.
  intros Hx Hy. unfold js_lt, SFltb. rewrite SFcompare_key by auto.
  rewrite <- keycmp_Lt. destruct (keycmp _ _); split; congruence.
Qed.

Lemma js_eq_key x y : is_nan x = false -> is_nan y = false ->
  js_eq x y = true <-> fkey x = fkey y.
Proof.
  intros Hx Hy. unfold js_eq, SFeqb. rewrite SFcompare_key by auto.
  rewrite <- keycmp_Eq. destruct (keycmp _ _); split; congruence.
Qed.

Lemma js_le_key x y : is_nan x = false -> is_nan y = false ->
  js_le x y = true <-> keylt (fkey x) (fkey y) \/ fkey x = fkey y.
Proof.
  intros Hx Hy. unfold js_le, SFleb. rewrite SFcompare_key by auto.
  rewrite <- keycmp_Lt, <- keycmp_Eq. destruct (keycmp _ _); split; intros; intuition congruence.
Qed.

Lemma keylt_trans a b c : keylt a b -> keylt b c -> keylt a c.
Proof.
  destruct a as [[a1 a2] a3], b as [[b1 b2] b3], c as [[c1 c2] c3]; simpl; lia.
Qed.

Lemma keylt_irrefl a : ~ keylt a a.
Proof. destruct a as [[a1 a2] a3]; simpl; lia. Qed.

Lemma keylt_total a b : keylt a b \/ a = b \/ keylt b a.
Proof.
  destruct a as [[a1 a2] a3], b as [[b1 b2] b3]; simpl.
  destruct (Z.lt_trichotomy a1 b1) as [|[<-|]]; [left; lia| |right; right; lia].
  destruct (Z.lt_trichotomy a2 b2) as [|[<-|]]; [left; lia| |right; right; lia].
  destruct (Z.lt_trichotomy a3 b3) as [|[<-|]]; [left; lia|auto|right; right; lia].
Qed.

Lemma js_lt_nan_l x : is_nan x = true -> forall y, js_lt x y = false.
Proof. destruct x; try discriminate; reflexivity. Qed.

Lemma js_lt_nan_r y : is_nan y = true -> forall x, js_lt x y = false.
Proof. destruct y; try discriminate; intros _ x; destruct x; reflexivity. Qed.

Lemma js_eq_nan_l x : is_nan x = true -> forall y, js_eq x y = false.
Proof. destruct x; try discriminate; reflexivity. Qed.

Lemma js_eq_nan_r y : is_nan y = true -> forall x, js_eq x y = false.
Proof. destruct y; try discriminate; intros _ x; destruct x; reflexivity. Qed.

Lemma js_eq_sym x y : js_eq x y = js_eq y x.
Proof.
  destruct (is_nan x) eqn:Hx; [rewrite (js_eq_nan_l _ Hx), (js_eq_nan_r _ Hx); auto|].
  destruct (is_nan y) eqn:Hy; [rewrite (js_eq_nan_l _ Hy), (js_eq_nan_r _ Hy); auto|].
  destruct (js_eq x y) eqn:E1, (js_eq y x) eqn:E2; auto.
  - apply js_eq_key in E1; auto. rewrite (proj2 (js_eq_key y x Hy Hx)) in E2; auto.
  - apply js_eq_key in E2; auto. rewrite (proj2 (js_eq_key x y Hx Hy)) in E1; auto.
Qed.

Lemma js_lt_asym x y : js_lt x y = true -> js_lt y x = false.
Proof.
  intros Hl.
  destruct (is_nan x) eqn:Hx; [rewrite js_lt_nan_l in Hl; auto; discriminate|].
  destruct (is_nan y) eqn:Hy; [rewrite js_lt_nan_r in Hl; auto; discriminate|].
  destruct (js_lt y x) eqn:E; auto.
  apply js_lt_key in Hl; auto. apply js_lt_key in E; auto.
  exfalso. apply (keylt_irrefl (fkey x)). eapply keylt_trans; eauto.
Qed.

Lemma string_compare_lt_trans s1 s2 s3 :
  String.compare s1 s2 = Lt -> String.compare s2 s3 = Lt -> String.compare s1 s3 = Lt.
Proof.
  revert s2 s3. induction s1 as [|c1 s1 IH]; intros [|c2 s2] [|c3 s3]; simpl; try discriminate; auto.
  unfold Ascii.compare.
  destruct (N.compare_spec (Ascii.N_of_ascii c1) (Ascii.N_of_ascii c2));
  destruct (N.compare_spec (Ascii.N_of_ascii c2) (Ascii.N_of_ascii c3));
  destruct (N.compare_spec (Ascii.N_of_ascii c1) (Ascii.N_of_ascii c3));
    intros; try discriminate; auto; try lia.
  apply (IH s2 s3); auto.
Qed.

Lemma string_ltb_trans a b c :
  String.ltb a b = true -> String.ltb b c = true -> String.ltb a c = true.
Proof.
  unfold String.ltb.
  destruct (String.compare a b) eqn:E1; try discriminate.
  destruct (String.compare b c) eqn:E2; try discriminate.
  rewrite (string_compare_lt_trans _ _ _ E1 E2). auto.
Qed.

Lemma string_ltb_asym a b : String.ltb a b = true -> String.ltb b a = false.
Proof.
  unfold String.ltb. rewrite (String.compare_antisym b a).
  destruct (String.compare a b); simpl; congruence.
Qed.

Lemma string_ltb_total a b : a <> b -> String.ltb a b = true \/ String.ltb b a = true.
Proof.
  intros Hne. unfold String.ltb. rewrite (String.compare_antisym b a).
  destruct (String.compare a b) eqn:E; simpl; auto.
  apply String.compare_eq_iff in E. contradiction.
Qed.

Lemma betterThan_asym a b : betterThan a b = true -> betterThan b a = false.
Proof.
  unfold betterThan, js_gt. rewrite (js_eq_sym (score b)), (js_eq_sym (distance b)),
    (js_eq_sym (popularity b)).
  destruct (js_eq (score a) (score b)); simpl.
  - destruct (js_eq (distance a) (distance b)); simpl.
    + destruct (js_eq (popularity a) (popularity b)); simpl.
      * apply string_ltb_asym.
      * apply js_lt_asym.
    + apply js_lt_asym.
  - apply js_lt_asym.
Qed.

Lemma heapLess_betterThan a b : heapLess a b = betterThan b a.
Proof.
  unfold heapLess, betterThan, js_gt.
  rewrite (js_eq_sym (score b)), (js_eq_sym (distance b)), (js_eq_sym (popularity b)).
  reflexivity.
Qed.

Lemma betterThan_key a b : nodeNumeric a = true -> nodeNumeric b = true ->
  betterThan a b = true <-> nodeBetter a b.
Proof.
  unfold nodeNumeric, nodeBetter, betterThan, js_gt.
  intros Ha Hb.
  destruct (is_nan (score a)) eqn:Sa, (is_nan (distance a)) eqn:Da, (is_nan (popularity a)) eqn:Pa;
    try discriminate.
  destruct (is_nan (score b)) eqn:Sb, (is_nan (distance b)) eqn:Db, (is_nan (popularity b)) eqn:Pb;
    try discriminate.
  fold (js_lt (score b) (score a)). fold (js_lt (distance a) (distance b)).
  fold (js_lt (popularity b) (popularity a)).
  destruct (js_eq (score a) (score b)) eqn:Es; simpl.
  - apply js_eq_key in Es; auto.
    destruct (js_eq (distance a) (distance b)) eqn:Ed; simpl.
    + apply js_eq_key in Ed; auto.
      destruct (js_eq (popularity a) (popularity b)) eqn:Ep; simpl.
      * apply js_eq_key in Ep; auto.
        rewrite Es, Ed, Ep. split; [intros; right; split; auto; right; split; auto; right; auto|].
        intros [Hl|[_ [Hl|[_ [Hl|[_ Hi]]]]]]; auto; exfalso; eapply keylt_irrefl; eauto.
      * assert (fkey (popularity a) <> fkey (popularity b)) as Hne.
        { intros E. apply (js_eq_key _ _ Pa Pb) in E. congruence. }
        rewrite js_lt_key by auto. rewrite Es, Ed.
        split; [intros; right; split; auto; right; split; auto|].
        intros [Hl|[_ [Hl|[_ [Hl|[E _]]]]]]; auto; try (exfalso; eapply keylt_irrefl; eauto; fail).
        contradiction.
    + assert (fkey (distance a) <> fkey (distance b)) as Hne.
      { intros E. apply (js_eq_key _ _ Da Db) in E. congruence. }
      rewrite js_lt_key by auto. rewrite Es.
      split; [intros; right; split; auto|].
      intros [Hl|[_ [Hl|[E _]]]]; auto; try (exfalso; eapply keylt_irrefl; eauto; fail).
      contradiction.
  - assert (fkey (score a) <> fkey (score b)) as Hne.
    { intros E. apply (js_eq_key _ _ Sa Sb) in E. congruence. }
    rewrite js_lt_key by auto.
    split; [intros; left; auto|].
    intros [Hl|[E _]]; auto. contradiction.
Qed.

Lemma nodeBetter_trans a b c : nodeBetter a b -> nodeBetter b c -> nodeBetter a c.
Proof.
  unfold nodeBetter.
  intros [H1|[E1 H1]] [H2|[E2 H2]].
  - left; eapply keylt_trans; eauto.
  - left; rewrite <- E2; auto.
  - left; rewrite E1; auto.
  - right; split; [congruence|].
    destruct H1 as [D1|[F1 D1]], H2 as [D2|[F2 D2]].
    + left; eapply keylt_trans; eauto.
    + left; rewrite <- F2; auto.
    + left; rewrite F1; auto.
    + right; split; [congruence|].
      destruct D1 as [P1|[G1 I1]], D2 as [P2|[G2 I2]].
      * left; eapply keylt_trans; eauto.
      * left; rewrite <- G2; auto.
      * left; rewrite G1; auto.
      * right; split; [congruence|]. eapply string_ltb_trans; eauto.
Qed.

Lemma nodeBetter_total a b : id a <> id b -> nodeBetter a b \/ nodeBetter b a.
Proof.
  intros Hid. unfold nodeBetter.
  destruct (keylt_total (fkey (score a)) (fkey (score b))) as [Hs|[Hs|Hs]]; auto.
  destruct (keylt_total (fkey (distance a)) (fkey (distance b))) as [Hd|[Hd|Hd]];
    [left; right; split; [auto|left; auto]| |right; right; split; [congruence|left; auto]].
  destruct (keylt_total (fkey (popularity a)) (fkey (popularity b))) as [Hp|[Hp|Hp]];
    [right; right; split; [congruence|right; split; [congruence|left; auto]]| |
     left; right; split; [auto|right; split; [auto|left; auto]]].
  destruct (string_ltb_total _ _ Hid) as [Hi|Hi].
  - left. right. split; [auto|]. right. split; [auto|]. right. auto.
  - right. right. split; [congruence|]. right. split; [congruence|]. right. split; [congruence|auto].
Qed.

Lemma list_set_app {A : Type} (l1 l2 : list A) k v :
  list_set (l1 ++ l2) (List.length l1 + k) v = l1 ++ list_set l2 k v.
Proof. induction l1 as [|x l1 IH]; simpl; auto. rewrite IH. reflexivity. Qed.

Lemma list_set_comm {A : Type} (l : list A) i j a b :
  i <> j -> list_set (list_set l i a) j b = list_set (list_set l j b) i a.
Proof.
  revert i j; induction l as [|x l IH]; intros [|i] [|j] Hij; simpl; auto; try congruence.
  rewrite IH; auto.
Qed.

Lemma list_set_same {A : Type} (l : list A) i x :
  nth_error l i = Some x -> list_set l i x = l.
Proof.
  revert i; induction l as [|y l IH]; intros [|i] Hi; simpl in *; try discriminate.
  - injection Hi; intros ->; auto.
  - rewrite IH; auto.
Qed.

Lemma list_set_twice {A : Type} (l : list A) i a b :
  list_set (list_set l i a) i b = list_set l i b.
Proof. revert i; induction l as [|y l IH]; intros [|i]; simpl; auto. rewrite IH; auto. Qed.

Lemma swap_perm_lt {A : Type} (h : list A) i j x y :
  (i < j)%nat -> nth_error h i = Some x -> nth_error h j = Some y ->
  Permutation (list_set (list_set h i y) j x) h.
Proof.
  intros Hij Hi Hj.
  destruct (nth_error_split _ _ Hi) as [l1 [l2 [-> Hl1]]].
  rewrite nth_error_app2 in Hj by lia.
  replace (j - List.length l1)%nat with (S (j - i - 1)) in Hj by lia. simpl in Hj.
  destruct (nth_error_split _ _ Hj) as [l3 [l4 [-> Hl3]]].
  replace i with (List.length l1 + 0)%nat by lia. rewrite list_set_app. simpl.
  replace j with (List.length l1 + S (List.length l3 + 0))%nat by lia.
  rewrite list_set_app. simpl. rewrite list_set_app. simpl.
  apply Permutation_app_head.
  eapply perm_trans; [apply perm_skip, Permutation_sym, Permutation_middle|].
  eapply perm_trans; [apply perm_swap|].
  apply perm_skip, Permutation_middle.
Qed.

Lemma heapSwap_perm h i j : Permutation (heapSwap h i j) h.
Proof.
  unfold heapSwap.
  destruct (nth_error h i) as [x|] eqn:Ei, (nth_error h j) as [y|] eqn:Ej; auto.
  destruct (Nat.lt_trichotomy i j) as [Hlt|[<-|Hgt]].
  - apply swap_perm_lt; auto.
  - rewrite Ei in Ej. injection Ej; intros <-.
    rewrite list_set_twice, list_set_same; auto.
  - rewrite list_set_comm by lia. apply swap_perm_lt; auto.
Qed.

Lemma heapSiftUp_perm fuel h i : Permutation (heapSiftUp fuel h i) h.
Proof.
  revert h i; induction fuel as [|fuel IH]; intros h [|i]; simpl; auto.
  case_if; auto. eapply perm_trans; [apply IH|]. apply heapSwap_perm.
Qed.

Lemma heapSiftDown_perm fuel h i : Permutation (heapSiftDown fuel h i) h.
Proof.
  revert h i; induction fuel as [|fuel IH]; intros h i; simpl; auto.
  case_if; auto. eapply perm_trans; [apply IH|]. apply heapSwap_perm.
Qed.

Lemma heapPush_perm h node : Permutation (heapPush h node) (node :: h).
Proof.
  unfold heapPush. eapply perm_trans; [apply heapSiftUp_perm|].
  apply Permutation_sym, Permutation_cons_append.
Qed.

Lemma heapReplaceRoot_perm root t node :
  Permutation (heapReplaceRoot (root :: t) node) (node :: t).
Proof. unfold heapReplaceRoot. apply heapSiftDown_perm. Qed.

Lemma unusedNodes_length used nodes :
  List.length used = List.length nodes ->
  List.length (unusedNodes used nodes) = List.length (filter negb used).
Proof.
  unfold unusedNodes. revert nodes; induction used as [|b used IH]; intros [|n nodes] Hl;
    simpl in *; try discriminate; auto.
  destruct b; simpl; auto.
Qed.

Lemma unusedNodes_pick used nodes i chosen :
  nth_error used i = Some false -> nth_error nodes i = Some chosen ->
  Permutation (unusedNodes used nodes) (chosen :: unusedNodes (list_set used i true) nodes).
Proof.
  unfold unusedNodes. revert nodes i; induction used as [|b used IH];
    intros [|n nodes] [|i] Hu Hn; simpl in *; try discriminate.
  - injection Hu; intros ->. injection Hn; intros ->. simpl. auto.
  - destruct b; simpl.
    + apply IH; auto.
    + eapply perm_trans; [apply perm_skip, IH; eauto|]. apply perm_swap.
Qed.

Lemma list_set_length_eq {A B : Type} (l : list A) (m : list B) i v :
  List.length l = List.length m -> List.length (list_set l i v) = List.length m.
Proof. intros; rewrite list_set_length; auto. Qed.

Lemma rerankLoop_perm alpha cap nodes steps used cc out res :
  List.length used = List.length nodes -> List.length (filter negb used) = steps ->
  Permutation nodes (rev out ++ unusedNodes used nodes) ->
  rerankLoop alpha cap nodes steps used cc out = Some res -> Permutation res nodes.
Proof.
  revert used cc out; induction steps as [|steps IH]; intros used cc out Hl Hc Hp Hr; simpl in Hr.
  - injection Hr; intros <-.
    assert (Hu : unusedNodes used nodes = []).
    { apply length_zero_iff_nil. rewrite unusedNodes_length; auto. }
    rewrite Hu, app_nil_r in Hp. apply Permutation_sym; auto.
  - destruct (fst (selectBest alpha cap cc nodes used)) as [b|] eqn:Es; [|discriminate].
    destruct (nth_error nodes b) as [chosen|] eqn:Eb; [|discriminate].
    destruct (selectBest_picks _ _ _ _ _ _ Es) as [Hu _].
    apply (IH _ _ _ (list_set_length_eq _ _ b true Hl) ltac:(pose proof (count_unused_list_set _ _ Hu); lia)) in Hr; auto.
    eapply perm_trans; [apply Hp|]. simpl. rewrite <- app_assoc. simpl.
      apply Permutation_app_head. apply unusedNodes_pick; auto.
Qed.

Lemma unusedNodes_all_false nodes :
  unusedNodes (repeat false (List.length nodes)) nodes = nodes.
Proof. unfold unusedNodes. induction nodes as [|n nodes IH]; simpl; auto. rewrite IH; auto. Qed.

Lemma rerankWithCategoryDiversity_perm nodes alpha cap res :
  rerankWithCategoryDiversity nodes alpha cap = Some res -> Permutation res nodes.
Proof.
  unfold rerankWithCategoryDiversity. intros Hr.
  eapply (rerankLoop_perm _ _ _ _ _ _ []); [| |simpl; rewrite unusedNodes_all_false; apply Permutation_refl|exact Hr].
  - apply repeat_length.
  - apply count_unused_repeat.
Qed.

Lemma Sublist_nil_l {A : Type} (l : list A) : Sublist [] l.
Proof. induction l; [apply Sublist_nil|apply Sublist_skip; auto]. Qed.

Lemma Sublist_refl {A : Type} (l : list A) : Sublist l l.
Proof. induction l; [apply Sublist_nil|apply Sublist_keep; auto]. Qed.

Lemma Sublist_app {A : Type} (l1 l2 l3 l4 : list A) :
  Sublist l1 l2 -> Sublist l3 l4 -> Sublist (l1 ++ l3) (l2 ++ l4).
Proof.
  intros H12 H34. induction H12; simpl; auto; [apply Sublist_skip|apply Sublist_keep]; auto.
Qed.

Lemma Sublist_snoc {A : Type} (l l' : list A) x : Sublist l l' -> Sublist l (l' ++ [x]).
Proof. intros Hs. rewrite <- (app_nil_r l). apply Sublist_app; auto. apply Sublist_skip, Sublist_nil. Qed.

Lemma Sublist_remove {A : Type} (s1 s2 l : list A) x :
  Sublist (s1 ++ x :: s2) l -> Sublist (s1 ++ s2) l.
Proof.
  intros Hs. remember (s1 ++ x :: s2) as m eqn:Em. revert s1 Em.
  induction Hs as [|y m l' Hs IH|y m l' Hs IH]; intros s1 Em.
  - destruct s1; discriminate.
  - apply Sublist_skip; eapply IH; eauto.
  - destruct s1 as [|z s1]; simpl in Em; injection Em; intros; subst.
    + apply Sublist_skip; auto.
    + simpl. apply Sublist_keep. eapply IH; eauto.
Qed.

Lemma Sublist_length {A : Type} (l l' : list A) : Sublist l l' -> (List.length l <= List.length l')%nat.
Proof. induction 1; simpl; lia. Qed.

Lemma Sublist_length_eq {A : Type} (l l' : list A) :
  Sublist l l' -> List.length l = List.length l' -> l = l'.
Proof.
  induction 1; simpl; intros Hl; auto.
  - apply Sublist_length in H. lia.
  - f_equal; auto.
Qed.

Lemma Sublist_map {A B : Type} (f : A -> B) l l' : Sublist l l' -> Sublist (map f l) (map f l').
Proof. induction 1; simpl; [apply Sublist_nil|apply Sublist_skip|apply Sublist_keep]; auto. Qed.

Lemma Sublist_In {A : Type} (l l' : list A) x : Sublist l l' -> In x l -> In x l'.
Proof.
  induction 1; simpl; intuition.
Qed.

Lemma Sublist_NoDup {A : Type} (l l' : list A) : Sublist l l' -> NoDup l' -> NoDup l.
Proof.
  induction 1; intros Hn; auto.
  - inversion Hn; auto.
  - inversion Hn; subst. constructor; auto.
    intros Hin. apply H2. eapply Sublist_In; eauto.
Qed.

Lemma topKScan_sub H cfg user Pr k events :
  exists sel, Sublist sel (scoredNodes H cfg user Pr events) /\
              Permutation (topKScan H cfg user Pr k events) sel.
Proof.
  unfold topKScan, scoredNodes.
  assert (Hgen : forall heap pre, (exists sel, Sublist sel pre /\ Permutation heap sel) ->
    exists sel, Sublist sel (pre ++ flat_map (fun oev => match scoreEvent H cfg user Pr oev with
                                                         | Some n => [n] | None => [] end) events)
                /\ Permutation (fold_left (fun heap oev => scanStep k heap (scoreEvent H cfg user Pr oev))
                                          events heap) sel).
  { induction events as [|oev events IH]; intros heap pre [sel [Hs Hp]]; simpl.
    - rewrite app_nil_r. eauto.
    - rewrite app_assoc. apply IH.
      destruct (scoreEvent H cfg user Pr oev) as [n|]; simpl; [|rewrite app_nil_r; eauto].
      case_if.
      + exists (sel ++ [n]). split; [apply Sublist_app; auto; apply Sublist_refl|].
        eapply perm_trans; [apply heapPush_perm|].
        eapply perm_trans; [apply perm_skip, Hp|]. apply Permutation_cons_append.
      + destruct heap as [|root t]; [exists sel; split; auto; apply Sublist_snoc; auto|].
        case_if; [|exists sel; split; auto; apply Sublist_snoc; auto].
        destruct (Permutation_vs_cons_inv (Permutation_sym Hp)) as [s1 [s2 ->]].
        exists ((s1 ++ s2) ++ [n]). split.
        * apply Sublist_app; [eapply Sublist_remove; eauto|apply Sublist_refl].
        * eapply perm_trans; [apply heapReplaceRoot_perm|].
          eapply perm_trans; [|apply Permutation_cons_append].
          apply perm_skip. apply Permutation_cons_app_inv with (a := root). auto. }
  apply (Hgen [] []). exists []. split; constructor.
Qed.

Lemma scoredNodes_events H cfg user Pr events :
  map (fun n => Some (event n)) (scoredNodes H cfg user Pr events)
  = filter (eligibleCandidate H cfg user) events.
Proof.
  unfold scoredNodes. induction events as [|oev events IH]; simpl; auto.
  pose proof (scoreEvent_isSome H cfg user Pr oev) as Hs.
  destruct (scoreEvent H cfg user Pr oev) as [n|] eqn:E; simpl in *.
  - rewrite <- Hs. simpl. rewrite IH.
    destruct (scoreEvent_some _ _ _ _ _ _ E) as [-> _]. reflexivity.
  - rewrite <- Hs. auto.
Qed.

(** The nodes at the end of [getRecommendedEvents] are a reordering of the
    heap. *)
Lemma finish_perm H cfg (heap : list Node) out :
  (let nodes := sortBy (rankCompare H) heap in
   let diversified :=
     if diversity_enabled cfg && Nat.ltb 1 (List.length nodes)
     then rerankWithCategoryDiversity nodes (diversity_alpha cfg) (diversity_perCategoryCap cfg)
     else Some nodes in
   option_map (map event) diversified) = Some out ->
  Permutation out (map event heap).
Proof.
  cbv zeta. intros Ho.
  pose proof (sortBy_perm (rankCompare H) heap) as Hp.
  destruct (diversity_enabled cfg && Nat.ltb 1 (List.length (sortBy (rankCompare H) heap))).
  - destruct (rerankWithCategoryDiversity _ _ _) as [res|] eqn:Er; simpl in Ho; [|discriminate].
    injection Ho; intros <-. apply Permutation_map.
    eapply perm_trans; [eapply rerankWithCategoryDiversity_perm; eauto|]. auto.
  - simpl in Ho. injection Ho; intros <-. apply Permutation_map; auto.
Qed.

Lemma getRecommendedEvents_sub H cfg user events eventSimilarity limit out :
  getRecommendedEvents H cfg user events eventSimilarity limit = Some out ->
  exists sel, Sublist sel (filter (eligibleCandidate H cfg user) events) /\
              Permutation (map Some out) sel.
Proof.
  intros Hg. unfold getRecommendedEvents in Hg.
  destruct (_ || _); [injection Hg; intros <-; exists []; split; [apply Sublist_nil_l|auto]|].
  destruct (_ =? 0); [injection Hg; intros <-; exists []; split; [apply Sublist_nil_l|auto]|].
  set (Pr := prepare cfg user events eventSimilarity) in Hg.
  set (k := Z.to_nat _) in Hg.
  destruct (topKScan_sub H cfg user Pr k events) as [sel [Hs Hp]].
  destruct (topKScan H cfg user Pr k events) as [|n0 t] eqn:Eh.
  { injection Hg; intros <-. exists []. split; [apply Sublist_nil_l|auto]. }
  pose proof (finish_perm _ _ _ _ Hg) as Hf.
  exists (map (fun n => Some (event n)) sel). split.
  - rewrite <- (scoredNodes_events H cfg user Pr). apply Sublist_map; auto.
  - rewrite <- (map_map event Some). apply Permutation_map.
    eapply perm_trans; [apply Hf|]. apply Permutation_map; auto.
Qed.

Lemma getRecommendedEvents_all_eligible H cfg user events eventSimilarity limit n out :
  limitValue limit = Some n -> Z.of_nat (List.length events) <= n < 2 ^ 31 ->
  getRecommendedEvents H cfg user events eventSimilarity limit = Some out ->
  Permutation (map Some out) (filter (eligibleCandidate H cfg user) events).
Proof.
  intros Hv Hn Hg.
  destruct (getRecommendedEvents_sub _ _ _ _ _ _ _ Hg) as [sel [Hs Hp]].
  pose proof (limit_facts limit n Hv ltac:(lia)) as [Ht Hle]. cbv zeta in Ht, Hle.
  pose proof (getRecommendedEvents_length_exact _ _ _ _ _ _ _ Hg) as Hl. cbv zeta in Hl.
  pose proof (eligibleCandidateCount_le H cfg user events) as Hc.
  unfold eligibleCandidateCount in *.
  replace sel with (filter (eligibleCandidate H cfg user) events) in Hp; auto.
  symmetry. apply Sublist_length_eq; auto.
  apply Permutation_length in Hp. rewrite length_map in Hp. rewrite <- Hp.
  set (l := match limit with Some l => l | None => of_Z 5 end) in *.
  destruct (Nat.eqb (List.length events) 0) eqn:E0; simpl in Hl.
  { apply Nat.eqb_eq in E0. lia. }
  destruct (js_le l pzero) eqn:El.
  { destruct (Z.eq_dec n 0) as [->|]; [lia|]. pose proof (Hle ltac:(lia)); discriminate. }
  rewrite Ht in Hl. lia.
Qed.

Lemma getRecommendedEvents_empty H cfg user events eventSimilarity limit :
  events = [] \/ toInt32 (match limit with Some l => l | None => of_Z 5 end) <= 0 ->
  getRecommendedEvents H cfg user events eventSimilarity limit = Some [].
Proof.
  intros Hc. unfold getRecommendedEvents.
  set (l := match limit with Some l => l | None => of_Z 5 end) in *.
  destruct (_ || _) eqn:E; auto.
  replace (Z.min (Z.max 0 (toInt32 l)) (Z.of_nat (List.length events)) =? 0) with true; auto.
  symmetry. apply Z.eqb_eq. destruct Hc as [->|Hc]; simpl; lia.
Qed.

Lemma bumpCounts_spec sims counts sid :
  fold_left bumpCount sims counts sid = counts sid + Z.of_nat (count_occ string_dec sims sid).
Proof.
  revert counts; induction sims as [|x sims IH]; intros counts; simpl; [lia|].
  rewrite IH. unfold bumpCount.
  destruct (string_dec x sid) as [->|Hne].
  - rewrite String.eqb_refl. lia.
  - replace (String.eqb sid x) with false; [lia|].
    symmetry. apply String.eqb_neq. auto.
Qed.

(** [X8] For every id [sid], the count [buildSimilarCounts] records is the
    number of occurrences of [sid] in the similarity arrays of the attended
    events, summed over the attended list: an attended id without an array
    adds nothing, and an id listed twice (in one array or for an attended id
    repeated) is counted twice. *)
Theorem buildSimilarCounts_spec attended eventSimilarity sid :
  buildSimilarCounts attended eventSimilarity sid =
  Z.of_nat (list_sum (map (fun eid => match eventSimilarity eid with
                                       | Some sims => count_occ string_dec sims sid
                                       | None => O
                                       end) attended)).
Proof.
  unfold buildSimilarCounts.
  assert (Hgen : forall acc, fold_left (fun counts eid =>
               match eventSimilarity eid with
               | None => counts
               | Some sims => fold_left bumpCount sims counts
               end) attended acc sid =
    acc sid + Z.of_nat (list_sum (map (fun eid => match eventSimilarity eid with
                                       | Some sims => count_occ string_dec sims sid
                                       | None => O
                                       end) attended))).
  { induction attended as [|eid attended IH]; intros acc; simpl; [lia|].
    rewrite IH. destruct (eventSimilarity eid) as [sims|]; [rewrite bumpCounts_spec|]; lia. }
  rewrite Hgen. reflexivity.
Qed.

(** ** Signs *)

Lemma binary_round_aux_nonneg_mantissa sx mx ex lx :
  0 <= mx ->
  is_nan (binary_round_aux prec emax sx mx ex lx) = false /\
  (sx = false -> js_le pzero (binary_round_aux prec emax sx mx ex lx) = true).
Proof.
  intros Hm. unfold binary_round_aux.
  destruct (shr_fexp prec emax mx ex lx) as [mrs' e'] eqn:E1.
  destruct (shr_fexp_spec mx ex lx Hm) as [Hm1 _]. rewrite E1 in Hm1. simpl in Hm1.
  pose proof (round_nearest_even_bound (shr_m mrs') (loc_of_shr_record mrs') ltac:(lia)) as Hr.
  set (r := round_nearest_even (shr_m mrs') (loc_of_shr_record mrs')) in *.
  destruct (shr_fexp prec emax r e' loc_Exact) as [mrs'' e''] eqn:E2.
  destruct (shr_fexp_spec r e' loc_Exact ltac:(lia)) as [Hm2 _]. rewrite E2 in Hm2. simpl in Hm2.
  destruct (shr_m mrs'') as [|p|p]; [| |lia].
  - split; [reflexivity|]. intros ->. reflexivity.
  - destruct (e'' <=? emax - prec); (split; [reflexivity|]); intros ->; reflexivity.
Qed.

Lemma nonneg_not_nan x : js_le pzero x = true -> is_nan x = false.
Proof. destruct x; try reflexivity. discriminate. Qed.

(** A double [x] with [+0 <= x] is a zero, a positive finite number or [+Infinity]. *)
Lemma nonneg_cases x : js_le pzero x = true ->
  (exists s, x = S754_zero s) \/ (exists m e, x = S754_finite false m e) \/ x = Infinity.
Proof.
  destruct x as [s|s| |s m e]; intros Hx; eauto.
  - destruct s; [discriminate|]. auto.
  - discriminate.
  - destruct s; [discriminate|]. eauto.
Qed.

Lemma js_add_nonneg x y : js_le pzero x = true -> js_le pzero y = true -> js_le pzero (js_add x y) = true.
Proof.
  intros Hx Hy.
  destruct (nonneg_cases _ Hx) as [[sx ->]|[[mx [ex ->]]| ->]];
  destruct (nonneg_cases _ Hy) as [[sy ->]|[[my [ey ->]]| ->]];
    try reflexivity; try (destruct sx; reflexivity); try (destruct sx, sy; reflexivity).
  unfold js_add, SFadd. unfold binary_normalize. cbn [cond_Zopp].
  destruct (Z.pos (fst (shl_align mx ex (Z.min ex ey))) + Z.pos (fst (shl_align my ey (Z.min ex ey))))
    as [|p|p] eqn:Es; [reflexivity| |lia].
  unfold binary_round. destruct (shl_align p _ _) as [mz ez].
  apply binary_round_aux_nonneg_mantissa; [lia|reflexivity].
Qed.

Lemma orZero_nonneg v : (forall x, v = Some x -> js_le pzero x = true) -> js_le pzero (orZero v) = true.
Proof.
  intros Hv. destruct v as [x|]; simpl; auto.
  destruct (is_nan x || is_zero x); auto.
Qed.

Lemma clampPopularity_nonneg p :
  (forall x, p = Some x -> is_nan x = false) -> js_le pzero (clampPopularity p) = true.
Proof.
  intros Hp. destruct p as [x|]; [|reflexivity].
  apply (clampPopularity_range x). apply Hp; auto.
Qed.

Lemma tally_fold_spec pop cats tally c :
  (fold_left (tallyAdd pop) cats tally c <> None <-> tally c <> None \/ In c cats) /\
  ((forall v, tally c = Some v -> js_le pzero v = true) -> js_le pzero pop = true ->
   forall v, fold_left (tallyAdd pop) cats tally c = Some v -> js_le pzero v = true).
Proof.
  revert tally; induction cats as [|c' cats IH]; intros tally; simpl.
  - split; [tauto|]. intros Ht _ v Hv. apply Ht; auto.
  - destruct (IH (tallyAdd pop tally c')) as [IH1 IH2]. split.
    + rewrite IH1. unfold tallyAdd.
      destruct (String.eqb c c') eqn:E.
      * apply String.eqb_eq in E. subst. split; intros _; [right; left; auto|left; congruence].
      * apply String.eqb_neq in E. split; intros Hx; intuition congruence.
    + intros Ht Hp. apply IH2; auto. unfold tallyAdd. intros v.
      destruct (String.eqb c c') eqn:E; [|apply Ht].
      apply String.eqb_eq in E. subst. intros Hv; injection Hv; intros <-.
      apply js_add_nonneg; auto. apply orZero_nonneg; auto.
Qed.

Lemma buildCategoryPopularityMap_spec events c :
  (buildCategoryPopularityMap events c <> None <->
     exists e, In (Some e) events /\ In c (ev_categories e)) /\
  ((forall e x, In (Some e) events -> ev_popularity e = Some x -> is_nan x = false) ->
   forall v, buildCategoryPopularityMap events c = Some v -> js_le pzero v = true).
Proof.
  unfold buildCategoryPopularityMap.
  assert (Hgen : forall tally,
    (fold_left (fun tally oe => match oe with
                                | None => tally
                                | Some e => fold_left (tallyAdd (clampPopularity (ev_popularity e)))
                                                      (ev_categories e) tally
                                end) events tally c <> None <->
       tally c <> None \/ exists e, In (Some e) events /\ In c (ev_categories e)) /\
    ((forall e x, In (Some e) events -> ev_popularity e = Some x -> is_nan x = false) ->
     (forall v, tally c = Some v -> js_le pzero v = true) ->
     forall v, fold_left (fun tally oe => match oe with
                                | None => tally
                                | Some e => fold_left (tallyAdd (clampPopularity (ev_popularity e)))
                                                      (ev_categories e) tally
                                end) events tally c = Some v -> js_le pzero v = true)).
  { induction events as [|oe events IH]; intros tally; simpl.
    - split; [split; [auto|intros [?|[e [[] _]]]; auto]|]. intros _ Ht v Hv; apply Ht; auto.
    - destruct oe as [e|].
      + destruct (IH (fold_left (tallyAdd (clampPopularity (ev_popularity e))) (ev_categories e) tally))
          as [IH1 IH2].
        destruct (tally_fold_spec (clampPopularity (ev_popularity e)) (ev_categories e) tally c)
          as [T1 T2].
        split.
        * rewrite IH1, T1. split.
          -- intros [[?|?]|[e' [? ?]]]; eauto.
          -- intros [?|[e' [[E|?] ?]]]; eauto. injection E; intros ->. auto.
        * intros Hn Ht. apply IH2; [intros; eapply Hn; eauto|].
          apply T2; auto. apply clampPopularity_nonneg. intros x Hx. eapply Hn; eauto.
      + destruct (IH tally) as [IH1 IH2]. split.
        * rewrite IH1. split; [intros [?|[e' [? ?]]]; eauto|].
          intros [?|[e' [[E|?] ?]]]; eauto. discriminate.
        * intros Hn. apply IH2. intros; eapply Hn; eauto. }
  destruct (Hgen (fun _ => None)) as [G1 G2]. split.
  - rewrite G1. split; [intros [?|?]; auto; congruence|auto].
  - intros Hn. apply G2; auto. discriminate.
Qed.

Lemma js_gt_not_nan_r x y : js_gt x y = true -> is_nan y = false.
Proof. destruct x, y; unfold js_gt, SFltb; simpl; auto. Qed.

(** [X11] [computeMaxPriorAcrossEvents] returns a value at least [+0] that no
    event's category sum exceeds ([sum > maxPrior] is false for every event,
    NaN sums included), and that is either the initial [+0] or the category
    sum of one of the events. *)
Theorem computeMaxPriorAcrossEvents_spec events popByCat :
  let maxPrior := computeMaxPriorAcrossEvents events popByCat in
  js_le pzero maxPrior = true /\
  (forall oe, In oe events -> js_gt (priorSumOf popByCat (eventCategories oe)) maxPrior = false) /\
  (maxPrior = pzero \/ exists oe, In oe events /\ maxPrior = priorSumOf popByCat (eventCategories oe)).
Proof.
  unfold computeMaxPriorAcrossEvents. cbv zeta.
  assert (Hgen : forall acc, js_le pzero acc = true ->
    let r := fold_left (fun maxPrior oe =>
               let cats := match oe with Some e => ev_categories e | None => [] end in
               let sum := priorSumOf popByCat cats in
               if js_gt sum maxPrior then sum else maxPrior) events acc in
    js_le pzero r = true /\ js_le acc r = true /\
    (forall oe, In oe events -> js_gt (priorSumOf popByCat (eventCategories oe)) r = false) /\
    (forall s, js_gt s acc = false -> js_gt s r = false) /\
    (r = acc \/ exists oe, In oe events /\ r = priorSumOf popByCat (eventCategories oe))).
  { induction events as [|oe events IH]; intros acc Hacc; cbv zeta; simpl.
    - split; auto. split; [apply js_le_key; try apply nonneg_not_nan; auto|].
      split; [intros _ []|]. split; auto.
    - set (sum := priorSumOf popByCat (match oe with Some e => ev_categories e | None => [] end)).
      assert (Hna : is_nan acc = false) by (apply nonneg_not_nan; auto).
      destruct (js_gt sum acc) eqn:Eg.
      + assert (Hsn : is_nan sum = false) by (eapply js_gt_not_nan; eauto).
        assert (Hsum : js_le pzero sum = true).
        { apply js_le_key; auto. apply js_le_key in Hacc; auto.
          unfold js_gt in Eg. apply js_lt_key in Eg; auto.
          destruct Hacc as [Hl|Hl]; [left; eapply keylt_trans; eauto|left; rewrite Hl; auto]. }
        destruct (IH sum Hsum) as [R1 [R2 [R3 [R4 R5]]]]. cbv zeta in *.
        set (r := fold_left _ events sum) in *.
        assert (Hrn : is_nan r = false) by (apply nonneg_not_nan; auto).
        unfold js_gt in Eg. apply js_lt_key in Eg; auto.
        apply js_le_key in R2; auto.
        assert (Hacc_r : keylt (fkey acc) (fkey r)).
        { destruct R2 as [R2|R2]; [eapply keylt_trans; eauto|rewrite <- R2; auto]. }
        split; auto. split; [apply js_le_key; auto|].
        split; [intros oe' [<-|Hin]; [apply R4|apply R3; auto]|].
        { unfold js_gt. destruct (js_lt sum sum) eqn:Ess; auto.
          apply js_lt_key in Ess; auto. exfalso; eapply keylt_irrefl; eauto. }
        split.
        * intros s Hs. apply R4. unfold js_gt in *. fold (js_lt acc s) in Hs. fold (js_lt sum s).
          destruct (is_nan s) eqn:Hs'; [apply js_lt_nan_r; auto|].
          destruct (js_lt sum s) eqn:E; auto. apply js_lt_key in E; auto.
          assert (js_lt acc s = true) by (apply js_lt_key; auto; apply (keylt_trans _ (fkey sum)); auto).
          congruence.
        * right. destruct R5 as [->|[oe' [Hin ->]]]; [exists oe; split; auto|exists oe'; auto].
      + destruct (IH acc Hacc) as [R1 [R2 [R3 [R4 R5]]]]. cbv zeta in *.
        split; auto. split; auto.
        split; [intros oe' [<-|Hin]; [apply R4; auto|apply R3; auto]|].
        split; auto.
        destruct R5 as [->|[oe' [Hin ->]]]; [left; auto|right; exists oe'; auto]. }
  destruct (Hgen pzero eq_refl) as [R1 [R2 [R3 [R4 R5]]]]. cbv zeta in *.
  split; [exact R1|split; [exact R3|exact R5]].
Qed.

Lemma setOf_aux_NoDup acc l : NoDup acc -> NoDup (setOf_aux acc l).
Proof.
  revert acc. induction l as [|x t IH]; intros acc Hacc; simpl.
  - apply NoDup_rev. exact Hacc.
  - destruct (existsb (String.eqb x) acc) eqn:E; apply IH; auto.
    constructor; auto. intros Hin.
    assert (existsb (String.eqb x) acc = true) by (apply existsb_exists; exists x; split; auto; apply String.eqb_refl).
    congruence.
Qed.

Lemma setOf_NoDup l : NoDup (setOf l).
Proof. apply setOf_aux_NoDup. constructor. Qed.

Lemma memb_In x l : existsb (String.eqb x) l = true <-> In x l.
Proof.
  rewrite existsb_exists. split.
  - intros [y [Hy E]]. apply String.eqb_eq in E. subst. auto.
  - intros Hx. exists x. split; auto. apply String.eqb_refl.
Qed.

Lemma inter_count_cons x A B : ~ In x A -> NoDup B ->
  List.length (filter (fun v => String.eqb v x || existsb (String.eqb v) A) B) =
  (List.length (filter (fun v => existsb (String.eqb v) A) B) + if existsb (String.eqb x) B then 1 else 0)%nat.
Proof.
  intros HxA HB. induction HB as [|y B Hy HB IH]; simpl; auto.
  destruct (String.eqb y x) eqn:Eyx; simpl.
  - apply String.eqb_eq in Eyx. subst y. rewrite String.eqb_refl. simpl.
    destruct (existsb (String.eqb x) A) eqn:Ea; [apply memb_In in Ea; contradiction|].
    destruct (existsb (String.eqb x) B) eqn:Eb; [apply memb_In in Eb; contradiction|].
    rewrite IH. lia.
  - assert (Exy : String.eqb x y = false) by (rewrite String.eqb_sym; auto).
    rewrite Exy. simpl.
    destruct (existsb (String.eqb y) A); simpl; rewrite IH; lia.
Qed.

Lemma inter_count_sym A B : NoDup A -> NoDup B ->
  List.length (filter (fun v => existsb (String.eqb v) B) A) =
  List.length (filter (fun v => existsb (String.eqb v) A) B).
Proof.
  intros HA. revert B. induction HA as [|x A Hx HA IH]; intros B HB; simpl.
  - clear HB. induction B; simpl; auto.
  - rewrite inter_count_cons by auto. rewrite <- IH by auto.
    destruct (existsb (String.eqb x) B); simpl; lia.
Qed.

(** [X12] [jaccard] is symmetric: [jaccard(a, b) = jaccard(b, a)] for all
    string arrays, duplicates and empty arrays included. *)
Theorem jaccard_sym a b : jaccard a b = jaccard b a.
Proof.
  destruct a as [|x a]; destruct b as [|y b]; try reflexivity.
  unfold jaccard.
  rewrite (inter_count_sym (setOf (x :: a)) (setOf (y :: b))) by apply setOf_NoDup.
  replace (Z.of_nat (List.length (setOf (x :: a))) + Z.of_nat (List.length (setOf (y :: b))))
    with (Z.of_nat (List.length (setOf (y :: b))) + Z.of_nat (List.length (setOf (x :: a)))) by lia.
  reflexivity.
Qed.

Lemma div2_spec (a : nat) : (2 * (a / 2) <= a <= 2 * (a / 2) + 1)%nat.
Proof.
  pose proof (Nat.div_mod a 2 ltac:(lia)). pose proof (Nat.mod_upper_bound a 2 ltac:(lia)). lia.
Qed.

Ltac div2_facts :=
  repeat match goal with
  | |- context [(?a / 2)%nat] =>
      lazymatch goal with
      | _ : (2 * (a / 2) <= a <= 2 * (a / 2) + 1)%nat |- _ => fail
      | _ => pose proof (div2_spec a)
      end
  | _ : context [(?a / 2)%nat] |- _ =>
      lazymatch goal with
      | _ : (2 * (a / 2) <= a <= 2 * (a / 2) + 1)%nat |- _ => fail
      | _ => pose proof (div2_spec a)
      end
  end.

(** Order facts for [heapLess] on NaN-free nodes. *)
Lemma nodeBetter_trichotomy a b :
  nodeBetter a b \/ nodeBetter b a \/
  (fkey (score a) = fkey (score b) /\ fkey (distance a) = fkey (distance b) /\
   fkey (popularity a) = fkey (popularity b) /\ id a = id b).
Proof.
  destruct (string_dec (id a) (id b)) as [Hid|Hid].
  - unfold nodeBetter.
    destruct (keylt_total (fkey (score a)) (fkey (score b))) as [Hs|[Hs|Hs]]; auto.
    destruct (keylt_total (fkey (distance a)) (fkey (distance b))) as [Hd|[Hd|Hd]];
      [left; right; split; [auto|left; auto]| |right; left; right; split; [congruence|left; auto]].
    destruct (keylt_total (fkey (popularity a)) (fkey (popularity b))) as [Hp|[Hp|Hp]];
      [right; left; right; split; [congruence|right; split; [congruence|left; auto]]| |
       left; right; split; [auto|right; split; [auto|left; auto]]].
    right; right; auto.
  - destruct (nodeBetter_total a b Hid); auto.
Qed.

Lemma nodeBetter_weak a b c : nodeBetter a c -> nodeBetter a b \/ nodeBetter b c.
Proof.
  intros Hac. destruct (nodeBetter_trichotomy a b) as [Hab|[Hba|[Es [Ed [Ep Ei]]]]]; auto.
  - right. eapply nodeBetter_trans; eauto.
  - right. unfold nodeBetter in *. rewrite <- Es, <- Ed, <- Ep, <- Ei. auto.
Qed.

Lemma heapLess_asym a b : heapLess a b = true -> heapLess b a = false.
Proof. rewrite !heapLess_betterThan. apply betterThan_asym. Qed.

Lemma heapLess_irrefl a : heapLess a a = false.
Proof.
  destruct (heapLess a a) eqn:E; auto. pose proof (heapLess_asym _ _ E). congruence.
Qed.

Lemma heapLess_trans a b c : nodeNumeric a = true -> nodeNumeric b = true -> nodeNumeric c = true ->
  heapLess a b = true -> heapLess b c = true -> heapLess a c = true.
Proof.
  intros Ha Hb Hc. rewrite !heapLess_betterThan.
  rewrite !betterThan_key by auto. intros H1 H2. eapply nodeBetter_trans; eauto.
Qed.

Lemma heapLess_weak a b c : nodeNumeric a = true -> nodeNumeric b = true -> nodeNumeric c = true ->
  heapLess a b = false -> heapLess b c = false -> heapLess a c = false.
Proof.
  intros Ha Hb Hc H1 H2. rewrite heapLess_betterThan in *.
  destruct (betterThan c a) eqn:E; auto.
  apply betterThan_key in E; auto.
  destruct (nodeBetter_weak c b a E) as [E'|E']; apply betterThan_key in E'; auto; congruence.
Qed.

Lemma nth_error_list_set_same {A : Type} (l : list A) i v :
  (i < List.length l)%nat -> nth_error (list_set l i v) i = Some v.
Proof.
  revert i; induction l as [|x l IH]; intros [|i] Hi; simpl in *; try lia; auto.
  apply IH. lia.
Qed.

Lemma nth_error_heapSwap h i j x y m :
  nth_error h i = Some x -> nth_error h j = Some y -> i <> j ->
  nth_error (heapSwap h i j) m =
  if Nat.eqb m i then Some y else if Nat.eqb m j then Some x else nth_error h m.
Proof.
  intros Hx Hy Hij. unfold heapSwap. rewrite Hx, Hy.
  assert (Hi : (i < List.length h)%nat) by (apply nth_error_Some; congruence).
  assert (Hj : (j < List.length h)%nat) by (apply nth_error_Some; congruence).
  destruct (Nat.eqb_spec m i) as [->|Hmi].
  - rewrite nth_error_list_set_other by auto. apply nth_error_list_set_same. auto.
  - destruct (Nat.eqb_spec m j) as [->|Hmj].
    + apply nth_error_list_set_same. rewrite list_set_length. auto.
    + rewrite !nth_error_list_set_other by auto. reflexivity.
Qed.

Lemma heap_root_min h r x :
  heapOrdered h -> Forall (fun n => nodeNumeric n = true) h ->
  nth_error h 0 = Some r -> In x h -> heapLess x r = false.
Proof.
  intros Ho Hn Hr Hx.
  assert (Hnum : forall k z, nth_error h k = Some z -> nodeNumeric z = true)
    by (intros k z Hk; eapply Forall_forall in Hn; [exact Hn|eapply nth_error_In; eauto]).
  apply In_nth_error in Hx as [c Hc].
  revert x Hc. induction c as [c IH] using (well_founded_induction lt_wf). intros x Hc.
  destruct c as [|c'].
  - rewrite Hr in Hc. injection Hc; intros <-. apply heapLess_irrefl.
  - set (q := ((S c' - 1) / 2)%nat).
    assert (Hq : (q < S c')%nat) by (unfold q; div2_facts; lia).
    destruct (nth_error h q) as [y|] eqn:Ey.
    2:{ apply nth_error_None in Ey. assert (S c' < List.length h)%nat by (apply nth_error_Some; congruence). lia. }
    apply (heapLess_weak x y r).
    + eauto.
    + eauto.
    + eauto.
    + apply (Ho (S c') x y); [lia|exact Hc|exact Ey].
    + apply (IH q Hq y Ey).
Qed.

Lemma Forall_nth_error {A : Type} (P : A -> Prop) l k z :
  Forall P l -> nth_error l k = Some z -> P z.
Proof. intros Hl Hk. eapply Forall_forall in Hl; [exact Hl|eapply nth_error_In; eauto]. Qed.

Lemma nth_error_lt {A : Type} (l : list A) k : (k < List.length l)%nat -> exists z, nth_error l k = Some z.
Proof. intros Hk. destruct (nth_error l k) eqn:E; eauto. apply nth_error_None in E. lia. Qed.

Lemma siftUpInv_swap h i x y :
  let p := ((i - 1) / 2)%nat in
  (0 < i)%nat -> Forall (fun n => nodeNumeric n = true) h ->
  nth_error h i = Some x -> nth_error h p = Some y -> heapLess x y = true ->
  siftUpInv h i -> siftUpInv (heapSwap h i p) p.
Proof.
  intros p Hi Hn Ex Ey Exy [S1 S2].
  assert (Hpi : (p < i)%nat) by (unfold p; div2_facts; lia).
  assert (Hip : i <> p) by lia.
  pose proof (nth_error_heapSwap h i p x y) as Sw.
  assert (Hnum : forall k z, nth_error h k = Some z -> nodeNumeric z = true)
    by (intros k z Hk; exact (Forall_nth_error _ h k z Hn Hk)).
  split.
  - intros c x' y' Hc Hcp Hx' Hy'.
    rewrite Sw in Hx', Hy' by auto.
    destruct (Nat.eqb_spec c i) as [->|Hci].
    + injection Hx'; intros <-. fold p in Hy'. rewrite Nat.eqb_refl in Hy'.
      destruct (Nat.eqb_spec p i); [lia|]. injection Hy'; intros <-.
      apply heapLess_asym; auto.
    + destruct (Nat.eqb_spec c p) as [->|_]; [congruence|].
      destruct (Nat.eqb_spec ((c - 1) / 2) i) as [Eq|Hqi].
      * injection Hy'; intros <-. eapply S2; eauto.
      * destruct (Nat.eqb_spec ((c - 1) / 2) p) as [Eq|Hqp].
        -- injection Hy'; intros <-.
           assert (Hsy : heapLess x' y = false) by (eapply S1; eauto; rewrite Eq; auto).
           destruct (heapLess x' x) eqn:E; auto.
           assert (heapLess x' y = true); [|congruence].
           exact (heapLess_trans x' x y (Hnum _ _ Hx') (Hnum _ _ Ex) (Hnum _ _ Ey) E Exy).
        -- eapply S1; eauto.
  - intros c x' z Hp Hc Hcp Hx' Hz.
    assert (Hgp : ((p - 1) / 2 < p)%nat) by (div2_facts; lia).
    rewrite Sw in Hx', Hz by auto.
    destruct (Nat.eqb_spec ((p - 1) / 2) i); [lia|].
    destruct (Nat.eqb_spec ((p - 1) / 2) p); [lia|].
    destruct (Nat.eqb_spec c i) as [->|Hci].
    + injection Hx'; intros <-. exact (S1 p y z Hp ltac:(lia) Ey Hz).
    + destruct (Nat.eqb_spec c p); [subst c; div2_facts; lia|].
      assert (Hcy : heapLess x' y = false) by (apply (S1 c x' y Hc Hci Hx'); rewrite Hcp; exact Ey).
      assert (Hyz : heapLess y z = false) by exact (S1 p y z Hp ltac:(lia) Ey Hz).
      exact (heapLess_weak x' y z (Hnum _ _ Hx') (Hnum _ _ Ey) (Hnum _ _ Hz) Hcy Hyz).
Qed.

Lemma heapSiftUp_ordered fuel h i :
  (i < fuel)%nat -> (i < List.length h)%nat -> Forall (fun n => nodeNumeric n = true) h ->
  siftUpInv h i -> heapOrdered (heapSiftUp fuel h i).
Proof.
  revert h i; induction fuel as [|f IH]; intros h i Hf Hi Hn Hs; [lia|].
  destruct i as [|i'].
  - cbn [heapSiftUp]. intros c x y Hc Hx Hy. eapply (proj1 Hs); eauto. lia.
  - cbn [heapSiftUp]. set (i := S i') in *.
    assert (Hpi : ((i - 1) / 2 < i)%nat) by (unfold i; div2_facts; lia).
    destruct (nth_error_lt h i Hi) as [x Ex].
    destruct (nth_error_lt h ((i - 1) / 2) ltac:(lia)) as [y Ey].
    unfold lessAt. rewrite Ex, Ey.
    destruct (heapLess x y) eqn:Exy; cbn [negb].
    + apply IH.
      * lia.
      * rewrite heapSwap_length. lia.
      * apply Forall_heapSwap. auto.
      * apply siftUpInv_swap with (x := x) (y := y); auto. unfold i; lia.
    + intros c x' y' Hc Hx' Hy'.
      destruct (Nat.eq_dec c i) as [->|Hci].
      * rewrite Ex in Hx'. rewrite Ey in Hy'. congruence.
      * eapply (proj1 Hs); eauto.
Qed.

Lemma heapPush_ordered h node :
  heapOrdered h -> Forall (fun n => nodeNumeric n = true) h -> nodeNumeric node = true ->
  heapOrdered (heapPush h node).
Proof.
  intros Ho Hn Hnode. unfold heapPush.
  rewrite length_app. simpl.
  apply heapSiftUp_ordered.
  - lia.
  - rewrite length_app. simpl. lia.
  - apply Forall_app. auto.
  - replace (List.length h + 1 - 1)%nat with (List.length h) by lia. split.
    + intros c x y Hc Hci Hx Hy.
      assert (Hcl : (c < List.length h)%nat).
      { assert (c < List.length (h ++ [node]))%nat by (apply nth_error_Some; congruence).
        rewrite length_app in *. simpl in *. lia. }
      rewrite nth_error_app1 in Hx by lia.
      rewrite nth_error_app1 in Hy by (div2_facts; lia).
      eapply Ho; eauto.
    + intros c x z _ Hc Hcp Hx _.
      assert (c < List.length (h ++ [node]))%nat by (apply nth_error_Some; congruence).
      rewrite length_app in H. cbn [List.length] in H. div2_facts. lia.
Qed.

Lemma siftDownInv_swap h i s o x y :
  (s = 2 * i + 1 /\ o = 2 * i + 2 \/ s = 2 * i + 2 /\ o = 2 * i + 1)%nat ->
  nth_error h i = Some x -> nth_error h s = Some y -> heapLess y x = true ->
  (forall z, nth_error h o = Some z -> heapLess z y = false) ->
  siftDownInv h i -> siftDownInv (heapSwap h i s) s.
Proof.
  intros Hso Ex Ey Eyx Ho [D1 D2].
  assert (His : i <> s) by lia.
  pose proof (nth_error_heapSwap h i s x y) as Sw.
  split.
  - intros c x' y' Hc Hcs Hx' Hy'.
    rewrite Sw in Hx', Hy' by auto.
    destruct (Nat.eqb_spec c i) as [->|Hci].
    + injection Hx'; intros <-.
      assert (Hg : ((i - 1) / 2 < i)%nat) by (div2_facts; lia).
      destruct (Nat.eqb_spec ((i - 1) / 2) i); [lia|].
      destruct (Nat.eqb_spec ((i - 1) / 2) s); [lia|].
      apply (D2 s y y' Hc ltac:(lia) ltac:(div2_facts; lia) Ey Hy').
    + destruct (Nat.eqb_spec c s) as [->|Hcs'].
      * assert (Eq : ((s - 1) / 2)%nat = i) by (div2_facts; lia).
        rewrite Eq, Nat.eqb_refl in Hy'. injection Hy'; intros <-. injection Hx'; intros <-.
        apply heapLess_asym. exact Eyx.
      * destruct (Nat.eqb_spec ((c - 1) / 2) i) as [Eq|Hqi].
        -- injection Hy'; intros <-.
           assert (c = o) by (div2_facts; lia). subst c. auto.
        -- destruct (Nat.eqb_spec ((c - 1) / 2) s) as [Eq|_]; [contradiction|].
           apply (D1 c x' y' Hc Hqi Hx' Hy').
  - intros c x' z Hs Hc Hcs Hx' Hz.
    assert (((s - 1) / 2)%nat = i) by (div2_facts; lia).
    assert (Hsc : (s < c)%nat) by (div2_facts; lia).
    rewrite Sw in Hx', Hz by auto.
    rewrite H, Nat.eqb_refl in Hz. injection Hz; intros <-.
    destruct (Nat.eqb_spec c i); [lia|]. destruct (Nat.eqb_spec c s); [lia|].
    apply (D1 c x' y Hc ltac:(lia) Hx'). rewrite Hcs. exact Ey.
Qed.

Lemma heapSiftDown_ordered fuel h i :
  (List.length h <= fuel + i)%nat -> (i < List.length h)%nat ->
  Forall (fun n => nodeNumeric n = true) h ->
  siftDownInv h i -> heapOrdered (heapSiftDown fuel h i).
Proof.
  revert h i; induction fuel as [|f IH]; intros h i Hf Hi Hn Hs; [lia|].
  assert (Hnum : forall k z, nth_error h k = Some z -> nodeNumeric z = true)
    by (intros k z Hk; exact (Forall_nth_error _ h k z Hn Hk)).
  cbn [heapSiftDown].
  remember (if Nat.ltb (2 * i + 1) (List.length h) && lessAt h (2 * i + 1) i then (2 * i + 1)%nat else i)
    as s1 eqn:Es1.
  remember (if Nat.ltb (2 * i + 2) (List.length h) && lessAt h (2 * i + 2) s1 then (2 * i + 2)%nat else s1)
    as s eqn:Es.
  destruct (nth_error_lt h i Hi) as [x Ex].
  destruct (Nat.eqb_spec s i) as [->|Hsi].
  - destruct (Nat.ltb (2 * i + 2) (List.length h) && lessAt h (2 * i + 2) s1) eqn:Cr; [lia|].
    subst s1.
    destruct (Nat.ltb (2 * i + 1) (List.length h) && lessAt h (2 * i + 1) i) eqn:Cl; [lia|].
    intros c x' y' Hc Hx' Hy'.
    destruct (Nat.eq_dec ((c - 1) / 2) i) as [Eq|Hq]; [|exact (proj1 Hs c x' y' Hc Hq Hx' Hy')].
    assert (Hcn : (c < List.length h)%nat) by (apply nth_error_Some; congruence).
    rewrite Eq in Hy'.
    assert (Hlc : lessAt h c i = false).
    { assert (c = 2 * i + 1 \/ c = 2 * i + 2)%nat as [->| ->] by (div2_facts; lia).
      - apply andb_false_iff in Cl as [Cl|Cl]; auto. apply Nat.ltb_ge in Cl. lia.
      - apply andb_false_iff in Cr as [Cr|Cr]; auto. apply Nat.ltb_ge in Cr. lia. }
    unfold lessAt in Hlc. rewrite Hx', Hy' in Hlc. exact Hlc.
  - assert (Hchoice : exists o y, (s = 2 * i + 1 /\ o = 2 * i + 2 \/ s = 2 * i + 2 /\ o = 2 * i + 1)%nat /\
              nth_error h s = Some y /\ heapLess y x = true /\
              (forall z, nth_error h o = Some z -> heapLess z y = false)).
    { destruct (Nat.ltb (2 * i + 2) (List.length h) && lessAt h (2 * i + 2) s1) eqn:Cr;
        destruct (Nat.ltb (2 * i + 1) (List.length h) && lessAt h (2 * i + 1) i) eqn:Cl;
        subst s1 s; try lia.
      - apply andb_true_iff in Cr as [Cr1 Cr2]. apply andb_true_iff in Cl as [Cl1 Cl2].
        apply Nat.ltb_lt in Cr1. apply Nat.ltb_lt in Cl1.
        destruct (nth_error_lt h _ Cr1) as [yr Er]. destruct (nth_error_lt h _ Cl1) as [yl El].
        unfold lessAt in Cr2, Cl2. rewrite Er, El in Cr2. rewrite El, Ex in Cl2.
        exists (2 * i + 1)%nat, yr. split; [right; auto|]. split; auto. split.
        + exact (heapLess_trans yr yl x (Hnum _ _ Er) (Hnum _ _ El) (Hnum _ _ Ex) Cr2 Cl2).
        + intros z Ez. rewrite El in Ez. injection Ez; intros <-. apply heapLess_asym. auto.
      - apply andb_true_iff in Cr as [Cr1 Cr2]. apply Nat.ltb_lt in Cr1.
        destruct (nth_error_lt h _ Cr1) as [yr Er].
        unfold lessAt in Cr2. rewrite Er, Ex in Cr2.
        exists (2 * i + 1)%nat, yr. split; [right; auto|]. split; auto. split; auto.
        intros z Ez. apply andb_false_iff in Cl as [Cl|Cl].
        + apply Nat.ltb_ge in Cl. assert (2 * i + 1 < List.length h)%nat by (apply nth_error_Some; congruence). lia.
        + unfold lessAt in Cl. rewrite Ez, Ex in Cl.
          destruct (heapLess z yr) eqn:Ezy; auto.
          pose proof (heapLess_trans z yr x (Hnum _ _ Ez) (Hnum _ _ Er) (Hnum _ _ Ex) Ezy Cr2). congruence.
      - apply andb_true_iff in Cl as [Cl1 Cl2]. apply Nat.ltb_lt in Cl1.
        destruct (nth_error_lt h _ Cl1) as [yl El].
        unfold lessAt in Cl2. rewrite El, Ex in Cl2.
        exists (2 * i + 2)%nat, yl. split; [left; auto|]. split; auto. split; auto.
        intros z Ez. apply andb_false_iff in Cr as [Cr|Cr].
        + apply Nat.ltb_ge in Cr. assert (2 * i + 2 < List.length h)%nat by (apply nth_error_Some; congruence). lia.
        + unfold lessAt in Cr. rewrite Ez, El in Cr. exact Cr. }
    destruct Hchoice as [o [y [Hso [Ey [Eyx Ho]]]]].
    assert (Hsn : (s < List.length h)%nat) by (apply nth_error_Some; congruence).
    destruct (Nat.eqb_spec s i); [contradiction|].
    apply IH.
    + rewrite heapSwap_length. lia.
    + rewrite heapSwap_length. lia.
    + apply Forall_heapSwap. auto.
    + exact (siftDownInv_swap h i s o x y Hso Ex Ey Eyx Ho Hs).
Qed.

Lemma heapReplaceRoot_ordered root t node :
  heapOrdered (root :: t) -> Forall (fun n => nodeNumeric n = true) (root :: t) -> nodeNumeric node = true ->
  heapOrdered (heapReplaceRoot (root :: t) node).
Proof.
  intros Ho Hn Hnode. unfold heapReplaceRoot.
  apply heapSiftDown_ordered.
  - lia.
  - rewrite list_set_length. simpl. lia.
  - apply Forall_list_set; auto.
  - split.
    + intros c x y Hc Hq Hx Hy.
      rewrite nth_error_list_set_other in Hx, Hy by lia.
      exact (Ho c x y Hc Hx Hy).
    + intros. lia.
Qed.

Lemma Forall_perm_iff {A : Type} (P : A -> Prop) l l' : Permutation l l' -> Forall P l -> Forall P l'.
Proof.
  intros Hp Hl. apply Forall_forall. intros x Hx.
  eapply Forall_forall; [exact Hl|]. apply Permutation_in with l'; auto. apply Permutation_sym; auto.
Qed.

Lemma heapOrdered_nil : heapOrdered [].
Proof. intros c x y _ Hx _. destruct c; discriminate. Qed.

(** One step of the scan keeps the kept nodes above every dropped one. *)
Lemma scanStep_topk k heap D node :
  heapOrdered heap -> Forall (fun n => nodeNumeric n = true) (heap ++ D ++ node) ->
  (D = [] \/ (k <= List.length heap)%nat) ->
  (forall d m, In d D -> In m heap -> heapLess m d = false) ->
  (node = [] \/ exists n, node = [n]) ->
  exists D', Permutation (heap ++ D ++ node)
               (scanStep k heap (hd_error node) ++ D') /\
             heapOrdered (scanStep k heap (hd_error node)) /\
             (D' = [] \/ (k <= List.length (scanStep k heap (hd_error node)))%nat) /\
             (forall d m, In d D' -> In m (scanStep k heap (hd_error node)) -> heapLess m d = false).
Proof.
  intros Ho Hn Hk Hdm [->|[n ->]].
  - exists D. simpl. rewrite app_nil_r. auto.
  - assert (Hnum : forall z, In z (heap ++ D ++ [n]) -> nodeNumeric z = true)
      by (intros z Hz; eapply Forall_forall in Hn; eauto).
    assert (Hnn : nodeNumeric n = true) by (apply Hnum; rewrite !in_app_iff; simpl; auto).
    assert (Hhn : Forall (fun z => nodeNumeric z = true) heap)
      by (apply Forall_forall; intros z Hz; apply Hnum; rewrite in_app_iff; auto).
    simpl. case_if.
    + apply Nat.ltb_lt in E. destruct Hk as [->|Hk]; [|lia].
      exists []. split; [|split; [|split]].
      * rewrite !app_nil_r. simpl. eapply perm_trans; [|apply Permutation_sym, heapPush_perm].
        apply Permutation_sym, Permutation_cons_append.
      * apply heapPush_ordered; auto.
      * left; auto.
      * intros d m [].
    + apply Nat.ltb_ge in E. destruct heap as [|root t].
      * exists (n :: D). split; [|split; [|split]].
        -- simpl. apply Permutation_sym, Permutation_cons_append.
        -- apply heapOrdered_nil.
        -- right. auto.
        -- intros d m _ [].
      * assert (Hmin : forall m, In m (root :: t) -> heapLess m root = false)
          by (intros m Hm; apply (heap_root_min (root :: t)); auto).
        assert (Hroot : nodeNumeric root = true) by (apply Hnum; simpl; auto).
        assert (HD : forall d, In d D -> nodeNumeric d = true)
          by (intros d Hd; apply Hnum; rewrite in_app_iff, in_app_iff; auto).
        case_if.
        -- exists (root :: D). split; [|split; [|split]].
           ++ eapply perm_trans; [|apply Permutation_app_tail, Permutation_sym, heapReplaceRoot_perm].
              simpl. eapply perm_trans; [apply perm_skip, Permutation_sym|].
              { rewrite app_assoc. apply Permutation_cons_append. }
              eapply perm_trans; [apply perm_swap|]. apply perm_skip.
              eapply perm_trans; [|apply Permutation_middle]. apply perm_skip. auto.
           ++ apply heapReplaceRoot_ordered; auto.
           ++ right. rewrite heapReplaceRoot_length. auto.
           ++ intros d m Hd Hm.
              apply Permutation_in with (l' := n :: t) in Hm; [|apply heapReplaceRoot_perm].
              assert (Hrn : heapLess root n = true) by (rewrite heapLess_betterThan; auto).
              destruct Hd as [<-|Hd], Hm as [<-|Hm].
              ** apply heapLess_asym. auto.
              ** apply Hmin. simpl; auto.
              ** destruct (heapLess n d) eqn:End; auto.
                 pose proof (heapLess_trans root n d Hroot Hnn (HD d Hd) Hrn End).
                 rewrite (Hdm d root Hd ltac:(simpl; auto)) in H. discriminate.
              ** apply Hdm; simpl; auto.
        -- exists (n :: D). split; [|split; [|split]].
           ++ apply Permutation_app_head. apply Permutation_sym, Permutation_cons_append.
           ++ auto.
           ++ right. auto.
           ++ intros d m [<-|Hd] Hm; [|apply Hdm; auto].
              assert (Hm' : nodeNumeric m = true) by (apply Hnum; rewrite in_app_iff; auto).
              apply (heapLess_weak m root n Hm' Hroot Hnn (Hmin m Hm)).
              rewrite heapLess_betterThan. auto.
Qed.

Lemma topKScan_topk H cfg user Pr k events :
  Forall (fun n => nodeNumeric n = true) (scoredNodes H cfg user Pr events) ->
  exists dropped,
    Permutation (scoredNodes H cfg user Pr events) (topKScan H cfg user Pr k events ++ dropped) /\
    forall d m, In d dropped -> In m (topKScan H cfg user Pr k events) -> betterThan d m = false.
Proof.
  unfold topKScan.
  assert (Hgen : forall evs heap D,
    heapOrdered heap -> Forall (fun n => nodeNumeric n = true) (heap ++ D ++ scoredNodes H cfg user Pr evs) ->
    (D = [] \/ (k <= List.length heap)%nat) ->
    (forall d m, In d D -> In m heap -> heapLess m d = false) ->
    exists D', Permutation (heap ++ D ++ scoredNodes H cfg user Pr evs)
                 (fold_left (fun heap oev => scanStep k heap (scoreEvent H cfg user Pr oev)) evs heap ++ D') /\
               (forall d m, In d D' ->
                  In m (fold_left (fun heap oev => scanStep k heap (scoreEvent H cfg user Pr oev)) evs heap) ->
                  heapLess m d = false)).
  { induction evs as [|oev evs IH]; intros heap D Ho Hn Hk Hdm.
    - exists D. simpl. rewrite app_nil_r. auto.
    - simpl. unfold scoredNodes in *. simpl in Hn |- *.
      set (nl := match scoreEvent H cfg user Pr oev with Some n => [n] | None => [] end) in *.
      assert (Hsn : scoreEvent H cfg user Pr oev = hd_error nl)
        by (unfold nl; destruct (scoreEvent H cfg user Pr oev); reflexivity).
      rewrite Hsn.
      assert (Hn1 : Forall (fun n => nodeNumeric n = true) (heap ++ D ++ nl)).
      { apply Forall_forall. intros z Hz. apply (proj1 (Forall_forall _ _) Hn z).
        rewrite !in_app_iff in *. tauto. }
      destruct (scanStep_topk k heap D nl Ho Hn1 Hk Hdm) as [D1 [Hp1 [Ho1 [Hk1 Hdm1]]]].
      { unfold nl. destruct (scoreEvent H cfg user Pr oev); eauto. }
      set (heap1 := scanStep k heap (hd_error nl)) in *.
      assert (Hpre : Permutation (heap ++ D ++ nl ++ flat_map (fun oev =>
                        match scoreEvent H cfg user Pr oev with Some n => [n] | None => [] end) evs)
                       (heap1 ++ D1 ++ flat_map (fun oev =>
                        match scoreEvent H cfg user Pr oev with Some n => [n] | None => [] end) evs)).
      { rewrite (app_assoc D), (app_assoc heap), (app_assoc heap1). apply Permutation_app_tail. auto. }
      destruct (IH heap1 D1 Ho1) as [D' [Hp' Hdm']]; auto.
      { eapply Forall_perm_iff; [exact Hpre|exact Hn]. }
      exists D'. split; auto. eapply perm_trans; [exact Hpre|exact Hp']. }
  intros Hn. destruct (Hgen events [] [] heapOrdered_nil Hn (or_introl eq_refl)) as [D' [Hp Hdm]].
  { intros d m []. }
  exists D'. split; [exact Hp|]. intros d m Hd Hm. rewrite <- heapLess_betterThan. auto.
Qed.

(** [X13] When no scored candidate has a NaN score, distance or popularity,
    the events [getRecommendedEvents] returns are those of a part [kept] of
    the scored candidates such that no candidate left out is [betterThan] a
    kept one: the bounded heap scan drops no candidate better than one it keeps. *)
Theorem getRecommendedEvents_top_k H cfg user events eventSimilarity limit out :
  Forall (fun n => nodeNumeric n = true)
    (scoredNodes H cfg user (prepare cfg user events eventSimilarity) events) ->
  getRecommendedEvents H cfg user events eventSimilarity limit = Some out ->
  exists kept dropped,
    Permutation (scoredNodes H cfg user (prepare cfg user events eventSimilarity) events)
                (kept ++ dropped) /\
    Permutation out (map event kept) /\
    (forall d m, In d dropped -> In m kept -> betterThan d m = false).
Proof.
  intros Hn Hg. unfold getRecommendedEvents in Hg.
  set (Pr := prepare cfg user events eventSimilarity) in *.
  set (sc := scoredNodes H cfg user Pr events).
  assert (Hnone : out = [] -> exists kept dropped, Permutation sc (kept ++ dropped) /\
            Permutation out (map event kept) /\
            (forall d m, In d dropped -> In m kept -> betterThan d m = false)).
  { intros ->. exists [], sc. split; [apply Permutation_refl|]. split; [constructor|]. intros d m _ []. }
  destruct (_ || _); [injection Hg; auto|].
  destruct (_ =? 0); [injection Hg; auto|].
  set (k := Z.to_nat _) in Hg.
  destruct (topKScan_topk H cfg user Pr k events Hn) as [dropped [Hp Hdm]].
  destruct (topKScan H cfg user Pr k events) as [|n0 t] eqn:Eh; [injection Hg; auto|].
  exists (n0 :: t), dropped. split; [exact Hp|]. split; [|exact Hdm].
  exact (finish_perm _ _ _ _ Hg).
Qed.

Lemma getRecommendedEvents_top_k_witness :
  Forall (fun n => nodeNumeric n = true)
    (scoredNodes refHost CONFIG musicUser
       (prepare CONFIG musicUser [Some evOnePop; Some evHalfPop; Some evNoPop] noSimilarity)
       [Some evOnePop; Some evHalfPop; Some evNoPop]) /\
  List.length (scoredNodes refHost CONFIG musicUser
       (prepare CONFIG musicUser [Some evOnePop; Some evHalfPop; Some evNoPop] noSimilarity)
       [Some evOnePop; Some evHalfPop; Some evNoPop]) = 2%nat /\
  getRecommendedEvents refHost CONFIG musicUser [Some evOnePop; Some evHalfPop; Some evNoPop]
    noSimilarity (Some one) = Some [evOnePop] /\
  exists kept dropped,
    Permutation (scoredNodes refHost CONFIG musicUser
       (prepare CONFIG musicUser [Some evOnePop; Some evHalfPop; Some evNoPop] noSimilarity)
       [Some evOnePop; Some evHalfPop; Some evNoPop]) (kept ++ dropped) /\
    Permutation [evOnePop] (map event kept) /\
    (forall d m, In d dropped -> In m kept -> betterThan d m = false).
Proof.
  split; [vm_compute; repeat constructor|]. split; [vm_compute; reflexivity|].
  split; [vm_compute; reflexivity|].
  apply (getRecommendedEvents_top_k refHost CONFIG musicUser
           [Some evOnePop; Some evHalfPop; Some evNoPop] noSimilarity (Some one)).
  - vm_compute. repeat constructor.
  - vm_compute. reflexivity.
Defined.

Lemma heapOrdered_two a b : heapLess b a = false -> heapOrdered [a; b].
Proof.
  intros Hba c x y Hc Hx Hy.
  destruct c as [|[|c]]; [lia| |destruct c; discriminate].
  simpl in Hx, Hy. injection Hx; intros <-. injection Hy; intros <-. exact Hba.
Qed.

(** [X1] On nodes whose score, distance and popularity are not NaN,
    [betterThan] is irreflexive, asymmetric, transitive and negatively
    transitive (a strict weak order), it ranks one of any two nodes with
    different ids above the other, and [heapLess] is its converse. *)
Theorem betterThan_strict_weak_order a b c :
  nodeNumeric a = true -> nodeNumeric b = true -> nodeNumeric c = true ->
  betterThan a a = false /\
  (betterThan a b = true -> betterThan b a = false) /\
  (betterThan a b = true -> betterThan b c = true -> betterThan a c = true) /\
  (betterThan a c = true -> betterThan a b = true \/ betterThan b c = true) /\
  (id a <> id b -> betterThan a b = true \/ betterThan b a = true) /\
  heapLess a b = betterThan b a.
Proof.
  intros Ha Hb Hc. split; [|split; [|split; [|split; [|split]]]].
  - rewrite <- heapLess_betterThan. apply heapLess_irrefl.
  - apply betterThan_asym.
  - rewrite !betterThan_key by auto. apply nodeBetter_trans.
  - rewrite !betterThan_key by auto. apply nodeBetter_weak.
  - intros Hid. rewrite !betterThan_key by auto. apply nodeBetter_total. auto.
  - apply heapLess_betterThan.
Qed.

Lemma betterThan_strict_weak_order_witness :
  nodeNumeric nodeA = true /\ nodeNumeric nodeB = true /\ nodeNumeric nodeC = true /\
  betterThan nodeA nodeA = false /\
  (betterThan nodeA nodeB = true -> betterThan nodeB nodeA = false) /\
  (betterThan nodeA nodeB = true -> betterThan nodeB nodeC = true -> betterThan nodeA nodeC = true) /\
  (betterThan nodeA nodeC = true -> betterThan nodeA nodeB = true \/ betterThan nodeB nodeC = true) /\
  (id nodeA <> id nodeB -> betterThan nodeA nodeB = true \/ betterThan nodeB nodeA = true) /\
  heapLess nodeA nodeB = betterThan nodeB nodeA.
Proof.
  split; [vm_compute; reflexivity|]. split; [vm_compute; reflexivity|].
  split; [vm_compute; reflexivity|].
  apply (betterThan_strict_weak_order nodeA nodeB nodeC); vm_compute; reflexivity.
Defined.

(** [X2] [heapPush] and [heapReplaceRoot] only move nodes: pushing gives a
    permutation of the heap with the new node added, replacing the root gives
    a permutation of the heap with the root swapped for the new node. *)
Theorem heap_operations_permute h node root t :
  Permutation (heapPush h node) (node :: h) /\
  Permutation (heapReplaceRoot (root :: t) node) (node :: t).
Proof. split; [apply heapPush_perm|apply heapReplaceRoot_perm]. Qed.

(** [X3] On NaN-free nodes, [heapPush] and [heapReplaceRoot] keep the heap
    order (no node is [heapLess] than its parent), and the root of an ordered
    heap is [betterThan] no node of the heap. *)
Theorem heap_operations_keep_order h node :
  Forall (fun n => nodeNumeric n = true) h -> nodeNumeric node = true -> heapOrdered h ->
  heapOrdered (heapPush h node) /\
  forall root t, h = root :: t ->
    heapOrdered (heapReplaceRoot h node) /\ (forall x, In x h -> betterThan root x = false).
Proof.
  intros Hn Hnode Ho. split; [apply heapPush_ordered; auto|].
  intros root t ->. split; [apply heapReplaceRoot_ordered; auto|].
  intros x Hx. rewrite <- heapLess_betterThan. apply (heap_root_min (root :: t)); auto.
Qed.

Lemma heap_operations_keep_order_witness :
  Forall (fun n => nodeNumeric n = true) [nodeC; nodeA] /\ nodeNumeric nodeB = true /\
  heapOrdered [nodeC; nodeA] /\
  heapOrdered (heapPush [nodeC; nodeA] nodeB) /\
  forall root t, [nodeC; nodeA] = root :: t ->
    heapOrdered (heapReplaceRoot [nodeC; nodeA] nodeB) /\
    (forall x, In x [nodeC; nodeA] -> betterThan root x = false).
Proof.
  assert (Hn : Forall (fun n => nodeNumeric n = true) [nodeC; nodeA])
    by (repeat constructor).
  assert (Ho : heapOrdered [nodeC; nodeA]) by (apply heapOrdered_two; vm_compute; reflexivity).
  split; [exact Hn|]. split; [vm_compute; reflexivity|]. split; [exact Ho|].
  apply (heap_operations_keep_order [nodeC; nodeA] nodeB Hn); [vm_compute; reflexivity|exact Ho].
Defined.

(** [X4] Whenever [rerankWithCategoryDiversity] returns (does not throw),
    its result is a permutation of its input nodes. *)
Theorem rerankWithCategoryDiversity_permutation nodes alpha perCategoryCap res :
  rerankWithCategoryDiversity nodes alpha perCategoryCap = Some res -> Permutation res nodes.
Proof. apply rerankWithCategoryDiversity_perm. Qed.

Lemma rerankWithCategoryDiversity_permutation_witness :
  rerankWithCategoryDiversity [nodeA; nodeB; nodeC] (diversity_alpha CONFIG)
    (diversity_perCategoryCap CONFIG) = Some [nodeA; nodeC; nodeB] /\
  Permutation [nodeA; nodeC; nodeB] [nodeA; nodeB; nodeC].
Proof.
  split; [vm_compute; reflexivity|].
  apply (rerankWithCategoryDiversity_permutation [nodeA; nodeB; nodeC] (diversity_alpha CONFIG)
           (diversity_perCategoryCap CONFIG)).
  vm_compute; reflexivity.
Defined.

(** [X5] Every list [getRecommendedEvents] returns is, up to order, a
    sub-multiset of the eligible events (those the scoring loop does not
    skip): no event is returned more often than it is eligible, so when the
    eligible events are pairwise distinct the output has no duplicates. *)
Theorem getRecommendedEvents_eligible_submultiset H cfg user events eventSimilarity limit out :
  getRecommendedEvents H cfg user events eventSimilarity limit = Some out ->
  (exists sel, Sublist sel (filter (eligibleCandidate H cfg user) events) /\
               Permutation (map Some out) sel) /\
  (NoDup (filter (eligibleCandidate H cfg user) events) -> NoDup out).
Proof.
  intros Hg. destruct (getRecommendedEvents_sub _ _ _ _ _ _ _ Hg) as [sel [Hs Hp]].
  split; [eauto|]. intros Hnd.
  assert (Hm : NoDup (map Some out)).
  { apply Permutation_NoDup with sel; [apply Permutation_sym; auto|]. eapply Sublist_NoDup; eauto. }
  apply (NoDup_map_inv Some). exact Hm.
Qed.

Lemma getRecommendedEvents_eligible_submultiset_witness :
  getRecommendedEvents refHost CONFIG musicUser [Some evOnePop; Some evHalfPop; Some evNoPop]
    noSimilarity (Some two) = Some [evOnePop; evNoPop] /\
  (exists sel, Sublist sel (filter (eligibleCandidate refHost CONFIG musicUser)
                                   [Some evOnePop; Some evHalfPop; Some evNoPop]) /\
               Permutation (map Some [evOnePop; evNoPop]) sel) /\
  (NoDup (filter (eligibleCandidate refHost CONFIG musicUser)
                 [Some evOnePop; Some evHalfPop; Some evNoPop]) -> NoDup [evOnePop; evNoPop]).
Proof.
  split; [vm_compute; reflexivity|].
  apply (getRecommendedEvents_eligible_submultiset refHost CONFIG musicUser
           [Some evOnePop; Some evHalfPop; Some evNoPop] noSimilarity (Some two)).
  vm_compute; reflexivity.
Defined.

(** [X6] When the limit is an integer at least the number of events (and
    below [2^31]), [getRecommendedEvents] returns every eligible event
    exactly once, in some order. *)
Theorem getRecommendedEvents_returns_all_eligible H cfg user events eventSimilarity limit n out :
  limitValue limit = Some n -> Z.of_nat (List.length events) <= n < 2 ^ 31 ->
  getRecommendedEvents H cfg user events eventSimilarity limit = Some out ->
  Permutation (map Some out) (filter (eligibleCandidate H cfg user) events).
Proof. apply getRecommendedEvents_all_eligible. Qed.

Lemma getRecommendedEvents_returns_all_eligible_witness :
  limitValue (Some (of_Z 5)) = Some 5 /\
  Z.of_nat (List.length [Some evOnePop; Some evHalfPop; Some evNoPop]) <= 5 < 2 ^ 31 /\
  getRecommendedEvents refHost CONFIG musicUser [Some evOnePop; Some evHalfPop; Some evNoPop]
    noSimilarity (Some (of_Z 5)) = Some [evOnePop; evNoPop] /\
  Permutation (map Some [evOnePop; evNoPop])
    (filter (eligibleCandidate refHost CONFIG musicUser) [Some evOnePop; Some evHalfPop; Some evNoPop]).
Proof.
  split; [vm_compute; reflexivity|]. split; [simpl; lia|]. split; [vm_compute; reflexivity|].
  apply (getRecommendedEvents_returns_all_eligible refHost CONFIG musicUser
           [Some evOnePop; Some evHalfPop; Some evNoPop] noSimilarity (Some (of_Z 5)) 5).
  - vm_compute; reflexivity.
  - simpl; lia.
  - vm_compute; reflexivity.
Defined.

(** [X7] [getRecommendedEvents] returns the empty list, for every host,
    configuration, user and similarity index, when there are no events or
    when the limit (default [5]) coerced by [limit | 0] is not positive. *)
Theorem getRecommendedEvents_empty_result H cfg user events eventSimilarity limit :
  events = [] \/ toInt32 (match limit with Some l => l | None => of_Z 5 end) <= 0 ->
  getRecommendedEvents H cfg user events eventSimilarity limit = Some [].
Proof. apply getRecommendedEvents_empty. Qed.

Lemma getRecommendedEvents_empty_result_witness :
  ([Some evOnePop] = [] \/ toInt32 (match Some (js_div one two) with Some l => l | None => of_Z 5 end) <= 0) /\
  getRecommendedEvents refHost CONFIG musicUser [Some evOnePop] noSimilarity (Some (js_div one two))
    = Some [].
Proof.
  assert (Hc : [Some evOnePop] = [] \/
               toInt32 (match Some (js_div one two) with Some l => l | None => of_Z 5 end) <= 0)
    by (right; vm_compute; discriminate).
  split; [exact Hc|].
  exact (getRecommendedEvents_empty_result refHost CONFIG musicUser [Some evOnePop] noSimilarity
           (Some (js_div one two)) Hc).
Defined.

(** [X9] The categories [buildCategoryPopularityMap] has an entry for are
    exactly the categories listed by some event of the input. *)
Theorem buildCategoryPopularityMap_keys events c :
  buildCategoryPopularityMap events c <> None <->
  exists e, In (Some e) events /\ In c (ev_categories e).
Proof. apply buildCategoryPopularityMap_spec. Qed.

(** [X10] When no event has a NaN popularity, every sum in
    [buildCategoryPopularityMap] is at least [+0] (so neither negative nor NaN). *)
Theorem buildCategoryPopularityMap_nonneg events c v :
  (forall e x, In (Some e) events -> ev_popularity e = Some x -> is_nan x = false) ->
  buildCategoryPopularityMap events c = Some v -> js_le pzero v = true.
Proof. intros Hn. apply (proj2 (buildCategoryPopularityMap_spec events c) Hn). Qed.

Lemma buildCategoryPopularityMap_nonneg_witness :
  (forall e x, In (Some e) [Some evOnePop; Some evHalfPop; Some evNoPop] ->
               ev_popularity e = Some x -> is_nan x = false) /\
  buildCategoryPopularityMap [Some evOnePop; Some evHalfPop; Some evNoPop] "music"%string = Some one /\
  js_le pzero one = true.
Proof.
  assert (Hn : forall e x, In (Some e) [Some evOnePop; Some evHalfPop; Some evNoPop] ->
                           ev_popularity e = Some x -> is_nan x = false).
  { intros e x He Hx. simpl in He.
    destruct He as [He|[He|[He|[]]]]; injection He; intros <-; vm_compute in Hx; try discriminate;
      injection Hx; intros <-; reflexivity. }
  assert (Hm : buildCategoryPopularityMap [Some evOnePop; Some evHalfPop; Some evNoPop] "music"%string
               = Some one) by (vm_compute; reflexivity).
  split; [exact Hn|]. split; [exact Hm|].
  exact (buildCategoryPopularityMap_nonneg _ _ _ Hn Hm).
Defined.

(** ** Rounded division and the proximity score *)

Lemma pow2_pos e : (0 < pow2 e)%R.
Proof. apply powerRZ_lt. lra. Qed.

Lemma pow2_add a b : pow2 (a + b) = (pow2 a * pow2 b)%R.
Proof. unfold pow2. apply powerRZ_add. lra. Qed.

Lemma pow2_IZR n : 0 <= n -> pow2 n = IZR (2 ^ n).
Proof.
  intros Hn. destruct n as [|p|p]; [reflexivity| |lia].
  unfold pow2. rewrite IZR_pow2_pos. reflexivity.
Qed.

Lemma pow2_1 : pow2 1 = 2%R.
Proof. unfold pow2. simpl. ring. Qed.

Lemma pow2_le a b : a <= b -> (pow2 a <= pow2 b)%R.
Proof.
  intros Hab. replace b with (a + (b - a)) by lia. rewrite pow2_add, (pow2_IZR (b - a)) by lia.
  pose proof (pow2_pos a).
  assert (1 <= IZR (2 ^ (b - a)))%R.
  { apply IZR_le. pose proof (Z.pow_pos_nonneg 2 (b - a)). lia. }
  nra.
Qed.

Lemma pow2_lt a b : a < b -> (pow2 a < pow2 b)%R.
Proof.
  intros Hab. replace b with ((a + 1) + (b - a - 1)) by lia.
  rewrite !pow2_add, pow2_1. pose proof (pow2_pos a). pose proof (pow2_le 0 (b - a - 1) ltac:(lia)).
  replace (pow2 0) with 1%R in * by reflexivity. nra.
Qed.

Lemma pow2_lt_inv a b : (pow2 a < pow2 b)%R -> a < b.
Proof.
  intros H. destruct (Z_lt_le_dec a b) as [|Hba]; [assumption|].
  pose proof (pow2_le _ _ Hba). lra.
Qed.

Lemma pow2_le_inv a b : (pow2 a <= pow2 b)%R -> a <= b.
Proof.
  intros H. destruct (Z_le_gt_dec a b) as [|Hba]; [assumption|].
  pose proof (pow2_lt b a ltac:(lia)). lra.
Qed.

Lemma digits2_pos_spec p :
  2 ^ (Z.pos (digits2_pos p) - 1) <= Z.pos p < 2 ^ Z.pos (digits2_pos p).
Proof.
  induction p as [p IH|p IH|]; cbn [digits2_pos].
  - rewrite Pos2Z.inj_succ. set (d := Z.pos (digits2_pos p)) in *.
    assert (Hd : 1 <= d) by (unfold d; lia).
    replace (Z.succ d - 1) with d by lia.
    rewrite Z.pow_succ_r by lia.
    assert (2 ^ d = 2 * 2 ^ (d - 1)) by (rewrite <- Z.pow_succ_r by lia; f_equal; lia).
    rewrite (Pos2Z.inj_xI p). lia.
  - rewrite Pos2Z.inj_succ. set (d := Z.pos (digits2_pos p)) in *.
    assert (Hd : 1 <= d) by (unfold d; lia).
    replace (Z.succ d - 1) with d by lia.
    rewrite Z.pow_succ_r by lia.
    assert (2 ^ d = 2 * 2 ^ (d - 1)) by (rewrite <- Z.pow_succ_r by lia; f_equal; lia).
    rewrite (Pos2Z.inj_xO p). lia.
  - simpl. lia.
Qed.

Lemma digits2_unique p n :
  2 ^ (n - 1) <= Z.pos p < 2 ^ n -> Z.pos (digits2_pos p) = n.
Proof.
  intros Hn. pose proof (digits2_pos_spec p) as Hd.
  set (d := Z.pos (digits2_pos p)) in *.
  assert (1 <= n).
  { destruct (Z_le_gt_dec 1 n) as [|Hn1]; [assumption|].
    assert (2 ^ n <= 1).
    { destruct (Z_le_gt_dec 0 n). - replace n with 0 by lia. reflexivity.
      - rewrite Z.pow_neg_r by lia. lia. }
    lia. }
  assert (1 <= d) by (unfold d; lia).
  destruct (Z.lt_trichotomy d n) as [Hlt|[Heq|Hgt]]; [|exact Heq|].
  - pose proof (Z.pow_le_mono_r 2 d (n - 1) ltac:(lia) ltac:(lia)). lia.
  - pose proof (Z.pow_le_mono_r 2 n (d - 1) ltac:(lia) ltac:(lia)). lia.
Qed.

Lemma inb_bounds m l t : inb m l t -> (IZR m <= t < IZR m + 1)%R.
Proof. destruct l as [|c]; simpl; intros H; [subst; lra | lra]. Qed.

Lemma shr_1_inb mrs t :
  0 <= shr_m mrs -> inb (shr_m mrs) (loc_of_shr_record mrs) t ->
  0 <= shr_m (shr_1 mrs) /\ inb (shr_m (shr_1 mrs)) (loc_of_shr_record (shr_1 mrs)) (t / 2).
Proof.
  destruct mrs as [m r s]. cbn [shr_m]. intros Hm.
  destruct m as [|[p|p|]|p]; [| | | |lia]; destruct r, s; cbn [shr_1 orb shr_m loc_of_shr_record inb];
    try rewrite (Pos2Z.inj_xI p); try rewrite (Pos2Z.inj_xO p);
    try rewrite plus_IZR; try rewrite mult_IZR; intros H; split; try lia; lra.
Qed.

Lemma iter_shr_1_inb p : forall mrs t,
  0 <= shr_m mrs -> inb (shr_m mrs) (loc_of_shr_record mrs) t ->
  0 <= shr_m (SpecFloat.iter_pos shr_1 p mrs) /\
  inb (shr_m (SpecFloat.iter_pos shr_1 p mrs)) (loc_of_shr_record (SpecFloat.iter_pos shr_1 p mrs)) (t / pow2 (Z.pos p)).
Proof.
  induction p as [p IH|p IH|]; intros mrs t Hm Hi; cbn [SpecFloat.iter_pos].
  - destruct (shr_1_inb mrs t Hm Hi) as [H1 H2].
    destruct (IH _ _ H1 H2) as [H3 H4].
    destruct (IH _ _ H3 H4) as [H5 H6]. split; [exact H5|].
    replace (t / pow2 (Z.pos p~1))%R with (t / 2 / pow2 (Z.pos p) / pow2 (Z.pos p))%R; [exact H6|].
    rewrite (Pos2Z.inj_xI p), !pow2_add, pow2_1.
    replace (2 * Z.pos p) with (Z.pos p + Z.pos p) by lia. rewrite pow2_add.
    pose proof (pow2_pos (Z.pos p)). field. lra.
  - destruct (IH _ _ Hm Hi) as [H3 H4].
    destruct (IH _ _ H3 H4) as [H5 H6]. split; [exact H5|].
    replace (t / pow2 (Z.pos p~0))%R with (t / pow2 (Z.pos p) / pow2 (Z.pos p))%R; [exact H6|].
    rewrite (Pos2Z.inj_xO p).
    replace (2 * Z.pos p) with (Z.pos p + Z.pos p) by lia. rewrite pow2_add.
    pose proof (pow2_pos (Z.pos p)). field. lra.
  - rewrite pow2_1. exact (shr_1_inb mrs t Hm Hi).
Qed.

Lemma shr_inbetween mrs e n x :
  0 <= shr_m mrs -> 0 <= n -> inbetween (shr_m mrs) e (loc_of_shr_record mrs) x ->
  0 <= shr_m (fst (shr mrs e n)) /\ snd (shr mrs e n) = e + n /\
  inbetween (shr_m (fst (shr mrs e n))) (snd (shr mrs e n)) (loc_of_shr_record (fst (shr mrs e n))) x.
Proof.
  intros Hm Hn Hi. unfold shr. destruct n as [|p|p]; [|cbn [fst snd]|lia].
  - cbn [fst snd]. rewrite Z.add_0_r. auto.
  - unfold inbetween in *.
    destruct (iter_shr_1_inb p mrs (x / pow2 e) Hm Hi) as [H1 H2].
    split; [exact H1|]. split; [reflexivity|].
    replace (x / pow2 (e + Z.pos p))%R with (x / pow2 e / pow2 (Z.pos p))%R; [exact H2|].
    rewrite pow2_add. pose proof (pow2_pos e). pose proof (pow2_pos (Z.pos p)). field. lra.
Qed.

Lemma loc_of_shr_record_of_loc m l : loc_of_shr_record (shr_record_of_loc m l) = l.
Proof. destruct l as [|[]]; reflexivity. Qed.

Lemma shr_m_shr_record_of_loc m l : shr_m (shr_record_of_loc m l) = m.
Proof. destruct l as [|[]]; reflexivity. Qed.

Lemma shr_fexp_inbetween m e l x :
  0 <= m -> inbetween m e l x ->
  0 <= shr_m (fst (shr_fexp prec emax m e l)) /\
  snd (shr_fexp prec emax m e l) = Z.max e (fexp prec emax (Zdigits2 m + e)) /\
  inbetween (shr_m (fst (shr_fexp prec emax m e l))) (snd (shr_fexp prec emax m e l))
    (loc_of_shr_record (fst (shr_fexp prec emax m e l))) x.
Proof.
  intros Hm Hi. unfold shr_fexp.
  set (n := fexp prec emax (Zdigits2 m + e) - e).
  destruct (Z_le_gt_dec 0 n) as [Hn|Hn].
  - assert (Hm' : 0 <= shr_m (shr_record_of_loc m l)) by (rewrite shr_m_shr_record_of_loc; exact Hm).
    assert (Hi' : inbetween (shr_m (shr_record_of_loc m l)) e
                    (loc_of_shr_record (shr_record_of_loc m l)) x)
      by (rewrite shr_m_shr_record_of_loc, loc_of_shr_record_of_loc; exact Hi).
    destruct (shr_inbetween _ e n x Hm' Hn Hi') as [H1 [H2 H3]].
    split; [exact H1|]. split; [rewrite H2; unfold n; lia|exact H3].
  - unfold shr. destruct n as [|p|p] eqn:En; [lia|lia|]. cbn [fst snd].
    rewrite shr_m_shr_record_of_loc, loc_of_shr_record_of_loc.
    split; [exact Hm|]. split; [|exact Hi]. unfold n in En. lia.
Qed.

Lemma new_location_spec d r :
  0 < d -> 0 <= r < d ->
  new_location d r = if r =? 0 then loc_Exact else loc_Inexact (Z.compare (2 * r) d).
Proof.
  intros Hd Hr. unfold new_location.
  destruct (Z.even d) eqn:Ev; [reflexivity|].
  unfold new_location_odd. destruct (r =? 0); [reflexivity|].
  f_equal.
  assert (Ho : Z.odd d = true) by (rewrite <- Z.negb_even, Ev; reflexivity).
  apply Zodd_bool_iff in Ho. apply Zodd_ex_iff in Ho. destruct Ho as [j ->].
  destruct (Z.compare_spec (2 * r + 1) (2 * j + 1)); destruct (Z.compare_spec (2 * r) (2 * j + 1));
    first [reflexivity | lia].
Qed.

Lemma inb_frac q r d :
  0 < d -> 0 <= r < d ->
  inb q (if r =? 0 then loc_Exact else loc_Inexact (Z.compare (2 * r) d)) (IZR q + IZR r / IZR d).
Proof.
  intros Hd Hr.
  assert (HdR : (0 < IZR d)%R) by (apply IZR_lt; exact Hd).
  destruct (r =? 0) eqn:E0.
  - apply Z.eqb_eq in E0. subst r. cbn [inb]. unfold Rdiv. rewrite Rmult_0_l. lra.
  - apply Z.eqb_neq in E0.
    assert (Hr0 : (0 < IZR r)%R) by (apply IZR_lt; lia).
    assert (Hr1 : (IZR r < IZR d)%R) by (apply IZR_lt; lia).
    assert (F0 : (0 < IZR r / IZR d)%R) by (apply Rdiv_lt_0_compat; lra).
    assert (F1 : (IZR r / IZR d < 1)%R).
    { apply (Rmult_lt_reg_r (IZR d)); [lra|]. unfold Rdiv.
      rewrite Rmult_assoc, Rinv_l by lra. lra. }
    assert (Hh : (IZR r / IZR d - / 2 = (2 * IZR r - IZR d) / (2 * IZR d))%R) by (field; lra).
    cbn [inb]. split; [lra|].
    destruct (Z.compare_spec (2 * r) d) as [Heq|Hlt|Hgt].
    + apply (f_equal IZR) in Heq. rewrite mult_IZR in Heq.
      assert (IZR r / IZR d = / 2)%R by (rewrite <- Heq; field; lra). lra.
    + apply IZR_lt in Hlt. rewrite mult_IZR in Hlt.
      assert ((2 * IZR r - IZR d) / (2 * IZR d) < 0)%R.
      { unfold Rdiv. apply Rmult_neg_pos; [lra|]. apply Rinv_0_lt_compat. lra. }
      lra.
    + apply IZR_lt in Hgt. rewrite mult_IZR in Hgt.
      assert (0 < (2 * IZR r - IZR d) / (2 * IZR d))%R.
      { apply Rdiv_lt_0_compat; lra. }
      lra.
Qed.

Lemma IZR_pos_digits p :
  (pow2 (Zdigits2 (Z.pos p) - 1) <= IZR (Z.pos p) < pow2 (Zdigits2 (Z.pos p)))%R.
Proof.
  cbn [Zdigits2]. pose proof (digits2_pos_spec p) as [H1 H2].
  rewrite !pow2_IZR by lia. split; [apply IZR_le | apply IZR_lt]; lia.
Qed.

Lemma div_core_inbetween mx ex my ey :
  let x := (IZR (Z.pos mx) * pow2 ex / (IZR (Z.pos my) * pow2 ey))%R in
  let D := Zdigits2 (Z.pos mx) + ex - (Zdigits2 (Z.pos my) + ey) in
  (let '(q, e', l) := SFdiv_core_binary prec emax (Z.pos mx) ex (Z.pos my) ey in
   0 <= q /\ inbetween q e' l x /\ e' <= fexp prec emax D) /\
  (pow2 (D - 1) < x < pow2 (D + 1))%R.
Proof.
  intros x D.
  assert (HP := pow2_pos ex). assert (HQ := pow2_pos ey).
  assert (Hb : (0 < IZR (Z.pos my))%R) by (apply IZR_lt; lia).
  split.
  - unfold SFdiv_core_binary. fold D.
    set (e' := Z.min (fexp prec emax D) (ex - ey)).
    assert (He' : e' <= fexp prec emax D) by apply Z.le_min_l.
    assert (He2 : e' <= ex - ey) by apply Z.le_min_r.
    set (s := ex - ey - e').
    assert (Hs : 0 <= s) by (unfold s; lia).
    assert (Hm' : (match s with Z.pos _ => Z.shiftl (Z.pos mx) s | Z0 => Z.pos mx | Z.neg _ => 0 end)
                  = Z.pos mx * 2 ^ s).
    { destruct s as [|p|p]; [ring| |lia]. apply Z.shiftl_mul_pow2. lia. }
    rewrite Hm'.
    pose proof (Z_div_mod (Z.pos mx * 2 ^ s) (Z.pos my) ltac:(lia)) as Hdm.
    destruct (Z.div_eucl (Z.pos mx * 2 ^ s) (Z.pos my)) as [q r] eqn:Edu.
    destruct Hdm as [Hdm Hr].
    assert (Hq : 0 <= q).
    { destruct (Z_le_gt_dec 0 q); [assumption|].
      assert (0 <= Z.pos mx * 2 ^ s) by (pose proof (Z.pow_nonneg 2 s); lia). nia. }
    split; [exact Hq|]. split; [|exact He'].
    unfold inbetween. rewrite (new_location_spec (Z.pos my) r ltac:(lia) Hr).
    replace (x / pow2 e')%R with (IZR q + IZR r / IZR (Z.pos my))%R; [apply inb_frac; lia|].
    unfold x.
    assert (Hex : pow2 ex = (pow2 s * pow2 ey * pow2 e')%R)
      by (rewrite <- !pow2_add; f_equal; unfold s; lia).
    rewrite Hex, (pow2_IZR s Hs).
    assert (HE := pow2_pos e').
    assert (Hmx : (IZR (Z.pos mx) * IZR (2 ^ s) = IZR (Z.pos my) * IZR q + IZR r)%R)
      by (rewrite <- mult_IZR, <- mult_IZR, <- plus_IZR; f_equal; exact Hdm).
    transitivity ((IZR (Z.pos mx) * IZR (2 ^ s)) / IZR (Z.pos my))%R.
    + rewrite Hmx. field. lra.
    + field. repeat split; lra.
  - destruct (IZR_pos_digits mx) as [A1 A2]. destruct (IZR_pos_digits my) as [B1 B2].
    set (d1 := Zdigits2 (Z.pos mx)) in *. set (d2 := Zdigits2 (Z.pos my)) in *.
    set (a := IZR (Z.pos mx)) in *. set (b := IZR (Z.pos my)) in *.
    assert (HA := pow2_pos (d1 - 1)). assert (HB := pow2_pos (d2 - 1)).
    assert (E1 : (pow2 (D - 1) * (2 * pow2 (d2 - 1) * pow2 ey) = pow2 (d1 - 1) * pow2 ex)%R).
    { rewrite <- pow2_1, <- !pow2_add. f_equal. unfold D. lia. }
    assert (E2 : (pow2 (D + 1) * (pow2 (d2 - 1) * pow2 ey) = 2 * pow2 (d1 - 1) * pow2 ex)%R).
    { rewrite <- pow2_1, <- !pow2_add. f_equal. unfold D. lia. }
    assert (Ed1 : pow2 d1 = (2 * pow2 (d1 - 1))%R).
    { rewrite <- pow2_1, <- pow2_add. f_equal. lia. }
    assert (Ed2 : pow2 d2 = (2 * pow2 (d2 - 1))%R).
    { rewrite <- pow2_1, <- pow2_add. f_equal. lia. }
    assert (Hx : (x * (b * pow2 ey) = a * pow2 ex)%R) by (unfold x; field; lra).
    assert (HbQ : (0 < b * pow2 ey)%R) by (apply Rmult_lt_0_compat; lra).
    assert (HD1 := pow2_pos (D - 1)). assert (HD2 := pow2_pos (D + 1)).
    split.
    + apply (Rmult_lt_reg_r (b * pow2 ey)); [exact HbQ|]. rewrite Hx.
      apply (Rlt_le_trans _ (pow2 (D - 1) * (2 * pow2 (d2 - 1) * pow2 ey))).
      * rewrite <- Rmult_assoc, <- (Rmult_assoc (pow2 (D - 1))).
        apply Rmult_lt_compat_r; [exact HQ|]. apply Rmult_lt_compat_l; [exact HD1|]. lra.
      * rewrite E1. apply Rmult_le_compat_r; lra.
    + apply (Rmult_lt_reg_r (b * pow2 ey)); [exact HbQ|]. rewrite Hx.
      apply (Rlt_le_trans _ (2 * pow2 (d1 - 1) * pow2 ex)).
      * apply Rmult_lt_compat_r; [exact HP|]. lra.
      * rewrite <- E2. apply Rmult_le_compat_l; [lra|]. apply Rmult_le_compat_r; lra.
Qed.

Lemma fexp_eq z : fexp prec emax z = Z.max (z - 53) (-1074).
Proof. reflexivity. Qed.

Lemma emin_eq : emin prec emax = -1074.
Proof. reflexivity. Qed.

Lemma inbetween_bounds m e l x :
  inbetween m e l x -> (IZR m * pow2 e <= x < (IZR m + 1) * pow2 e)%R.
Proof.
  intros Hi. apply inb_bounds in Hi. assert (HP := pow2_pos e).
  assert (Hx : x = (x / pow2 e * pow2 e)%R) by (field; lra).
  destruct Hi as [H1 H2]. split.
  - rewrite Hx at 1. apply Rmult_le_compat_r; lra.
  - rewrite Hx at 1. apply Rmult_lt_compat_r; lra.
Qed.

Lemma pos_digits_pow2 p :
  (pow2 (Zdigits2 (Z.pos p) - 1) <= IZR (Z.pos p))%R /\ (IZR (Z.pos p) + 1 <= pow2 (Zdigits2 (Z.pos p)))%R.
Proof.
  cbn [Zdigits2]. pose proof (digits2_pos_spec p) as [H1 H2].
  rewrite !pow2_IZR by lia. split.
  - apply IZR_le. lia.
  - rewrite <- plus_IZR. apply IZR_le. lia.
Qed.

Lemma round_first q e0 l x D :
  (0 < x)%R -> 0 <= q -> inbetween q e0 l x ->
  (pow2 (D - 1) < x < pow2 (D + 1))%R -> e0 <= fexp prec emax D ->
  0 <= shr_m (fst (shr_fexp prec emax q e0 l)) /\
  goodExp (snd (shr_fexp prec emax q e0 l)) x /\
  inbetween (shr_m (fst (shr_fexp prec emax q e0 l))) (snd (shr_fexp prec emax q e0 l))
    (loc_of_shr_record (fst (shr_fexp prec emax q e0 l))) x.
Proof.
  intros Hx Hq Hi [HD1 HD2] He0.
  destruct (shr_fexp_inbetween q e0 l x Hq Hi) as [H1 [H2 H3]].
  split; [exact H1|]. split; [|exact H3].
  rewrite H2. rewrite fexp_eq in *. unfold goodExp. rewrite emin_eq.
  destruct (inbetween_bounds _ _ _ _ Hi) as [B1 B2].
  destruct q as [|p|p]; [| |lia].
  - cbn [Zdigits2]. rewrite Z.add_0_l. rewrite Rmult_0_l, Rplus_0_l, Rmult_1_l in *.
    assert (D - 1 < e0) by (apply pow2_lt_inv; lra).
    assert (e0 <= -1074) by lia.
    replace (Z.max e0 (Z.max (e0 - 53) (-1074))) with (-1074) by lia.
    split; [lia|]. split; [|left; reflexivity].
    apply (Rlt_le_trans _ (pow2 e0)); [exact B2|]. apply pow2_le. lia.
  - destruct (pos_digits_pow2 p) as [P1 P2].
    set (n := Zdigits2 (Z.pos p)) in *.
    assert (HP := pow2_pos e0).
    assert (K1 : (pow2 (n + e0 - 1) <= x)%R).
    { replace (n + e0 - 1) with ((n - 1) + e0) by lia. rewrite pow2_add.
      apply (Rle_trans _ (IZR (Z.pos p) * pow2 e0)); [|exact B1].
      apply Rmult_le_compat_r; lra. }
    assert (K2 : (x < pow2 (n + e0))%R).
    { rewrite pow2_add. apply (Rlt_le_trans _ _ _ B2). apply Rmult_le_compat_r; lra. }
    assert (D - 1 < n + e0) by (apply pow2_lt_inv; lra).
    assert (n + e0 - 1 < D + 1) by (apply pow2_lt_inv; lra).
    set (k := n + e0) in *.
    replace (Z.max e0 (Z.max (k - 53) (-1074))) with (Z.max (k - 53) (-1074)) by lia.
    split; [lia|]. split.
    + apply (Rlt_le_trans _ _ _ K2). apply pow2_le. lia.
    + destruct (Z.max_spec (k - 53) (-1074)) as [[_ ->]|[_ ->]]; [left; reflexivity|].
      right. replace (k - 53 + 52) with (k - 1) by lia. exact K1.
Qed.

Lemma goodExp_mant_bounds m e l x :
  goodExp e x -> 0 <= m -> inbetween m e l x ->
  m < 2 ^ 53 /\ (e = -1074 \/ 2 ^ 52 <= m).
Proof.
  intros [G1 [G2 G3]] Hm Hi. rewrite emin_eq in *.
  destruct (inbetween_bounds _ _ _ _ Hi) as [B1 B2].
  assert (HP := pow2_pos e).
  split.
  - assert (IZR m < IZR (2 ^ 53))%R.
    { rewrite <- pow2_IZR by lia. apply (Rmult_lt_reg_r (pow2 e)); [exact HP|].
      rewrite <- pow2_add, Z.add_comm. lra. }
    apply lt_IZR. exact H.
  - destruct G3 as [G3|G3]; [left; exact G3|right].
    assert (IZR (2 ^ 52) < IZR m + 1)%R.
    { rewrite <- pow2_IZR by lia. apply (Rmult_lt_reg_r (pow2 e)); [exact HP|].
      rewrite <- pow2_add, Z.add_comm. lra. }
    rewrite <- plus_IZR in H. apply lt_IZR in H. lia.
Qed.

Lemma round_second m e :
  -1074 <= e -> 0 <= m <= 2 ^ 53 ->
  (let '(mrs'', e'') := shr_fexp prec emax m e loc_Exact in
   match shr_m mrs'' with
   | Z0 => S754_zero false
   | Z.pos m => if e'' <=? emax - prec then S754_finite false m e'' else S754_infinity false
   | Z.neg _ => S754_nan
   end) = outp (roundPair m e).
Proof.
  intros He Hm. unfold roundPair.
  destruct (Z.eqb_spec m (2 ^ 53)) as [->|Hne].
  - unfold shr_fexp. change (Zdigits2 (2 ^ 53)) with 54. rewrite fexp_eq.
    replace (Z.max (54 + e - 53) (-1074) - e) with 1 by lia. reflexivity.
  - unfold shr_fexp.
    assert (Hs : fexp prec emax (Zdigits2 m + e) - e <= 0).
    { rewrite fexp_eq. destruct m as [|p|p]; [cbn [Zdigits2]; lia| |lia].
      pose proof (digits2_pos_spec p) as [D1 D2]. cbn [Zdigits2].
      assert (Z.pos (digits2_pos p) <= 53).
      { destruct (Z_le_gt_dec (Z.pos (digits2_pos p)) 53) as [|Hg]; [assumption|].
        pose proof (Z.pow_le_mono_r 2 53 (Z.pos (digits2_pos p) - 1) ltac:(lia) ltac:(lia)). lia. }
      lia. }
    destruct (fexp prec emax (Zdigits2 m + e) - e) as [|p|p]; [|lia|];
      cbn [shr]; rewrite shr_m_shr_record_of_loc; reflexivity.
Qed.

Lemma binary_round_aux_spec q e0 l x D :
  (0 < x)%R -> 0 <= q -> inbetween q e0 l x ->
  (pow2 (D - 1) < x < pow2 (D + 1))%R -> e0 <= fexp prec emax D ->
  exists m1 e1 l1, 0 <= m1 /\ goodExp e1 x /\ inbetween m1 e1 l1 x /\
    binary_round_aux prec emax false q e0 l = outp (roundPair (round_nearest_even m1 l1) e1).
Proof.
  intros Hx Hq Hi HD He0.
  destruct (round_first q e0 l x D Hx Hq Hi HD He0) as [H1 [H2 H3]].
  exists (shr_m (fst (shr_fexp prec emax q e0 l))), (snd (shr_fexp prec emax q e0 l)),
    (loc_of_shr_record (fst (shr_fexp prec emax q e0 l))).
  split; [exact H1|]. split; [exact H2|]. split; [exact H3|].
  destruct (goodExp_mant_bounds _ _ _ _ H2 H1 H3) as [M1 M2].
  pose proof (round_nearest_even_bound (shr_m (fst (shr_fexp prec emax q e0 l)))
                (loc_of_shr_record (fst (shr_fexp prec emax q e0 l))) H1) as Hr.
  destruct H2 as [G1 _]. rewrite emin_eq in G1.
  rewrite <- round_second by lia.
  unfold binary_round_aux.
  destruct (shr_fexp prec emax q e0 l) as [mrs' e'] eqn:E1. cbn [fst snd].
  reflexivity.
Qed.

Lemma rne_same_grid mx lx my ly e x y :
  (x <= y)%R -> 0 <= mx -> 0 <= my -> inbetween mx e lx x -> inbetween my e ly y ->
  round_nearest_even mx lx <= round_nearest_even my ly.
Proof.
  intros Hxy Hmx Hmy Hx Hy. unfold inbetween in *.
  assert (HP := pow2_pos e).
  assert (Ht : (x / pow2 e <= y / pow2 e)%R).
  { unfold Rdiv. apply Rmult_le_compat_r; [left; apply Rinv_0_lt_compat; lra | exact Hxy]. }
  set (t := (x / pow2 e)%R) in *. set (u := (y / pow2 e)%R) in *.
  destruct (inb_bounds _ _ _ Hx) as [X1 X2]. destruct (inb_bounds _ _ _ Hy) as [Y1 Y2].
  pose proof (round_nearest_even_bound mx lx Hmx).
  pose proof (round_nearest_even_bound my ly Hmy).
  assert (Hle : mx <= my).
  { destruct (Z_le_gt_dec mx my) as [|Hg]; [assumption|].
    assert (IZR (my + 1) <= IZR mx)%R by (apply IZR_le; lia).
    rewrite plus_IZR in H1. lra. }
  destruct (Z.eq_dec mx my) as [<-|Hne]; [|lia].
  destruct lx as [|[]], ly as [|[]]; cbn [round_nearest_even inb] in *;
    destruct (Z.even mx); try lia; exfalso; lra.
Qed.

Lemma roundPair_lex x y ex ey mx my lx ly :
  (0 < x)%R -> (x <= y)%R -> goodExp ex x -> goodExp ey y -> 0 <= mx -> 0 <= my ->
  inbetween mx ex lx x -> inbetween my ey ly y ->
  let a := roundPair (round_nearest_even mx lx) ex in
  let b := roundPair (round_nearest_even my ly) ey in
  (snd a < snd b \/ (snd a = snd b /\ fst a <= fst b)) /\
  0 <= fst a /\ 0 <= fst b /\ (fst b = 0 -> fst a = 0).
Proof.
  intros Hx Hxy Gx Gy Hmx Hmy Ix Iy a b.
  destruct (goodExp_mant_bounds _ _ _ _ Gx Hmx Ix) as [MX1 MX2].
  destruct (goodExp_mant_bounds _ _ _ _ Gy Hmy Iy) as [MY1 MY2].
  pose proof (round_nearest_even_bound mx lx Hmx) as RX.
  pose proof (round_nearest_even_bound my ly Hmy) as RY.
  set (ra := round_nearest_even mx lx) in *. set (rb := round_nearest_even my ly) in *.
  destruct Gx as [GX1 [GX2 GX3]]. destruct Gy as [GY1 [GY2 GY3]]. rewrite emin_eq in *.
  assert (Hexy : ex <= ey).
  { destruct (Z_le_gt_dec ex ey) as [|Hg]; [assumption|].
    destruct GX3 as [GX3|GX3]; [lia|].
    pose proof (pow2_le (ey + 53) (ex + 52) ltac:(lia)). lra. }
  unfold a, b, roundPair. cbn [fst snd].
  destruct (Z.eq_dec ex ey) as [<-|Hne].
  - pose proof (rne_same_grid mx lx my ly ex x y Hxy Hmx Hmy Ix Iy) as Hr. fold ra rb in Hr.
    destruct (Z.eqb_spec ra (2 ^ 53)); destruct (Z.eqb_spec rb (2 ^ 53)); cbn [fst snd]; lia.
  - destruct GY3 as [GY3|GY3]; [lia|].
    destruct MY2 as [MY2|MY2]; [lia|].
    destruct (Z.eqb_spec ra (2 ^ 53)); destruct (Z.eqb_spec rb (2 ^ 53)); cbn [fst snd]; lia.
Qed.

Lemma outp_le a b :
  (snd a < snd b \/ (snd a = snd b /\ fst a <= fst b)) ->
  0 <= fst a -> 0 <= fst b -> (fst b = 0 -> fst a = 0) ->
  js_le (outp a) (outp b) = true.
Proof.
  destruct a as [ma ea], b as [mb eb]. cbn [fst snd]. intros Hlex Ha Hb Hz.
  unfold outp, js_le, SFleb, SFcompare. cbn [fst snd].
  destruct ma as [|pa|pa]; [|destruct mb as [|pb|pb]|lia].
  - destruct mb as [|pb|pb]; [reflexivity| |lia].
    destruct (eb <=? emax - prec); reflexivity.
  - lia.
  - destruct (Z.leb_spec ea (emax - prec)); destruct (Z.leb_spec eb (emax - prec));
      try reflexivity; [|unfold emax, prec in *; lia].
    destruct Hlex as [Hlt|[Heq Hle]].
    + rewrite (proj2 (Z.compare_lt_iff ea eb) Hlt). reflexivity.
    + rewrite Heq, Z.compare_refl.
      change (Pos.compare_cont Eq pa pb) with (Pos.compare pa pb).
      destruct (Pos.compare_spec pa pb); [reflexivity|reflexivity|lia].
  - lia.
Qed.

Lemma SFleb_opp a b : SFleb (SFopp a) (SFopp b) = SFleb b a.
Proof.
  destruct a as [sa|sa| |sa ma ea], b as [sb|sb| |sb mb eb];
    try destruct sa; try destruct sb; unfold SFleb, SFcompare, SFopp; cbn [negb]; try reflexivity.
  all: destruct (Z.compare_spec ea eb) as [<-|Hc|Hc];
    [ try rewrite Z.compare_refl; cbn [CompOpp];
      try change (PosDef.Pos.compare_cont Eq mb ma) with (Pos.compare mb ma);
      try change (PosDef.Pos.compare_cont Eq ma mb) with (Pos.compare ma mb);
      try rewrite (Pos.compare_antisym mb ma); try destruct (Pos.compare mb ma); reflexivity
    | try rewrite (proj2 (Z.compare_gt_iff eb ea) Hc); reflexivity
    | try rewrite (proj2 (Z.compare_lt_iff eb ea) Hc); reflexivity ].
Qed.

Lemma binary_round_aux_opp m e l :
  binary_round_aux prec emax true m e l = SFopp (binary_round_aux prec emax false m e l).
Proof.
  unfold binary_round_aux.
  destruct (shr_fexp prec emax m e l) as [mrs' e'].
  destruct (shr_fexp prec emax (round_nearest_even (shr_m mrs') (loc_of_shr_record mrs')) e' loc_Exact)
    as [mrs'' e''].
  destruct (shr_m mrs''); try reflexivity. destruct (e'' <=? emax - prec); reflexivity.
Qed.

Lemma bounded_mant m e :
  SpecFloat.bounded prec emax m e = true ->
  -1074 <= e /\ Z.pos m < 2 ^ 53 /\ (e = -1074 \/ 2 ^ 52 <= Z.pos m).
Proof.
  unfold SpecFloat.bounded, canonical_mantissa. rewrite Bool.andb_true_iff, Z.eqb_eq.
  rewrite fexp_eq. intros [Hc _].
  pose proof (digits2_pos_spec m) as [D1 D2].
  set (d := Z.pos (digits2_pos m)) in *.
  assert (Hd : d <= 53) by lia.
  split; [lia|]. split.
  - apply (Z.lt_le_trans _ _ _ D2). apply Z.pow_le_mono_r; lia.
  - destruct (Z.eq_dec e (-1074)) as [|Hne]; [left; assumption|right].
    assert (d = 53) by lia. subst d. rewrite H in D1. exact D1.
Qed.

Lemma finite_le_value m e m' e' :
  SpecFloat.bounded prec emax m e = true -> SpecFloat.bounded prec emax m' e' = true ->
  js_le (S754_finite false m e) (S754_finite false m' e') = true ->
  (IZR (Z.pos m) * pow2 e <= IZR (Z.pos m') * pow2 e')%R.
Proof.
  intros Hb Hb' Hle.
  destruct (bounded_mant m e Hb) as [E1 [M1 _]].
  destruct (bounded_mant m' e' Hb') as [E1' [M1' M2']].
  unfold js_le, SFleb, SFcompare in Hle.
  assert (HP := pow2_pos e). assert (HP' := pow2_pos e').
  destruct (Z.compare_spec e e') as [<-|Hlt|Hgt].
  - change (Pos.compare_cont Eq m m') with (Pos.compare m m') in Hle.
    apply Rmult_le_compat_r; [lra|]. apply IZR_le.
    destruct (Pos.compare_spec m m'); [subst; lia|lia|discriminate].
  - destruct M2' as [M2'|M2']; [lia|].
    apply (Rle_trans _ (pow2 (e + 53))).
    + rewrite Z.add_comm, pow2_add, (pow2_IZR 53) by lia.
      apply Rmult_le_compat_r; [lra|]. left. apply IZR_lt. exact M1.
    + replace (e + 53) with (52 + (e + 1)) by lia. rewrite pow2_add, (pow2_IZR 52) by lia.
      apply Rmult_le_compat; [apply IZR_le; lia|left; apply pow2_pos|apply IZR_le; exact M2'|].
      apply pow2_le. lia.
  - discriminate.
Qed.

Lemma roundPair_nonneg m e : 0 <= m -> 0 <= fst (roundPair m e).
Proof. intros Hm. unfold roundPair. destruct (m =? 2 ^ 53); cbn [fst]; lia. Qed.

Lemma js_div_neg_spec md ed mq eq :
  let x := (IZR (Z.pos md) * pow2 ed / (IZR (Z.pos mq) * pow2 eq))%R in
  exists m1 e1 l1, 0 <= m1 /\ goodExp e1 x /\ inbetween m1 e1 l1 x /\
    js_div (S754_finite true md ed) (S754_finite false mq eq)
    = SFopp (outp (roundPair (round_nearest_even m1 l1) e1)).
Proof.
  intros x.
  assert (Hx : (0 < x)%R).
  { unfold x. assert (HP := pow2_pos ed). assert (HQ := pow2_pos eq).
    assert (0 < IZR (Z.pos md))%R by (apply IZR_lt; lia).
    assert (0 < IZR (Z.pos mq))%R by (apply IZR_lt; lia).
    apply Rdiv_lt_0_compat; apply Rmult_lt_0_compat; lra. }
  destruct (div_core_inbetween md ed mq eq) as [Hc HD]. fold x in Hc, HD.
  unfold js_div, SFdiv.
  destruct (SFdiv_core_binary prec emax (Z.pos md) ed (Z.pos mq) eq) as [[q e0] l].
  destruct Hc as [Hq [Hi He0]].
  destruct (binary_round_aux_spec q e0 l x _ Hx Hq Hi HD He0) as [m1 [e1 [l1 [H1 [H2 [H3 H4]]]]]].
  exists m1, e1, l1. split; [exact H1|]. split; [exact H2|]. split; [exact H3|].
  cbn [xorb]. rewrite binary_round_aux_opp, H4. reflexivity.
Qed.

Lemma js_div_neg_mono md ed m e m' e' :
  SpecFloat.bounded prec emax m e = true -> SpecFloat.bounded prec emax m' e' = true ->
  js_le (S754_finite false m e) (S754_finite false m' e') = true ->
  js_le (js_div (S754_finite true md ed) (S754_finite false m e))
        (js_div (S754_finite true md ed) (S754_finite false m' e')) = true.
Proof.
  intros Hb Hb' Hle.
  pose proof (finite_le_value _ _ _ _ Hb Hb' Hle) as Hv.
  destruct (js_div_neg_spec md ed m e) as [m1 [e1 [l1 [A1 [A2 [A3 A4]]]]]].
  destruct (js_div_neg_spec md ed m' e') as [m2 [e2 [l2 [B1 [B2 [B3 B4]]]]]].
  rewrite A4, B4. unfold js_le. rewrite SFleb_opp.
  set (x := (IZR (Z.pos md) * pow2 ed / (IZR (Z.pos m) * pow2 e))%R) in *.
  set (y := (IZR (Z.pos md) * pow2 ed / (IZR (Z.pos m') * pow2 e'))%R) in *.
  assert (HP := pow2_pos ed). assert (HE := pow2_pos e). assert (HE' := pow2_pos e').
  assert (Ha : (0 < IZR (Z.pos md))%R) by (apply IZR_lt; lia).
  assert (Hm : (0 < IZR (Z.pos m))%R) by (apply IZR_lt; lia).
  assert (Hy : (0 < y)%R).
  { unfold y. assert (0 < IZR (Z.pos m'))%R by (apply IZR_lt; lia).
    apply Rdiv_lt_0_compat; apply Rmult_lt_0_compat; lra. }
  assert (Hyx : (y <= x)%R).
  { unfold x, y, Rdiv. apply Rmult_le_compat_l; [apply Rmult_le_pos; lra|].
    apply Rinv_le_contravar; [apply Rmult_lt_0_compat; lra|exact Hv]. }
  destruct (roundPair_lex y x e2 e1 m2 m1 l2 l1 Hy Hyx B2 A2 B1 A1 B3 A3) as [L1 [L2 [L3 L4]]].
  exact (outp_le _ _ L1 L2 L3 L4).
Qed.

Lemma js_div_neg_le_negzero md ed mq eq :
  js_le (js_div (S754_finite true md ed) (S754_finite false mq eq)) (S754_zero true) = true.
Proof.
  destruct (js_div_neg_spec md ed mq eq) as [m1 [e1 [l1 [A1 [A2 [A3 A4]]]]]].
  rewrite A4. change (S754_zero true) with (SFopp (outp (0, e1))). unfold js_le.
  rewrite SFleb_opp.
  pose proof (round_nearest_even_bound m1 l1 A1) as R.
  pose proof (roundPair_nonneg (round_nearest_even m1 l1) e1 ltac:(lia)) as N.
  unfold roundPair in *. destruct (round_nearest_even m1 l1 =? 2 ^ 53);
    apply outp_le; cbn [fst snd] in *; lia.
Qed.

(** [C9] For a fixed positive finite distance [d], a larger decay constant
    never lowers the proximity score: for binary64 decay constants
    [0 < d0 <= d0'], [proximityScoreFromKm(d, d0) <= proximityScoreFromKm(d, d0')]
    with the quotient [-d / d0] rounded to binary64, whenever the host's
    [Math.exp] is monotone ([x <= y] gives [exp x <= exp y]). The rounded
    quotient [-d / d0] is itself non-decreasing in [d0]. *)
Theorem proximityScoreFromKm_decay_monotone (H : Host) (d d0 d0' : num) :
  (forall x y, js_le x y = true -> js_le (Math_exp H x) (Math_exp H y) = true) ->
  valid_binary prec emax d0 = true -> valid_binary prec emax d0' = true ->
  isFinite d = true -> js_lt pzero d = true ->
  js_lt pzero d0 = true -> js_le d0 d0' = true ->
  js_le (proximityScoreFromKm H d d0) (proximityScoreFromKm H d d0') = true.
Proof.
  intros Hexp V0 V0' Hfin Hd Hd0 H00.
  destruct d as [sd|sd| |[] md ed]; try discriminate.
  unfold proximityScoreFromKm. cbn [isFinite negb].
  replace (js_max pzero (S754_finite false md ed)) with (S754_finite false md ed) by reflexivity.
  change (js_neg (S754_finite false md ed)) with (S754_finite true md ed).
  apply Hexp.
  destruct d0 as [s0|[]| |[] m0 e0]; try discriminate.
  - destruct d0' as [s1|[]| |s1 m1 e1]; try discriminate. reflexivity.
  - destruct d0' as [s1|[]| |[] m1 e1]; try discriminate.
    + apply js_div_neg_le_negzero.
    + exact (js_div_neg_mono md ed m0 e0 m1 e1 V0 V0' H00).
Qed.

(** Witness of [C9]: a host whose [Math.exp] is the identity, distance [1],
    decay constants [1] and [2]. *)
Lemma proximityScoreFromKm_decay_monotone_witness :
  let H := {| Math_exp := fun x => x; Math_sin := Math_sin refHost; Math_cos := Math_cos refHost;
              Math_atan2 := Math_atan2 refHost; exponentiate := exponentiate refHost;
              localeCompare := localeCompare refHost |} in
  (forall x y, js_le x y = true -> js_le (Math_exp H x) (Math_exp H y) = true) /\
  valid_binary prec emax one = true /\ valid_binary prec emax two = true /\
  isFinite one = true /\ js_lt pzero one = true /\ js_lt pzero one = true /\ js_le one two = true /\
  proximityScoreFromKm H one one = js_neg one /\
  proximityScoreFromKm H one two = js_div (js_neg one) two /\
  js_le (proximityScoreFromKm H one one) (proximityScoreFromKm H one two) = true.
Proof.
  intros H.
  assert (Hexp : forall x y, js_le x y = true -> js_le (Math_exp H x) (Math_exp H y) = true)
    by (intros x y Hxy; exact Hxy).
  split; [exact Hexp|].
  do 8 (split; [vm_compute; reflexivity|]).
  apply (proximityScoreFromKm_decay_monotone H one one two Hexp); vm_compute; reflexivity.
Defined.
